(** * animation-translater: the timeline compiler of [main.go]

    A shallow embedding of the Go program that turns a show/hide/wait
    script into CSS keyframes and splices them into an SVG document.

    Conventions of the embedding:
    - Go's [int] is the 64-bit two's-complement integer of the usual
      targets: a [Z] kept in range by [wrap64].
    - Go's [float32] is IEEE-754 binary32, round to nearest even, taken
      from the standard library's [SpecFloat] with precision 24 and
      maximal exponent 128; every operation is rounded on its own.
    - A Go [string] is a sequence of bytes: [string] of the standard
      library.
    - A run-time panic is the [Panicked] outcome of [result].
    - [map[string][]keyframe] is a [gmap string (list keyframe)]; the
      order in which [range] visits a map is an explicit argument. *)

From Stdlib Require Import ZArith Lia List Ascii String.
From Stdlib Require Import Floats.SpecFloat Sorting.Sorted.
From stdpp Require Import base option list gmap fin_maps strings pretty.

Local Open Scope Z_scope.

(** ** The Go run time *)

Module Go.

(** Run-time panics the program can raise. *)
Inductive panic : Type :=
| IndexOutOfRange (index len : Z).

(** Outcome of a call: it returns a value or it panics. *)
Inductive result (A : Type) : Type :=
| Returned (a : A)
| Panicked (p : panic).
Global Arguments Returned {A} a.
Global Arguments Panicked {A} p.

Definition bind {A B} (r : result A) (k : A -> result B) : result B :=
  match r with
  | Returned a => k a
  | Panicked p => Panicked p
  end.

Definition returns {A} (r : result A) : Prop := exists a, r = Returned a.

(** [int] arithmetic wraps around at 64 bits. *)
Definition minInt : Z := - 2 ^ 63.
Definition maxInt : Z := 2 ^ 63 - 1.
Definition wrap64 (z : Z) : Z := (z + 2 ^ 63) mod 2 ^ 64 - 2 ^ 63.
Definition int_add (x y : Z) : Z := wrap64 (x + y).
Definition is_int (z : Z) : Prop := minInt <= z <= maxInt.

End Go.

Global Instance result_ret : MRet Go.result := @Go.Returned.
Global Instance result_bind : MBind Go.result :=
  fun A B k r => Go.bind r k.

(** ** float32 *)

Module F32.

Definition prec : Z := 24.
Definition emax : Z := 128.

Definition float32 : Type := spec_float.

Definition add : float32 -> float32 -> float32 := SFadd prec emax.
Definition mul : float32 -> float32 -> float32 := SFmul prec emax.
Definition div : float32 -> float32 -> float32 := SFdiv prec emax.

(** The conversion [float32(n)] of an integer, correctly rounded. *)
Definition of_int (n : Z) : float32 := binary_normalize prec emax n 0 false.

Definition zero : float32 := S754_zero false.
Definition one : float32 := Eval vm_compute in of_int 1.
Definition c100 : float32 := Eval vm_compute in of_int 100.
Definition c200 : float32 := Eval vm_compute in of_int 200.
Definition c1000 : float32 := Eval vm_compute in of_int 1000.
Definition pinf : float32 := S754_infinity false.

(** Exponent of the smallest positive number, 2^-149. *)
Definition emin : Z := -149.

(** A finite number counted in units of 2^-149. *)
Definition units (m : positive) (e : Z) : Z := Z.pos m * 2 ^ (e - emin).

(** The value of a finite number in units of 2^-149. *)
Definition value (x : float32) : Z :=
  match x with
  | S754_finite s m e => cond_Zopp s (units m e)
  | _ => 0
  end.

(** Order of the values; NaN is not ordered. *)
Definition leb (x y : float32) : bool :=
  match x, y with
  | S754_nan, _ | _, S754_nan => false
  | S754_infinity true, _ | _, S754_infinity false => true
  | S754_infinity false, _ | _, S754_infinity true => false
  | _, _ => value x <=? value y
  end.

Definition le (x y : float32) : Prop := leb x y = true.

(** +0, +Inf, or a positive number whose exponent is in range and whose
    mantissa has no more digits than the format holds. *)
Definition fits (x : float32) : Prop :=
  match x with
  | S754_zero false | S754_infinity false => True
  | S754_finite false m e =>
      emin <= e /\ fexp prec emax (Z.pos (digits2_pos m) + e) <= e
  | _ => False
  end.

(** A positive finite number of the format. *)
Definition positiveFinite (x : float32) : Prop :=
  match x with
  | S754_finite false m e =>
      emin <= e /\ fexp prec emax (Z.pos (digits2_pos m) + e) <= e
  | _ => False
  end.

(** A positive finite number of the format between two bounds given in
    units of 2^-149. *)
Definition within (lo hi : Z) (x : float32) : Prop :=
  match x with
  | S754_finite false m e =>
      (emin <= e /\ fexp prec emax (Z.pos (digits2_pos m) + e) <= e) /\
      lo <= units m e <= hi
  | _ => False
  end.

End F32.

Abbreviation float32 := F32.float32.

(** ** Tokens (lines 14-27) *)

Inductive tokenType : Type := show | hide | wait.

Global Instance tokenType_eq_dec : EqDecision tokenType.
Proof. solve_decision. Defined.

Definition defaultWait : Z := 1000.

Record token : Type := mkToken {
  Type_ : tokenType;
  Id : string;
  Wait : Z
}.

(** ** Library functions the program calls

    [strings.HasPrefix], [strings.Index], [strings.Split] and
    [strconv.Atoi] as the Go standard library documents them, on the
    arguments the program passes. *)

Module strings.

Definition len (s : string) : Z := Z.of_nat (String.length s).

Definition HasPrefix (s prefix : string) : bool := String.prefix prefix s.

(** Index of the first instance of [substr] in [s], or -1. *)
Definition Index (s substr : string) : Z :=
  match String.index 0 substr s with
  | Some n => Z.of_nat n
  | None => -1
  end.

(** [splitFrom sep skip field s]: [field] is the part of the current
    field already read, [skip] the number of bytes of a matched
    separator still to pass over. *)
Fixpoint splitFrom (sep : string) (skip : nat) (field s : string) : list string :=
  match s with
  | EmptyString => [field]
  | String c s' =>
      match skip with
      | S k => splitFrom sep k field s'
      | O =>
          if String.prefix sep s
          then field :: splitFrom sep (String.length sep - 1)%nat "" s'
          else splitFrom sep 0 (field ++ String c "") s'
      end
  end.

(** [strings.Split(s, sep)] for a non-empty separator: [s] cut at
    every instance of [sep], leftmost first. *)
Definition Split (s sep : string) : list string := splitFrom sep 0 "" s.

(** The index expression [s[i]] on a string. *)
Definition byteAt (s : string) (i : Z) : Go.result ascii :=
  if (0 <=? i) && (i <? len s) then
    match String.get (Z.to_nat i) s with
    | Some c => Go.Returned c
    | None => Go.Panicked (Go.IndexOutOfRange i (len s))
    end
  else Go.Panicked (Go.IndexOutOfRange i (len s)).

End strings.

(** The index expression [xs[i]] on a slice. *)
Definition index {A} (xs : list A) (i : Z) : Go.result A :=
  if (0 <=? i) && (i <? Z.of_nat (length xs)) then
    match xs !! Z.to_nat i with
    | Some x => Go.Returned x
    | None => Go.Panicked (Go.IndexOutOfRange i (Z.of_nat (length xs)))
    end
  else Go.Panicked (Go.IndexOutOfRange i (Z.of_nat (length xs))).

Module strconv.

Inductive errKind : Type := ErrSyntax | ErrRange.

Record NumError : Type := mkNumError {
  Func : string;
  Num : string;
  Err : errKind
}.

(** Value of a decimal digit byte: [c - '0'] on bytes, valid below 10. *)
Definition digit (c : ascii) : option Z :=
  let d := (Z.of_N (N_of_ascii c) - 48) mod 256 in
  if d <=? 9 then Some d else None.

Definition maxUint64 : Z := 2 ^ 64 - 1.

(** The digit loop of [ParseUint(s, 10, 64)]: a byte that is no
    digit is a syntax error; the loop leaves with a range error as
    soon as the value passes [maxUint64], without reading further. *)
Fixpoint parseDigits (n : Z) (s : string) : Z * option errKind :=
  match s with
  | EmptyString => (n, None)
  | String c s' =>
      match digit c with
      | None => (0, Some ErrSyntax)
      | Some d =>
          if maxUint64 / 10 + 1 <=? n then (maxUint64, Some ErrRange)
          else if maxUint64 <? n * 10 + d then (maxUint64, Some ErrRange)
          else parseDigits (n * 10 + d) s'
      end
  end.

Definition ParseUint (s : string) : Z * option errKind :=
  match s with
  | EmptyString => (0, Some ErrSyntax)
  | _ => parseDigits 0 s
  end.

(** [ParseInt(s, 10, 0)] on a 64-bit target. *)
Definition ParseInt (s : string) : Z * option errKind :=
  match s with
  | EmptyString => (0, Some ErrSyntax)
  | String c s' =>
      let neg := Ascii.eqb c "-" in
      let body := if Ascii.eqb c "+" || neg then s' else s in
      match ParseUint body with
      | (_, Some ErrSyntax) => (0, Some ErrSyntax)
      | (un, _) =>
          if negb neg && (2 ^ 63 <=? un) then (2 ^ 63 - 1, Some ErrRange)
          else if neg && (2 ^ 63 <? un) then (- 2 ^ 63, Some ErrRange)
          else (if neg then - un else un, None)
      end
  end.

(** [strconv.Atoi]: the value and the error, if any.  Its fast path
    for inputs shorter than 19 bytes computes what [ParseInt] does. *)
Definition Atoi (s : string) : Z * option NumError :=
  match ParseInt s with
  | (n, Some k) => (n, Some (mkNumError "Atoi" s k))
  | (n, None) => (n, None)
  end.

End strconv.

(** ** What a run lets the outside see *)

Inductive output : Type :=
| PrintUsage                               (* line 66 *)
| PrintWaitError (e : strconv.NumError)    (* line 52 *)
| PrintToken (t : token)                   (* line 100 *)
| PrintStep (step : float32)               (* line 104 *)
| PrintTotalMs (totalMs : Z)               (* line 105 *)
| WriteFile (name data : string) (ok : bool).
    (* line 113: the call of [os.WriteFile], and whether it succeeded *)

(** A computation prints and calls [os.WriteFile], then returns or
    panics; what was printed before a panic stays printed. *)
Record run (A : Type) : Type := mkRun {
  outputs : list output;
  outcome : Go.result A
}.
Arguments mkRun {A} outputs outcome.
Arguments outputs {A} r.
Arguments outcome {A} r.

Global Instance run_ret : MRet run := fun A a => mkRun [] (Go.Returned a).
Global Instance run_bind : MBind run := fun A B k r =>
  match outcome r with
  | Go.Returned a => mkRun (outputs r ++ outputs (k a)) (outcome (k a))
  | Go.Panicked p => mkRun (outputs r) (Go.Panicked p)
  end.

Definition emit (o : output) : run unit := mkRun [o] (Go.Returned tt).
Definition lift {A} (r : Go.result A) : run A := mkRun [] r.

(** Exit status of the process: 0 when [main] returns, 2 after a panic. *)
Definition exitStatus {A} (r : run A) : Z :=
  match outcome r with
  | Go.Returned _ => 0
  | Go.Panicked _ => 2
  end.

(** ** The tokenizer (lines 29-58 and 79-97) *)

Definition parseShow (line : string) : Go.result token :=
  let tokens := strings.Split line " " in
  id ← index tokens 1;
  mret (mkToken show id defaultWait).

Definition parseHide (line : string) : Go.result token :=
  let tokens := strings.Split line " " in
  id ← index tokens 1;
  mret (mkToken hide id defaultWait).

Definition parseWait (line : string) : run token :=
  let tokens := strings.Split line " " in
  field ← lift (index tokens 1);
  let '(val, err) := strconv.Atoi field in
  _ ← match err with
      | Some e => emit (PrintWaitError e)
      | None => mret tt
      end;
  mret (mkToken wait "" val).

(** The body of the loop of lines 79-97 for one line. *)
Definition tokenizeLine (tokens : list token) (line : string) : run (list token) :=
  tokens ← (if strings.HasPrefix line "show"
            then t ← lift (parseShow line); mret (tokens ++ [t])
            else mret tokens);
  tokens ← (if strings.HasPrefix line "hide"
            then t ← lift (parseHide line); mret (tokens ++ [t])
            else mret tokens);
  if strings.HasPrefix line "wait"
  then t ← parseWait line; mret (tokens ++ [t])
  else mret tokens.

Fixpoint tokenizeFrom (tokens : list token) (lines : list string) : run (list token) :=
  match lines with
  | [] => mret tokens
  | line :: lines' =>
      tokens' ← tokenizeLine tokens line;
      tokenizeFrom tokens' lines'
  end.

Definition tokenize (lines : list string) : run (list token) :=
  tokenizeFrom [] lines.

(** ** calculateStep (lines 116-125) *)

(** The loop [for _, t := range tokens] that accumulates [totalMs]. *)
Definition addWait (totalMs : Z) (t : token) : Z :=
  match Type_ t with
  | wait => Go.int_add totalMs (Wait t)
  | _ => totalMs
  end.

Definition totalMsOf (tokens : list token) : Z := fold_left addWait tokens 0.

Definition stepOf (totalMs : Z) : float32 :=
  F32.mul (F32.div F32.c1000 (F32.of_int totalMs)) F32.c100.

Definition calculateStep (tokens : list token) : float32 * Z :=
  let totalMs := totalMsOf tokens in
  (stepOf totalMs, totalMs).

(** ** calculateKeyframes (lines 127-163) *)

Record keyframe : Type := mkKeyframe {
  Stage : float32;
  Opacity : float32
}.

Abbreviation keyframeMap := (gmap string (list keyframe)).

(** [keyframes[id] = append(keyframes[id], kf)]; a missing key reads as
    the nil slice. *)
Definition appendKeyframe (id : string) (kf : keyframe) (keyframes : keyframeMap)
  : keyframeMap :=
  <[id := default [] (keyframes !! id) ++ [kf]]> keyframes.

(** Lines 139-144: the first reference to an object seeds its list. *)
Definition seed (t : token) (keyframes : keyframeMap) : keyframeMap :=
  match Type_ t with
  | show | hide =>
      match keyframes !! Id t with
      | Some _ => keyframes
      | None => appendKeyframe (Id t) (mkKeyframe F32.zero F32.zero) (<[Id t := []]> keyframes)
      end
  | wait => keyframes
  end.

Record walk : Type := mkWalk {
  currentStage : float32;
  nextStage : float32;
  keyframes : keyframeMap
}.

(** One iteration of the loop of lines 138-156. *)
Definition walkToken (step : float32) (w : walk) (t : token) : walk :=
  let kfs := seed t (keyframes w) in
  match Type_ t with
  | wait =>
      let cur :=
        F32.add (currentStage w)
                (F32.mul (F32.div (F32.of_int (Wait t)) F32.c1000) step) in
      mkWalk cur (F32.add cur step) kfs
  | show =>
      mkWalk (currentStage w) (nextStage w)
        (appendKeyframe (Id t) (mkKeyframe (nextStage w) F32.one)
           (appendKeyframe (Id t) (mkKeyframe (currentStage w) F32.zero) kfs))
  | hide =>
      mkWalk (currentStage w) (nextStage w)
        (appendKeyframe (Id t) (mkKeyframe (nextStage w) F32.zero)
           (appendKeyframe (Id t) (mkKeyframe (currentStage w) F32.one) kfs))
  end.

Definition initialWalk (step : float32) : walk :=
  mkWalk F32.zero (F32.add F32.zero step) ∅.

Definition walkTokens (step : float32) (tokens : list token) : walk :=
  fold_left (walkToken step) tokens (initialWalk step).

(** Line 159 for the entry [(k, v)] that [range] delivers:
    [keyframes[k] = append(keyframes[k], keyframe{100, v[len(v)-1].Opacity})].
    The index expression panics on an empty slice. *)
Definition closeObject (k : string) (v : list keyframe)
    (acc : Go.result keyframeMap) : Go.result keyframeMap :=
  keyframes ← acc;
  match last v with
  | Some l =>
      Go.Returned (appendKeyframe k (mkKeyframe F32.c100 (Opacity l)) keyframes)
  | None => Go.Panicked (Go.IndexOutOfRange (-1) 0)
  end.

(** The loop of lines 158-160: [range] visits every entry of the map
    once; the loop only overwrites keys that are already present. *)
Definition closeAll (keyframes : keyframeMap) : Go.result keyframeMap :=
  map_fold closeObject (Go.Returned keyframes) keyframes.

Definition calculateKeyframes (tokens : list token) (step : float32)
  : Go.result keyframeMap :=
  closeAll (keyframes (walkTokens step tokens)).


(** ** generateCssAnimation (lines 165-217) *)

Section Emitter.

(** How [text/template] prints a [float32] field (the [%v] verb of
    [fmt]); the emitter only passes its values through. *)
Variable formatFloat32 : float32 -> string.

(** [{{ range .Keyframes }}{{ .Stage }}% { opacity: {{ .Opacity }}; } {{end}}] *)
Definition keyframeCss (kf : keyframe) : string :=
  formatFloat32 (Stage kf) +:+ "% { opacity: " +:+
  formatFloat32 (Opacity kf) +:+ "; } ".

(** The animation template, line 182. *)
Definition animationCss (ObjectId Name : string) (TotalMs : Z) : string :=
  "#" +:+ ObjectId +:+ " { animation: " +:+ Name +:+ " " +:+
  pretty TotalMs +:+ "ms linear infinite normal forwards; } ".

(** The keyframes template, lines 187-188. *)
Definition keyframesCss (AnimationName : string) (Keyframes : list keyframe)
  : string :=
  "@keyframes " +:+ AnimationName +:+ " { " +:+
  String.concat "" (keyframeCss <$> Keyframes) +:+ "}".

Definition objectIdPrfix : string := "cell-".
Definition animationNamePrefix : string := "anim".

(** Both templates for one object, under the animation name of
    counter value [n]. *)
Definition objectCss (totalMs n : Z) (k : string) (v : list keyframe) : string :=
  let animName := animationNamePrefix +:+ pretty n in
  animationCss (objectIdPrfix +:+ k) animName totalMs +:+ keyframesCss animName v.

(** One iteration of the loop of lines 197-213 on the builder and
    the counter.  The counter stays below the number of objects, far
    from the end of [int]. *)
Definition emitObject (totalMs : Z) (st : string * Z) (kv : string * list keyframe)
  : string * Z :=
  let '(builder, animationCounter) := st in
  (builder +:+ objectCss totalMs animationCounter kv.1 kv.2, animationCounter + 1).

(** The function, on the sequence of entries in the order in which
    [range keyframes] delivers them. *)
Definition generateCssAnimation (visited : list (string * list keyframe))
    (totalMs : Z) : string :=
  (fold_left (emitObject totalMs) visited ("<style>"%string, 0)).1 +:+ "</style>".

End Emitter.

(** [range] over a map visits every entry exactly once, in an order the
    language leaves open. *)
Definition rangeOver (keyframes : keyframeMap)
    (visited : list (string * list keyframe)) : Prop :=
  visited ≡ₚ map_to_list keyframes.

(** ** addCssToSvg (lines 219-227) *)

(** The loop [for svg[index] != '>' { index++ }].  It runs at most once
    per byte of [svg], which bounds [fuel]. *)
Fixpoint scanTagEnd (fuel : nat) (svg : string) (index : Z) : Go.result Z :=
  c ← strings.byteAt svg index;
  if Ascii.eqb c ">" then mret index
  else
    match fuel with
    | O => Go.Panicked (Go.IndexOutOfRange (index + 1) (strings.len svg))
    | S fuel' => scanTagEnd fuel' svg (index + 1)
    end.

(** The slice expressions [s[:i]] and [s[i:]]. *)
Definition sliceTo (s : string) (i : Z) : Go.result string :=
  if (0 <=? i) && (i <=? strings.len s)
  then mret (String.substring 0 (Z.to_nat i) s)
  else Go.Panicked (Go.IndexOutOfRange i (strings.len s)).

Definition sliceFrom (s : string) (i : Z) : Go.result string :=
  if (0 <=? i) && (i <=? strings.len s)
  then mret (String.substring (Z.to_nat i) (String.length s - Z.to_nat i) s)
  else Go.Panicked (Go.IndexOutOfRange i (strings.len s)).

Definition addCssToSvg (svg css : string) : Go.result string :=
  let index := strings.Index svg "<svg" in
  index ← scanTagEnd (String.length svg) svg index;
  let index := index + 1 in
  before ← sliceTo svg index;
  after ← sliceFrom svg index;
  mret (before +:+ css +:+ after).

(** ** main (lines 60-114) *)

(** What the program takes from its surroundings. *)
Record runtime : Type := mkRuntime {
  (** [os.ReadFile]: the contents, or [None] on an error. *)
  ReadFile : string -> option string;
  (** The lines [bufio.Reader.ReadLine] delivers until [io.EOF]. *)
  ReadLine : string -> list string;
  (** The order in which [range] visits a map. *)
  rangeOrder : keyframeMap -> list (string * list keyframe);
  (** The [%v] rendering of a [float32]. *)
  formatFloat : float32 -> string;
  (** [os.WriteFile]: whether the write of the data to the file
      succeeds. *)
  WriteFileOk : string -> string -> bool
}.

Definition emitAll (os : list output) : run unit := mkRun os (Go.Returned tt).

(** Lines 74-113: the work on the three files. *)
Definition translate (rt : runtime)
    (inputSvgFile inputAnimation outputSvgFile : string) : run unit :=
  (* the error of ReadFile is dropped: data is then empty *)
  let data := default ""%string (ReadFile rt inputAnimation) in
  tokens ← tokenize (ReadLine rt data);
  _ ← emitAll (PrintToken <$> tokens);
  let '(step, totalMs) := calculateStep tokens in
  _ ← emit (PrintStep step);
  _ ← emit (PrintTotalMs totalMs);
  keyframes ← lift (calculateKeyframes tokens step);
  let css := generateCssAnimation (formatFloat rt) (rangeOrder rt keyframes) totalMs in
  let svgData := default ""%string (ReadFile rt inputSvgFile) in
  svg ← lift (addCssToSvg svgData css);
  (* the error of WriteFile is dropped: the run returns either way *)
  emit (WriteFile outputSvgFile svg (WriteFileOk rt outputSvgFile svg)).

(** [Args] is [os.Args]: the program name, then the arguments. *)
Definition main (rt : runtime) (Args : list string) : run unit :=
  if Z.of_nat (length Args) <? 3 then emit PrintUsage
  else
    inputSvgFile ← lift (index Args 1);
    inputAnimation ← lift (index Args 2);
    outputSvgFile ← lift (index Args 3);
    translate rt inputSvgFile inputAnimation outputSvgFile.

(** * Vocabulary of the properties *)

(** ** Durations *)

(** The exact sum of the durations of the wait instructions. *)
Fixpoint waitSum (tokens : list token) : Z :=
  match tokens with
  | [] => 0
  | t :: tokens' =>
      match Type_ t with
      | wait => Wait t + waitSum tokens'
      | _ => waitSum tokens'
      end
  end.

Definition hasPositiveWait (tokens : list token) : Prop :=
  exists t, t ∈ tokens /\ Type_ t = wait /\ 0 < Wait t.

(** ** The keyframes of one object *)

Definition seedKeyframe : keyframe := mkKeyframe F32.zero F32.zero.

(** A show or hide instruction that names the object [id]. *)
Definition refers (id : string) (t : token) : Prop :=
  Type_ t <> wait /\ Id t = id.

Global Instance refers_dec id t : Decision (refers id t).
Proof. unfold refers. apply _. Defined.

Definition referenced (id : string) (tokens : list token) : Prop :=
  Exists (refers id) tokens.

(** The two keyframes a show or hide appends at the cursor. *)
Definition pairAt (cur next : float32) (t : token) : list keyframe :=
  match Type_ t with
  | show => [mkKeyframe cur F32.zero; mkKeyframe next F32.one]
  | hide => [mkKeyframe cur F32.one; mkKeyframe next F32.zero]
  | wait => []
  end.

(** The cursor after a wait of [d] milliseconds. *)
Definition advance (step cur : float32) (d : Z) : float32 :=
  F32.add cur (F32.mul (F32.div (F32.of_int d) F32.c1000) step).

(** What the walk appends to the list of [id], read off the script: the
    pairs of the instructions that name [id], in script order, each at
    the cursor the preceding waits have reached. *)
Fixpoint pairsOf (step cur next : float32) (id : string) (tokens : list token)
  : list keyframe :=
  match tokens with
  | [] => []
  | t :: tokens' =>
      match Type_ t with
      | wait =>
          let cur' := advance step cur (Wait t) in
          pairsOf step cur' (F32.add cur' step) id tokens'
      | _ =>
          (if decide (Id t = id) then pairAt cur next t else [])
            ++ pairsOf step cur next id tokens'
      end
  end.

(** The keyframe line 159 appends to the list [v]. *)
Definition closingKeyframe (v : list keyframe) : keyframe :=
  mkKeyframe F32.c100 (from_option Opacity F32.zero (last v)).

Definition closeList (v : list keyframe) : list keyframe :=
  v ++ [closingKeyframe v].

(** The keyframes of a sequence of pairs, in order. *)
Fixpoint flatPairs (ps : list (keyframe * keyframe)) : list keyframe :=
  match ps with
  | [] => []
  | p :: ps' => p.1 :: p.2 :: flatPairs ps'
  end.

(** The stages of a keyframe list are non-decreasing in emission
    order. *)
Definition nondecreasing (l : list keyframe) : Prop :=
  Sorted F32.le (Stage <$> l).

(** ** Lines and fields *)

(** [sub] occurs in [s]. *)
Definition contains (s sub : string) : Prop :=
  exists pre post : string, s = pre +:+ sub +:+ post.

Definition space : ascii := " "%char.

(** The line has a space byte. *)
Definition hasSpace (line : string) : Prop :=
  space ∈ list_ascii_of_string line.

Definition noSecondField : Go.panic := Go.IndexOutOfRange 1 1.

(** The byte that ends a tag. *)
Definition closeAngle : ascii := ">"%char.

(** A decimal literal: an optional sign, then one digit or more. *)
Definition allDigits (s : string) : bool :=
  forallb (fun c => bool_decide (is_Some (strconv.digit c)))
    (list_ascii_of_string s).

Definition isDecimal (s : string) : bool :=
  match s with
  | EmptyString => false
  | String c s' =>
      let body := if Ascii.eqb c "+" || Ascii.eqb c "-" then s' else s in
      match body with
      | EmptyString => false
      | _ => allDigits body
      end
  end.

(** ** The rules of the style sheet *)

Section EmitterRules.

Variable formatFloat32 : float32 -> string.
Variable totalMs : Z.

(** The rules of a sequence of entries, the first under counter [n]. *)
Fixpoint rulesFrom (n : Z) (visited : list (string * list keyframe)) : string :=
  match visited with
  | [] => ""
  | kv :: visited' =>
      objectCss formatFloat32 totalMs n kv.1 kv.2 +:+ rulesFrom (n + 1) visited'
  end.

End EmitterRules.

(** ** Scripts and inputs of the examples *)

Definition script5 : list token :=
  [ mkToken show "cell1" defaultWait; mkToken wait "" 1000;
    mkToken hide "cell1" defaultWait ].

Definition lines5 : list string :=
  [ "show cell1"; "wait 1000"; "hide cell1" ]%string.

(** What the specification expects for [cell1]. *)
Definition expected5 : list keyframe :=
  [ mkKeyframe F32.zero F32.zero; mkKeyframe F32.zero F32.zero;
    mkKeyframe F32.c100 F32.one; mkKeyframe F32.c100 F32.one;
    mkKeyframe F32.c100 F32.zero ].

(** What the code computes for [cell1]. *)
Definition computed5 : list keyframe :=
  [ mkKeyframe F32.zero F32.zero; mkKeyframe F32.zero F32.zero;
    mkKeyframe F32.c100 F32.one; mkKeyframe F32.c100 F32.one;
    mkKeyframe F32.c200 F32.zero; mkKeyframe F32.c100 F32.zero ].

Definition scriptWrap : list token :=
  [ mkToken wait "" 9223372036854775807; mkToken wait "" 1 ].

Definition scriptNoWait : list token := [ mkToken show "cell1" defaultWait ].

Definition lineOverflow : string := "wait 99999999999999999999".

Definition script2 : list token :=
  [ mkToken show "a" defaultWait; mkToken show "b" defaultWait;
    mkToken wait "" 1000 ].

Definition listA : list keyframe :=
  [ mkKeyframe F32.zero F32.zero; mkKeyframe F32.zero F32.zero;
    mkKeyframe F32.c100 F32.one; mkKeyframe F32.c100 F32.one ].

(** The timeline of [script2]: both objects have the same four
    keyframes. *)
Definition timeline2 : keyframeMap :=
  <["a"%string := listA]> (<["b"%string := listA]> ∅).

Definition noRuntime : runtime :=
  mkRuntime (fun _ => None) (fun _ => []) map_to_list (fun _ => ""%string)
    (fun _ _ => false).

(** ** Script lines *)

(** The line that spells an instruction. *)
Definition render (t : token) : string :=
  match Type_ t with
  | show => "show " +:+ Id t
  | hide => "hide " +:+ Id t
  | wait => "wait " +:+ pretty (Wait t)
  end.

(** An instruction as the tokenizer builds them: a show or hide carries
    an id without a space and the default wait; a wait carries no id
    and a duration that is an [int]. *)
Definition wellFormed (t : token) : Prop :=
  match Type_ t with
  | wait => Id t = ""%string /\ Go.is_int (Wait t)
  | _ => ~ hasSpace (Id t) /\ Wait t = defaultWait
  end.

(** The line begins with one of the three keywords. *)
Definition recognized (line : string) : bool :=
  strings.HasPrefix line "show" || strings.HasPrefix line "hide"
  || strings.HasPrefix line "wait".

Definition isWait (t : token) : bool :=
  match Type_ t with wait => true | _ => false end.

(** The keyword that spells an instruction type. *)
Definition keyword (ty : tokenType) : string :=
  match ty with
  | show => "show"
  | hide => "hide"
  | wait => "wait"
  end.

(** A recognized line that has no second field. *)
Definition bare (line : string) : Prop :=
  recognized line = true /\ ~ hasSpace line.

(** The instruction [t] is of the shape the tokenizer builds and
    [line] begins with its keyword. *)
Definition spells (t : token) (line : string) : Prop :=
  wellFormed t /\ strings.HasPrefix line (keyword (Type_ t)) = true.

(** ** Objects of a script *)

(** The show and hide instructions that name [id], in script order. *)
Definition references (id : string) (tokens : list token) : list token :=
  filter (refers id) tokens.

(** The opacity an instruction leaves its object with. *)
Definition finalOpacity (ty : tokenType) : float32 :=
  match ty with
  | show => F32.one
  | _ => F32.zero
  end.

Definition binaryOpacity (kf : keyframe) : Prop :=
  Opacity kf = F32.zero \/ Opacity kf = F32.one.

(** The instruction is a wait or names [id]. *)
Definition concerns (id : string) (t : token) : bool :=
  isWait t || bool_decide (Id t = id).

(** The opacity a show or hide starts from. *)
Definition startOpacity (ty : tokenType) : float32 :=
  match ty with
  | show => F32.zero
  | _ => F32.one
  end.

(** The pair [p] of keyframes is the transition of the instruction [t]:
    it takes one step and goes from the start opacity of [t] to its
    final opacity. *)
Definition transitionOf (step : float32) (t : token) (p : keyframe * keyframe)
  : Prop :=
  Stage p.2 = F32.add (Stage p.1) step /\
  Opacity p.1 = startOpacity (Type_ t) /\
  Opacity p.2 = finalOpacity (Type_ t).

(** Two instructions agree on what the compiler reads of them: the type,
    the id of a show or hide, the duration of a wait. *)
Definition sameEffect (t t' : token) : Prop :=
  Type_ t = Type_ t' /\
  match Type_ t with
  | wait => Wait t = Wait t'
  | _ => Id t = Id t'
  end.

(** [script5] with other values in the fields that are not read. *)
Definition script5' : list token :=
  [ mkToken show "cell1" 0; mkToken wait "cell2" 1000; mkToken hide "cell1" (-7) ].

(** ** Files *)

(** The output is a call of [os.WriteFile]. *)
Definition isWrite (o : output) : Prop :=
  match o with
  | WriteFile _ _ _ => True
  | _ => False
  end.

Definition noWrite (os : list output) : Prop :=
  Forall (fun o => ~ isWrite o) os.

(** A run time with a document and the three-line script, in which
    the output file cannot be written. *)
Definition runtime5 : runtime :=
  mkRuntime
    (fun name => if decide (name = "in.svg"%string)
                 then Some "<svg></svg>"%string else Some ""%string)
    (fun _ => lines5) map_to_list (fun _ => "0"%string)
    (fun _ _ => false).

(** * Properties *)

(** ** Integers *)

Lemma wrap64_is_int z : Go.is_int (Go.wrap64 z).
Proof.
  unfold Go.is_int, Go.wrap64, Go.minInt, Go.maxInt.
  pose proof (Z.mod_pos_bound (z + 2 ^ 63) (2 ^ 64) ltac:(lia)). lia.
Qed.

Lemma wrap64_id z : Go.is_int z -> Go.wrap64 z = z.
Proof.
  unfold Go.is_int, Go.wrap64, Go.minInt, Go.maxInt. intros H.
  rewrite Z.mod_small; lia.
Qed.

Lemma wrap64_add_l a b : Go.wrap64 (Go.wrap64 a + b) = Go.wrap64 (a + b).
Proof.
  unfold Go.wrap64. f_equal.
  replace (a + 2 ^ 63) with (a + 2 ^ 63 + 0) by lia.
  replace ((a + 2 ^ 63 + 0) mod 2 ^ 64 - 2 ^ 63 + b + 2 ^ 63)
    with ((a + 2 ^ 63 + 0) mod 2 ^ 64 + b) by lia.
  rewrite Z.add_0_r, Zplus_mod_idemp_l. f_equal. lia.
Qed.

(** ** The total duration *)

Lemma fold_addWait tokens acc :
  fold_left addWait tokens (Go.wrap64 acc) = Go.wrap64 (acc + waitSum tokens).
Proof.
  revert acc. induction tokens as [|t tokens IH]; intros acc; simpl.
  - by rewrite Z.add_0_r.
  - unfold addWait at 2. destruct (Type_ t); try apply IH.
    unfold Go.int_add. rewrite wrap64_add_l, IH. f_equal. lia.
Qed.

(** [totalMs] is the sum of the waits, wrapped around at 64 bits. *)
Lemma totalMsOf_wrap tokens : totalMsOf tokens = Go.wrap64 (waitSum tokens).
Proof.
  unfold totalMsOf. change 0 with (Go.wrap64 0) at 1. by rewrite fold_addWait.
Qed.

Lemma totalMsOf_is_int tokens : Go.is_int (totalMsOf tokens).
Proof. rewrite totalMsOf_wrap. apply wrap64_is_int. Qed.

(** C7, as the code has it: for every instruction sequence with at least
    one wait of positive duration whose exact sum of wait durations fits
    Go's 64-bit [int], the [totalMs] that [calculateStep] returns is that
    exact sum. *)
Theorem calculateStep_total_exact tokens :
  hasPositiveWait tokens ->
  Go.is_int (waitSum tokens) ->
  (calculateStep tokens).2 = waitSum tokens.
Proof.
  intros _ Hfit. unfold calculateStep. simpl.
  rewrite totalMsOf_wrap. by apply wrap64_id.
Qed.

Lemma calculateStep_total_exact_witness :
  (calculateStep script5).2 = waitSum script5.
Proof.
  apply calculateStep_total_exact.
  - exists (mkToken wait "" 1000). split; [|split; [reflexivity|simpl; lia]].
    unfold script5. set_solver.
  - vm_compute. split; discriminate.
Defined.

(** C7 fails as stated: the sum of two representable waits leaves the
    range of [int], and [totalMs] wraps around. *)
Lemma calculateStep_total_wraps :
  tokenize ["wait 9223372036854775807"; "wait 1"]%string
    = mkRun [] (Go.Returned scriptWrap) /\
  (exists t, t ∈ scriptWrap /\ Type_ t = wait /\ 0 < Wait t) /\
  waitSum scriptWrap = 9223372036854775808 /\
  (calculateStep scriptWrap).2 = -9223372036854775808 /\
  (calculateStep scriptWrap).2 <> waitSum scriptWrap.
Proof.
  split; [by vm_compute|]. split; [|by vm_compute].
  exists (mkToken wait "" 1). split; [|split; [reflexivity|simpl; lia]].
  unfold scriptWrap. set_solver.
Qed.

(** ** The walk, object by object *)

Lemma lookup_appendKeyframe id kf (m : keyframeMap) k :
  appendKeyframe id kf m !! k =
    if decide (id = k) then Some (default [] (m !! id) ++ [kf]) else m !! k.
Proof. unfold appendKeyframe. by rewrite lookup_insert. Qed.

Lemma refers_inv k t : ~ refers k t -> Type_ t <> wait -> Id t <> k.
Proof. unfold refers. naive_solver. Qed.

Lemma lookup_seed t (m : keyframeMap) k :
  seed t m !! k =
    if decide (refers k t)
    then Some (default [seedKeyframe] (m !! k))
    else m !! k.
Proof.
  destruct (decide (refers k t)) as [[Hty Hid]|Hno]; unfold seed.
  - subst k. destruct (Type_ t); [| |done];
      (destruct (m !! Id t) eqn:Hk; simpl; [done|];
       rewrite lookup_appendKeyframe, decide_True by done;
       by rewrite lookup_insert_eq).
  - pose proof (refers_inv _ _ Hno) as Hne.
    destruct (Type_ t); [| |done];
      (destruct (m !! Id t) eqn:Hk; [done|];
       rewrite lookup_appendKeyframe, decide_False by (by apply Hne);
       rewrite lookup_insert_ne by (by apply Hne); done).
Qed.

(** The list of [k] after one instruction. *)
Lemma lookup_walkToken step w t k :
  keyframes (walkToken step w t) !! k =
    if decide (refers k t)
    then Some (default [seedKeyframe] (keyframes w !! k)
                 ++ pairAt (currentStage w) (nextStage w) t)
    else keyframes w !! k.
Proof.
  pose proof (lookup_seed t (keyframes w) k) as Hseed.
  destruct (decide (refers k t)) as [[Hty Hid]|Hno]; unfold walkToken, pairAt.
  - subst k. destruct (Type_ t); [| |done]; simpl;
      rewrite !lookup_appendKeyframe, !decide_True by done;
      rewrite Hseed; simpl; by rewrite <- app_assoc.
  - pose proof (refers_inv _ _ Hno) as Hne.
    destruct (Type_ t); [| |done]; simpl;
      by rewrite !lookup_appendKeyframe, !decide_False by (by apply Hne).
Qed.

Lemma walkToken_cursor step w t :
  currentStage (walkToken step w t) =
    match Type_ t with
    | wait => advance step (currentStage w) (Wait t)
    | _ => currentStage w
    end /\
  nextStage (walkToken step w t) =
    match Type_ t with
    | wait => F32.add (advance step (currentStage w) (Wait t)) step
    | _ => nextStage w
    end.
Proof. unfold walkToken. by destruct (Type_ t). Qed.

(** The list of [k] after the whole walk from [w]. *)
Lemma lookup_walk step tokens : forall w k,
  keyframes (fold_left (walkToken step) tokens w) !! k =
    match keyframes w !! k with
    | Some l =>
        Some (l ++ pairsOf step (currentStage w) (nextStage w) k tokens)
    | None =>
        if decide (referenced k tokens)
        then Some (seedKeyframe ::
                     pairsOf step (currentStage w) (nextStage w) k tokens)
        else None
    end.
Proof.
  induction tokens as [|t tokens IH]; intros w k; simpl.
  - destruct (keyframes w !! k); [by rewrite app_nil_r|done].
  - rewrite IH, lookup_walkToken.
    destruct (walkToken_cursor step w t) as [-> ->].
    unfold referenced. destruct (decide (refers k t)) as [[Hty Hid]|Hno].
    + assert (pairsOf step (currentStage w) (nextStage w) k (t :: tokens) =
              pairAt (currentStage w) (nextStage w) t ++
              pairsOf step (currentStage w) (nextStage w) k tokens) as Hp.
      { simpl. destruct (Type_ t); [| |done]; by rewrite decide_True. }
      simpl in Hp. rewrite Hp.
      assert (match Type_ t with
              | wait => advance step (currentStage w) (Wait t)
              | _ => currentStage w end = currentStage w) as ->
        by (by destruct (Type_ t)).
      assert (match Type_ t with
              | wait => F32.add (advance step (currentStage w) (Wait t)) step
              | _ => nextStage w end = nextStage w) as ->
        by (by destruct (Type_ t)).
      destruct (keyframes w !! k); simpl.
      * by rewrite <- app_assoc.
      * rewrite decide_True by (apply Exists_cons; left; by split). done.
    + assert (pairsOf step (currentStage w) (nextStage w) k (t :: tokens) =
              pairsOf step
                match Type_ t with
                | wait => advance step (currentStage w) (Wait t)
                | _ => currentStage w end
                match Type_ t with
                | wait => F32.add (advance step (currentStage w) (Wait t)) step
                | _ => nextStage w end k tokens) as Hp.
      { simpl. unfold refers in Hno.
        destruct (Type_ t); [| |done];
          (rewrite decide_False; [done|]; intros ?; apply Hno; by split). }
      simpl in Hp. rewrite Hp.
      destruct (keyframes w !! k); [done|].
      destruct (decide (Exists (refers k) tokens)) as [He|He].
      * rewrite decide_True by (apply Exists_cons; by right). done.
      * rewrite decide_False; [done|].
        rewrite Exists_cons. intros [?|?]; done.
Qed.

(** ** Closing the loop *)

Lemma closeAll_fold (base m : keyframeMap) :
  (forall k v, base !! k = Some v -> v <> []) ->
  m ⊆ base ->
  exists m' : keyframeMap,
    map_fold closeObject (Go.Returned base) m = Go.Returned m' /\
    forall k, m' !! k =
      match m !! k with
      | Some v => Some (closeList v)
      | None => base !! k
      end.
Proof.
  intros Hne. revert m.
  apply (map_fold_weak_ind
    (fun r (m : keyframeMap) => m ⊆ base ->
       exists m' : keyframeMap, r = Go.Returned m' /\
         forall k, m' !! k =
           match m !! k with Some v => Some (closeList v) | None => base !! k end)).
  - intros _. exists base. split; [done|]. intros k. by rewrite lookup_empty.
  - intros i x m r Hi IH Hsub.
    assert (base !! i = Some x) as Hbase
      by (eapply lookup_weaken; [apply lookup_insert_eq|done]).
    destruct IH as (m' & -> & Hm').
    { etrans; [|exact Hsub]. by apply insert_subseteq. }
    unfold closeObject; simpl.
    destruct (last x) as [l|] eqn:Hlast.
    2: { apply last_None in Hlast. by apply Hne in Hbase. }
    eexists. split; [done|]. intros k.
    rewrite lookup_appendKeyframe, lookup_insert.
    destruct (decide (i = k)) as [->|Hik]; [|apply Hm'].
    rewrite Hm', Hi, Hbase. unfold closeList, closingKeyframe.
    by rewrite Hlast.
Qed.

(** The closing loop does not panic on a map without empty lists, and
    appends the closing keyframe to every list. *)
Lemma closeAll_returns (m : keyframeMap) :
  (forall k v, m !! k = Some v -> v <> []) ->
  closeAll m = Go.Returned (closeList <$> m).
Proof.
  intros Hne. destruct (closeAll_fold m m Hne) as (m' & Hm' & Hlook); [done|].
  unfold closeAll. rewrite Hm'. f_equal. apply map_eq. intros k.
  rewrite Hlook, lookup_fmap. by destruct (m !! k).
Qed.

Lemma lookup_walkTokens step tokens k :
  keyframes (walkTokens step tokens) !! k =
    if decide (referenced k tokens)
    then Some (seedKeyframe ::
                 pairsOf step F32.zero (F32.add F32.zero step) k tokens)
    else None.
Proof. unfold walkTokens. by rewrite lookup_walk. Qed.

(** [calculateKeyframes] never panics.  The list of a referenced object
    is the seed, its pairs in script order and the closing keyframe;
    an object that is never referenced has no list. *)
Lemma calculateKeyframes_returns tokens step :
  exists kfs : keyframeMap,
    calculateKeyframes tokens step = Go.Returned kfs /\
    forall k, kfs !! k =
      if decide (referenced k tokens)
      then Some (closeList (seedKeyframe ::
                   pairsOf step F32.zero (F32.add F32.zero step) k tokens))
      else None.
Proof.
  unfold calculateKeyframes. eexists. split.
  - apply closeAll_returns. intros k v. rewrite lookup_walkTokens.
    case_decide; [|done]. by intros [= <-].
  - intros k. rewrite lookup_fmap, lookup_walkTokens. by case_decide.
Qed.

(** ** A total of zero *)

(** C1, as the code has it: when the wait durations sum to zero,
    [calculateStep] raises nothing; it returns the step +Inf, the
    result of the division by zero, together with the total 0, and
    [calculateKeyframes] goes on to compile the script with that
    step. *)
Theorem calculateStep_zero_total tokens :
  waitSum tokens = 0 ->
  calculateStep tokens = (F32.pinf, 0) /\
  exists kfs : keyframeMap,
    calculateKeyframes tokens (calculateStep tokens).1 = Go.Returned kfs.
Proof.
  intros H. split.
  - unfold calculateStep. rewrite totalMsOf_wrap, H. reflexivity.
  - destruct (calculateKeyframes_returns tokens (calculateStep tokens).1)
      as (kfs & Hk & _). by exists kfs.
Qed.

Lemma calculateStep_zero_total_witness :
  calculateStep scriptNoWait = (F32.pinf, 0) /\
  exists kfs : keyframeMap,
    calculateKeyframes scriptNoWait (calculateStep scriptNoWait).1
      = Go.Returned kfs.
Proof. apply calculateStep_zero_total. reflexivity. Defined.

(** C1 fails as stated: a script without waits compiles without any
    error, and the stage +Inf reaches the keyframes of its object. *)
Lemma calculateStep_no_EmptyTimelineError :
  tokenize ["show cell1"%string] = mkRun [] (Go.Returned scriptNoWait) /\
  waitSum scriptNoWait = 0 /\
  calculateStep scriptNoWait = (S754_infinity false, 0) /\
  exists keyframes,
    calculateKeyframes scriptNoWait (calculateStep scriptNoWait).1
      = Go.Returned keyframes /\
    keyframes !! "cell1"%string =
      Some [ mkKeyframe F32.zero F32.zero; mkKeyframe F32.zero F32.zero;
             mkKeyframe (S754_infinity false) F32.one;
             mkKeyframe F32.c100 F32.one ].
Proof.
  split; [by vm_compute|]. split; [reflexivity|]. split; [reflexivity|].
  eexists. split; [vm_compute; reflexivity|]. by vm_compute.
Qed.

(** ** First and last keyframe *)

(** C6: for every instruction sequence (compiled with any step) and every
    object that a show or hide instruction names, the compiler returns a
    map in which the object's keyframe list is not empty, starts at
    stage 0 and ends at stage 100. *)
Theorem keyframes_first_zero_last_hundred tokens step id :
  referenced id tokens ->
  exists (kfs : keyframeMap) (l : list keyframe),
    calculateKeyframes tokens step = Go.Returned kfs /\
    kfs !! id = Some l /\
    l <> [] /\
    Stage <$> head l = Some F32.zero /\
    Stage <$> last l = Some F32.c100.
Proof.
  intros Href.
  destruct (calculateKeyframes_returns tokens step) as (kfs & Hret & Hlook).
  specialize (Hlook id). rewrite decide_True in Hlook by done.
  eexists kfs, _. split; [done|]. split; [exact Hlook|].
  unfold closeList. split; [done|]. split; [done|].
  by rewrite last_snoc.
Qed.

Lemma keyframes_first_zero_last_hundred_witness :
  exists (kfs : keyframeMap) (l : list keyframe),
    calculateKeyframes script5 F32.c100 = Go.Returned kfs /\
    kfs !! "cell1"%string = Some l /\
    l <> [] /\
    Stage <$> head l = Some F32.zero /\
    Stage <$> last l = Some F32.c100.
Proof.
  apply (keyframes_first_zero_last_hundred script5 F32.c100 "cell1").
  apply Exists_cons. left. split; [discriminate|reflexivity].
Defined.

(** ** The literal script of the specification *)

(** C5, as the code has it: the three-line script tokenizes to
    show/wait/hide, has total 1000 ms and step 100, and the list of
    [cell1] has six keyframes: the hide appends [{100,1}] and
    [{200,0}], the second at [nextStage = 100 + step], before the
    closing [{100,0}]. *)
Theorem script5_keyframes :
  tokenize lines5 = mkRun [] (Go.Returned script5) /\
  calculateStep script5 = (F32.c100, 1000) /\
  exists kfs : keyframeMap,
    calculateKeyframes script5 F32.c100 = Go.Returned kfs /\
    kfs !! "cell1"%string = Some computed5.
Proof.
  split; [by vm_compute|]. split; [by vm_compute|].
  eexists. split; [vm_compute; reflexivity|]. by vm_compute.
Qed.

(** C5 fails as stated: the list the code computes for [cell1] is not
    the five-keyframe list of the specification. *)
Lemma script5_keyframes_not_expected :
  exists kfs : keyframeMap,
    calculateKeyframes script5 (calculateStep script5).1 = Go.Returned kfs /\
    kfs !! "cell1"%string = Some computed5 /\
    kfs !! "cell1"%string <> Some expected5.
Proof.
  eexists. split; [vm_compute; reflexivity|].
  split; [by vm_compute|]. by vm_compute.
Qed.

(** ** Strings *)

Lemma string_app_cons a (s t : string) : String a s +:+ t = String a (s +:+ t).
Proof. reflexivity. Qed.

Lemma string_app_nil_r (s : string) : s +:+ "" = s.
Proof. induction s as [|a s IH]; [done|]. by rewrite string_app_cons, IH. Qed.

Lemma string_app_assoc (s t u : string) : (s +:+ t) +:+ u = s +:+ t +:+ u.
Proof. induction s as [|a s IH]; [done|]. by rewrite !string_app_cons, IH. Qed.

Lemma prefix_app (s1 s2 : string) :
  String.prefix s1 s2 = true -> exists post, s2 = s1 +:+ post.
Proof.
  revert s2. induction s1 as [|a s1 IH]; intros s2 H.
  - by exists s2.
  - destruct s2 as [|b s2]; simpl in H; [done|].
    destruct (ascii_dec a b) as [->|]; [|done].
    destruct (IH _ H) as [post ->]. by exists post.
Qed.

Lemma app_prefix (s1 post : string) : String.prefix s1 (s1 +:+ post) = true.
Proof.
  induction s1 as [|a s1 IH]; simpl; [by destruct post|].
  by destruct (ascii_dec a a).
Qed.

Lemma index_cons_0 (sub : string) b (s : string) :
  String.index 0 sub (String b s) =
    if String.prefix sub (String b s) then Some 0%nat
    else S <$> String.index 0 sub s.
Proof. simpl. by destruct (String.index 0 sub s). Qed.

Lemma index_cons_S (sub : string) b (s : string) n :
  String.index (S n) sub (String b s) = S <$> String.index n sub s.
Proof. simpl. by destruct (String.index n sub s). Qed.

Lemma index_Some_contains (sub : string) : forall (s : string) n m,
  String.index n sub s = Some m -> contains s sub.
Proof.
  induction s as [|b s IH]; intros n m H.
  - destruct n, sub; try done. by exists ""%string, ""%string.
  - destruct n as [|n].
    + rewrite index_cons_0 in H.
      destruct (String.prefix sub (String b s)) eqn:Hp.
      * destruct (prefix_app _ _ Hp) as [post ->]. by exists ""%string, post.
      * destruct (String.index 0 sub s) as [k|] eqn:Hk; [|done].
        destruct (IH _ _ Hk) as (pre & post & ->).
        by exists (String b pre), post.
    + rewrite index_cons_S in H.
      destruct (String.index n sub s) as [k|] eqn:Hk; [|done].
      destruct (IH _ _ Hk) as (pre & post & ->).
      by exists (String b pre), post.
Qed.

Lemma contains_index_Some (sub : string) : forall pre post : string,
  exists m, String.index 0 sub (pre +:+ sub +:+ post) = Some m.
Proof.
  induction pre as [|b pre IH]; intros post.
  - change (""%string +:+ sub +:+ post) with (sub +:+ post).
    destruct (sub +:+ post) as [|c r] eqn:Hs.
    + destruct sub; [by eexists|done].
    + rewrite index_cons_0, <- Hs, app_prefix. by eexists.
  - change (String b pre +:+ sub +:+ post)
      with (String b (pre +:+ sub +:+ post)).
    rewrite index_cons_0. destruct (String.prefix sub _); [by eexists|].
    destruct (IH post) as [m ->]. by eexists.
Qed.

(** [strings.Index] returns -1 exactly when there is no occurrence. *)
Lemma Index_not_found (s sub : string) :
  strings.Index s sub = -1 <-> ~ contains s sub.
Proof.
  unfold strings.Index. split.
  - intros H (pre & post & ->).
    destruct (contains_index_Some sub pre post) as [m Hm].
    rewrite Hm in H. lia.
  - intros H. destruct (String.index 0 sub s) as [m|] eqn:Hm; [|done].
    destruct H. by eapply index_Some_contains.
Qed.

(** ** Injection *)

Lemma scanTagEnd_negative fuel svg i :
  i < 0 ->
  scanTagEnd fuel svg i = Go.Panicked (Go.IndexOutOfRange i (strings.len svg)).
Proof.
  intros Hi. destruct fuel; simpl; unfold strings.byteAt;
    by rewrite (proj2 (Z.leb_gt 0 i)) by lia.
Qed.

(** The fuel [addCssToSvg] gives the loop is enough: more fuel does not
    change the outcome of a scan that starts inside the text. *)
Lemma scanTagEnd_fuel svg : forall fuel i,
  (Z.to_nat (strings.len svg - i) <= fuel)%nat ->
  scanTagEnd (S fuel) svg i = scanTagEnd fuel svg i.
Proof.
  induction fuel as [|fuel IH]; intros i Hfuel.
  - cbn [scanTagEnd]. unfold strings.byteAt.
    destruct ((0 <=? i) && (i <? strings.len svg)) eqn:Hi; [|done].
    apply andb_true_iff in Hi as [_ Hi%Z.ltb_lt]. lia.
  - change (scanTagEnd (S (S fuel)) svg i)
      with (c ← strings.byteAt svg i;
            if Ascii.eqb c ">" then mret i else scanTagEnd (S fuel) svg (i + 1)).
    change (scanTagEnd (S fuel) svg i)
      with (c ← strings.byteAt svg i;
            if Ascii.eqb c ">" then mret i else scanTagEnd fuel svg (i + 1)).
    unfold strings.byteAt.
    destruct ((0 <=? i) && (i <? strings.len svg)) eqn:Hi; [|done].
    apply andb_true_iff in Hi as [_ Hi%Z.ltb_lt].
    destruct (String.get (Z.to_nat i) svg) as [c|]; [|done]. cbn.
    destruct (Ascii.eqb c ">"); [done|]. apply IH. lia.
Qed.

(** Where the text has its [<svg] tag closed, the style sheet goes
    right behind the tag. *)
Example addCssToSvg_inserts :
  addCssToSvg "<?xml?><svg width='1'><g/></svg>" "<style></style>" =
    Go.Returned "<?xml?><svg width='1'><style></style><g/></svg>".
Proof. reflexivity. Qed.

(** C2, as the code has it: for every SVG text that does not contain
    [<svg], [strings.Index] is -1 and the first byte access [svg[-1]]
    panics with an index out of range; there is no InjectionError, the
    text is not scanned and no document is produced. *)
Theorem addCssToSvg_without_svg_tag svg css :
  ~ contains svg "<svg" ->
  addCssToSvg svg css =
    Go.Panicked (Go.IndexOutOfRange (-1) (strings.len svg)).
Proof.
  intros H. apply Index_not_found in H.
  unfold addCssToSvg. rewrite H, scanTagEnd_negative by lia. done.
Qed.

Lemma addCssToSvg_without_svg_tag_witness :
  addCssToSvg "<g id='cell-1'></g>" "<style></style>" =
    Go.Panicked (Go.IndexOutOfRange (-1) 19).
Proof.
  apply (addCssToSvg_without_svg_tag "<g id='cell-1'></g>" "<style></style>").
  apply Index_not_found. reflexivity.
Defined.

(** C2 fails as stated: on a text without [<svg] the call ends in a
    run-time panic, and so does the whole run. *)
Lemma addCssToSvg_panics_without_svg_tag :
  strings.Index "<g id='cell-1'></g>" "<svg" = -1 /\
  addCssToSvg "<g id='cell-1'></g>" "<style></style>" =
    Go.Panicked (Go.IndexOutOfRange (-1) 19) /\
  addCssToSvg "" "<style></style>" = Go.Panicked (Go.IndexOutOfRange (-1) 0).
Proof. by vm_compute. Qed.

(** ** Splitting a line *)

Lemma prefix_space c (s : string) :
  String.prefix " " (String c s) = bool_decide (c = space).
Proof.
  change (String.prefix " " (String c s))
    with (if ascii_dec " " c then String.prefix "" s else false).
  destruct (ascii_dec " " c) as [<-|Hne].
  - by destruct s.
  - rewrite bool_decide_eq_false_2; [done|]. intros ->. by apply Hne.
Qed.

Lemma splitFrom_no_space (s : string) : forall field : string,
  ~ hasSpace s -> strings.splitFrom " " 0 field s = [field +:+ s].
Proof.
  unfold hasSpace.
  induction s as [|c s IH]; intros field Hno.
  - simpl. by rewrite string_app_nil_r.
  - cbn [strings.splitFrom]. rewrite prefix_space.
    rewrite bool_decide_eq_false_2
      by (intros ->; apply Hno; simpl; apply list_elem_of_here).
    rewrite IH by (intros ?; apply Hno; simpl; by apply list_elem_of_further).
    by rewrite string_app_assoc.
Qed.

Lemma splitFrom_length (s : string) : forall field : string,
  (1 <= length (strings.splitFrom " " 0 field s))%nat.
Proof.
  induction s as [|c s IH]; intros field; [simpl; lia|].
  cbn [strings.splitFrom]. destruct (String.prefix " " (String c s)).
  - simpl. lia.
  - apply IH.
Qed.

Lemma splitFrom_space (s : string) : forall field : string,
  hasSpace s -> (2 <= length (strings.splitFrom " " 0 field s))%nat.
Proof.
  unfold hasSpace.
  induction s as [|c s IH]; intros field Hsp; [by apply elem_of_nil in Hsp|].
  cbn [strings.splitFrom]. rewrite prefix_space.
  destruct (decide (c = space)) as [->|Hne].
  - rewrite bool_decide_eq_true_2 by done.
    change (String.length " " - 1)%nat with 0%nat.
    pose proof (splitFrom_length s ""). simpl. lia.
  - rewrite bool_decide_eq_false_2 by done. apply IH.
    simpl in Hsp. apply elem_of_cons in Hsp as [?|?]; [congruence|done].
Qed.

Lemma Split_no_space line : ~ hasSpace line -> strings.Split line " " = [line].
Proof. intros H. unfold strings.Split. by rewrite splitFrom_no_space. Qed.

Lemma index_one_singleton {A} (x : A) :
  index [x] 1 = Go.Panicked (Go.IndexOutOfRange 1 1).
Proof. reflexivity. Qed.

Lemma index_one_returns {A} (xs : list A) :
  (2 <= length xs)%nat -> exists x, index xs 1 = Go.Returned x.
Proof.
  destruct xs as [|a [|b xs]]; simpl; try lia. intros _. exists b.
  unfold index. rewrite (proj2 (Z.ltb_lt 1 _)); [done|]. simpl length. lia.
Qed.

(** [parseShow] and [parseHide] return exactly on the lines that have a
    space. *)
Lemma parseShow_returns_iff line :
  Go.returns (parseShow line) <-> hasSpace line.
Proof.
  unfold parseShow, Go.returns. split.
  - intros [t Ht]. destruct (decide (hasSpace line)) as [|Hno]; [done|].
    by rewrite Split_no_space, index_one_singleton in Ht.
  - intros H. destruct (index_one_returns (strings.Split line " ")) as [x Hx].
    { by apply splitFrom_space. }
    rewrite Hx. by eexists.
Qed.

Lemma parseHide_returns_iff line :
  Go.returns (parseHide line) <-> hasSpace line.
Proof.
  unfold parseHide, Go.returns. split.
  - intros [t Ht]. destruct (decide (hasSpace line)) as [|Hno]; [done|].
    by rewrite Split_no_space, index_one_singleton in Ht.
  - intros H. destruct (index_one_returns (strings.Split line " ")) as [x Hx].
    { by apply splitFrom_space. }
    rewrite Hx. by eexists.
Qed.

(** C10, as the code has it: on every line that begins with [show] or
    [hide] and has no space byte, [strings.Split] yields one field and
    the access [tokens[1]] panics with an index out of range: both
    parsers panic, and so does the tokenizer loop; no ParseError is
    produced. *)
Theorem tokenizer_panics_without_second_field tokens line :
  strings.HasPrefix line "show" = true \/ strings.HasPrefix line "hide" = true ->
  ~ hasSpace line ->
  parseShow line = Go.Panicked noSecondField /\
  parseHide line = Go.Panicked noSecondField /\
  tokenizeLine tokens line = mkRun [] (Go.Panicked noSecondField).
Proof.
  intros Hpre Hno.
  assert (parseShow line = Go.Panicked noSecondField) as Hs
    by (unfold parseShow; by rewrite Split_no_space).
  assert (parseHide line = Go.Panicked noSecondField) as Hh
    by (unfold parseHide; by rewrite Split_no_space).
  split; [done|]. split; [done|].
  unfold tokenizeLine. rewrite Hs, Hh.
  destruct (strings.HasPrefix line "show") eqn:H1; [done|].
  destruct Hpre as [|H2]; [done|]. by rewrite H2.
Qed.

Lemma tokenizer_panics_without_second_field_witness :
  parseShow "show" = Go.Panicked noSecondField /\
  parseHide "show" = Go.Panicked noSecondField /\
  tokenizeLine [] "show" = mkRun [] (Go.Panicked noSecondField).
Proof.
  apply (tokenizer_panics_without_second_field [] "show").
  - left. reflexivity.
  - unfold hasSpace. simpl. intros H.
    repeat (apply elem_of_cons in H as [H|H]; [discriminate H|]).
    by apply elem_of_nil in H.
Defined.

(** C10 fails as stated: the bare lines [show] and [hide] make the
    parsers, and the tokenizer loop with them, panic on the
    out-of-bounds access [tokens[1]]. *)
Lemma tokenizer_crashes_on_bare_show :
  strings.Split "show" " " = ["show"%string] /\
  parseShow "show" = Go.Panicked (Go.IndexOutOfRange 1 1) /\
  parseHide "hide" = Go.Panicked (Go.IndexOutOfRange 1 1) /\
  tokenize ["wait 500"; "show"; "wait 500"]%string
    = mkRun [] (Go.Panicked (Go.IndexOutOfRange 1 1)).
Proof. by vm_compute. Qed.

(** ** Malformed waits *)

Lemma ParseInt_syntax s n :
  strconv.ParseInt s = (n, Some strconv.ErrSyntax) -> n = 0.
Proof.
  unfold strconv.ParseInt. destruct s as [|c s]; [by intros [= <-]|].
  destruct (strconv.ParseUint _) as [un [[]|]];
    repeat case_match; by intros [= <-].
Qed.

Lemma Atoi_syntax s n e :
  strconv.Atoi s = (n, Some e) ->
  strconv.Err e = strconv.ErrSyntax ->
  n = 0 /\ e = strconv.mkNumError "Atoi" s strconv.ErrSyntax.
Proof.
  unfold strconv.Atoi. destruct (strconv.ParseInt s) as [m [k|]] eqn:Hp; [|done].
  intros [= <- <-]. simpl. intros ->. split; [|done].
  by eapply ParseInt_syntax.
Qed.

Lemma digit_range c d : strconv.digit c = Some d -> 0 <= d <= 9.
Proof.
  unfold strconv.digit.
  pose proof (Z.mod_pos_bound (Z.of_N (N_of_ascii c) - 48) 256 ltac:(lia)).
  destruct (_ <=? 9) eqn:Hd; [|done]. intros [= <-]. lia.
Qed.

(** Below 19 digits the digit loop cannot pass [maxUint64]: it ends in
    a syntax error exactly when some byte is no digit. *)
Lemma parseDigits_short (s : string) : forall n,
  0 <= n ->
  (n + 1) * 10 ^ Z.of_nat (String.length s) <= 10 ^ 18 ->
  allDigits s = false ->
  strconv.parseDigits n s = (0, Some strconv.ErrSyntax).
Proof.
  induction s as [|c s IH]; intros n Hn Hb Hall; [done|].
  cbn [strconv.parseDigits]. unfold allDigits in Hall. simpl in Hall.
  destruct (strconv.digit c) as [d|] eqn:Hd; [|done].
  pose proof (digit_range _ _ Hd) as Hr.
  rewrite bool_decide_eq_true_2 in Hall by eauto. simpl in Hall.
  cbn [String.length] in Hb. rewrite Nat2Z.inj_succ, Z.pow_succ_r in Hb by lia.
  assert (0 < 10 ^ Z.of_nat (String.length s)) by (apply Z.pow_pos_nonneg; lia).
  assert (n * 10 + d + 1 <= 10 ^ 18) by nia.
  unfold strconv.maxUint64.
  rewrite (proj2 (Z.leb_gt _ _)) by (change ((2 ^ 64 - 1) / 10 + 1) with 1844674407370955162; lia).
  rewrite (proj2 (Z.ltb_ge _ _)) by lia.
  apply IH; [lia| nia | done].
Qed.

(** A field under 19 bytes that is no decimal literal is a syntax
    error of [Atoi]. *)
Lemma Atoi_short_not_decimal s :
  (String.length s < 19)%nat ->
  isDecimal s = false ->
  strconv.Atoi s = (0, Some (strconv.mkNumError "Atoi" s strconv.ErrSyntax)).
Proof.
  intros Hlen Hdec. unfold strconv.Atoi, strconv.ParseInt.
  destruct s as [|c s]; [done|].
  unfold isDecimal in Hdec.
  assert (10 ^ Z.of_nat (String.length (String c s)) <= 10 ^ 18) as Hpow
    by (apply Z.pow_le_mono_r; lia).
  assert (10 ^ Z.of_nat (String.length s) <= 10 ^ 18) as Hpow'
    by (apply Z.pow_le_mono_r; cbn [String.length] in Hlen; lia).
  destruct (Ascii.eqb c "+" || Ascii.eqb c "-") eqn:Hsign.
  - destruct s as [|c' s']; [done|].
    unfold strconv.ParseUint.
    by rewrite parseDigits_short by (done || lia).
  - unfold strconv.ParseUint.
    by rewrite parseDigits_short by (done || lia).
Qed.

Lemma prefix_wait_exclusive line :
  strings.HasPrefix line "wait" = true ->
  strings.HasPrefix line "show" = false /\
  strings.HasPrefix line "hide" = false.
Proof.
  unfold strings.HasPrefix. intros H.
  destruct (prefix_app _ _ H) as [post ->]. done.
Qed.

Lemma totalMsOf_app pre post :
  totalMsOf (pre ++ post) = Go.wrap64 (waitSum pre + waitSum post).
Proof.
  rewrite totalMsOf_wrap. f_equal.
  induction pre as [|t pre IH]; simpl; [done|]. destruct (Type_ t); lia.
Qed.

(** A wait of duration zero adds nothing to the total. *)
Lemma totalMsOf_zero_wait pre post id :
  totalMsOf (pre ++ mkToken wait id 0 :: post) = totalMsOf (pre ++ post).
Proof. by rewrite !totalMsOf_app. Qed.

(** C9, as the code has it: for every line that begins with [wait] and
    whose second field [strconv.Atoi] rejects with a syntax error, the
    tokenizer prints the error and goes on: the loop body returns with
    a wait instruction of duration 0 appended, which adds exactly zero
    to [totalMs]. *)
Theorem malformed_wait_counts_zero tokens line field n e :
  strings.HasPrefix line "wait" = true ->
  strings.Split line " " !! 1%nat = Some field ->
  strconv.Atoi field = (n, Some e) ->
  strconv.Err e = strconv.ErrSyntax ->
  tokenizeLine tokens line =
    mkRun [PrintWaitError (strconv.mkNumError "Atoi" field strconv.ErrSyntax)]
          (Go.Returned (tokens ++ [mkToken wait "" 0])) /\
  forall pre post,
    totalMsOf (pre ++ mkToken wait "" 0 :: post) = totalMsOf (pre ++ post).
Proof.
  intros Hpre Hfield Hatoi Herr.
  split; [|intros; apply totalMsOf_zero_wait].
  destruct (Atoi_syntax _ _ _ Hatoi Herr) as [-> ->].
  destruct (prefix_wait_exclusive _ Hpre) as [Hs Hh].
  unfold tokenizeLine. rewrite Hs, Hh, Hpre.
  unfold parseWait.
  assert (index (strings.Split line " ") 1 = Go.Returned field) as ->.
  { unfold index. pose proof (lookup_lt_Some _ _ _ Hfield).
    rewrite (proj2 (Z.ltb_lt 1 _)) by lia.
    change (Z.to_nat 1) with 1%nat. by rewrite Hfield. }
  cbn. rewrite Hatoi. reflexivity.
Qed.

Lemma malformed_wait_counts_zero_witness :
  tokenizeLine [] "wait 1s" =
    mkRun [PrintWaitError (strconv.mkNumError "Atoi" "1s" strconv.ErrSyntax)]
          (Go.Returned ([] ++ [mkToken wait "" 0])) /\
  forall pre post,
    totalMsOf (pre ++ mkToken wait "" 0 :: post) = totalMsOf (pre ++ post).
Proof.
  apply (malformed_wait_counts_zero [] "wait 1s" "1s" 0
           (strconv.mkNumError "Atoi" "1s" strconv.ErrSyntax));
    reflexivity.
Defined.

(** C9 fails as stated: a second field that does not fit [int] is no
    valid integer for [Atoi], which reports a range error; the error is
    printed, but the wait instruction carries the largest [int] and
    adds it to [totalMs].  The digit loop leaves at the overflow, so
    the same happens when garbage follows the digits. *)
Lemma overflowing_wait_counts :
  strings.HasPrefix lineOverflow "wait" = true /\
  strconv.Atoi "99999999999999999999" =
    (9223372036854775807,
     Some (strconv.mkNumError "Atoi" "99999999999999999999" strconv.ErrRange)) /\
  tokenizeLine [] lineOverflow =
    mkRun [PrintWaitError
             (strconv.mkNumError "Atoi" "99999999999999999999" strconv.ErrRange)]
          (Go.Returned [mkToken wait "" 9223372036854775807]) /\
  totalMsOf [mkToken wait "" 9223372036854775807] = 9223372036854775807 /\
  tokenizeLine [] "wait 99999999999999999999ms" =
    mkRun [PrintWaitError
             (strconv.mkNumError "Atoi" "99999999999999999999ms" strconv.ErrRange)]
          (Go.Returned [mkToken wait "" 9223372036854775807]).
Proof. by vm_compute. Qed.

(** ** The command line *)

Lemma bind_lift_returned {A B} (x : A) (k : A -> run B) :
  (lift (Go.Returned x) ≫= k) = k x.
Proof. unfold mbind, run_bind, lift. simpl. by destruct (k x). Qed.

(** C8, as the code has it: with fewer than two arguments after the
    program name, [main] prints the usage message and returns, so the
    process ends with exit status 0 and no file is read or written;
    with exactly three arguments the three accesses to [os.Args]
    succeed and the run goes on to the work on the files. *)
Theorem main_argument_count rt Args :
  ((length Args < 3)%nat ->
     main rt Args = mkRun [PrintUsage] (Go.Returned tt) /\
     exitStatus (main rt Args) = 0) /\
  ((length Args = 4)%nat ->
     exists inputSvgFile inputAnimation outputSvgFile,
       Args !! 1%nat = Some inputSvgFile /\
       Args !! 2%nat = Some inputAnimation /\
       Args !! 3%nat = Some outputSvgFile /\
       main rt Args = translate rt inputSvgFile inputAnimation outputSvgFile).
Proof.
  split.
  - intros Hlen. unfold main.
    by rewrite (proj2 (Z.ltb_lt _ 3)) by lia.
  - intros Hlen. destruct Args as [|prog [|a [|b [|c [|? ?]]]]]; try done.
    exists a, b, c. repeat split. unfold main.
    change (Z.of_nat (length [prog; a; b; c]) <? 3) with false.
    change (index [prog; a; b; c] 1) with (Go.Returned a).
    change (index [prog; a; b; c] 2) with (Go.Returned b).
    change (index [prog; a; b; c] 3) with (Go.Returned c).
    by rewrite !bind_lift_returned.
Qed.

Lemma main_argument_count_witness :
  (main noRuntime ["animate"; "in.svg"] = mkRun [PrintUsage] (Go.Returned tt) /\
   exitStatus (main noRuntime ["animate"; "in.svg"]) = 0) /\
  exists inputSvgFile inputAnimation outputSvgFile,
    ["animate"; "in.svg"; "script"; "out.svg"] !! 1%nat = Some inputSvgFile /\
    ["animate"; "in.svg"; "script"; "out.svg"] !! 2%nat = Some inputAnimation /\
    ["animate"; "in.svg"; "script"; "out.svg"] !! 3%nat = Some outputSvgFile /\
    main noRuntime ["animate"; "in.svg"; "script"; "out.svg"] =
      translate noRuntime inputSvgFile inputAnimation outputSvgFile.
Proof.
  split.
  - apply (main_argument_count noRuntime ["animate"; "in.svg"]). simpl. lia.
  - apply (main_argument_count noRuntime
             ["animate"; "in.svg"; "script"; "out.svg"]). reflexivity.
Defined.

(** C8 fails as stated: started without arguments, or with one, the
    program prints the usage message and ends with exit status 0. *)
Lemma main_usage_exit_status_zero :
  (forall rt, main rt ["animate"] = mkRun [PrintUsage] (Go.Returned tt)) /\
  (forall rt, exitStatus (main rt ["animate"]) = 0) /\
  (forall rt, exitStatus (main rt ["animate"; "in.svg"]) = 0).
Proof. done. Qed.

(** With exactly two arguments the guard of line 65 lets the run pass
    and the access [os.Args[3]] panics. *)
Lemma main_two_arguments_panic rt :
  main rt ["animate"; "in.svg"; "script"] =
    mkRun [] (Go.Panicked (Go.IndexOutOfRange 3 3)).
Proof. reflexivity. Qed.

(** ** The emitter *)

Section EmitterFacts.

Variable formatFloat32 : float32 -> string.
Variable totalMs : Z.

Lemma fold_emitObject visited : forall builder n,
  fold_left (emitObject formatFloat32 totalMs) visited (builder, n) =
    (builder +:+ rulesFrom formatFloat32 totalMs n visited, n + Z.of_nat (length visited)).
Proof.
  induction visited as [|kv visited IH]; intros builder n.
  - simpl. by rewrite string_app_nil_r, Z.add_0_r.
  - cbn [fold_left emitObject rulesFrom length]. rewrite IH.
    rewrite string_app_assoc. f_equal. lia.
Qed.

Lemma rulesFrom_imap visited : forall n,
  rulesFrom formatFloat32 totalMs n visited =
    String.concat ""
      (imap (fun i kv => objectCss formatFloat32 totalMs (n + Z.of_nat i) kv.1 kv.2)
            visited).
Proof.
  induction visited as [|kv visited IH]; intros n; [done|].
  cbn [rulesFrom imap]. rewrite IH, Z.add_0_r.
  assert (forall (x : string) xs, String.concat "" (x :: xs) = x +:+ String.concat "" xs) as Hc.
  { intros x [|y xs]; simpl; [by rewrite string_app_nil_r|done]. }
  rewrite Hc. f_equal. f_equal. apply imap_ext. intros i x _. simpl.
  f_equal. lia.
Qed.

(** The output in closed form: the entry visited in position [i],
    counting from 0, is emitted under the animation name [anim<i>]. *)
Lemma generateCssAnimation_closed_form visited :
  generateCssAnimation formatFloat32 visited totalMs =
    "<style>" +:+
    String.concat ""
      (imap (fun i kv => objectCss formatFloat32 totalMs (Z.of_nat i) kv.1 kv.2)
            visited) +:+
    "</style>".
Proof.
  unfold generateCssAnimation. rewrite fold_emitObject. cbn [fst].
  by rewrite string_app_assoc, rulesFrom_imap.
Qed.

End EmitterFacts.

(** Two visits of one map that see the keys in the same order see the
    same entries. *)
Lemma rangeOver_same_keys (keyframes : keyframeMap) o1 o2 :
  rangeOver keyframes o1 -> rangeOver keyframes o2 ->
  o1.*1 = o2.*1 -> o1 = o2.
Proof.
  unfold rangeOver. intros H1 H2 Hk.
  assert (forall kv, kv ∈ o1 -> keyframes !! kv.1 = Some kv.2) as L1.
  { intros [k v] Hin. rewrite H1 in Hin. by apply elem_of_map_to_list in Hin. }
  assert (forall kv, kv ∈ o2 -> keyframes !! kv.1 = Some kv.2) as L2.
  { intros [k v] Hin. rewrite H2 in Hin. by apply elem_of_map_to_list in Hin. }
  clear H1 H2. revert o2 Hk L2.
  induction o1 as [|[k v] o1 IH]; intros [|[k' v'] o2] Hk L2; try done.
  simpl in Hk. injection Hk as -> Hk.
  pose proof (L1 (k', v) ltac:(left)) as E1.
  pose proof (L2 (k', v') ltac:(left)) as E2.
  simpl in E1, E2. rewrite E1 in E2. injection E2 as ->.
  f_equal. apply IH; [|done|].
  - intros kv ?. apply L1. by right.
  - intros kv ?. apply L2. by right.
Qed.

(** The visits of a map with one entry at most all see the same
    sequence. *)
Lemma rangeOver_small (keyframes : keyframeMap) o1 o2 :
  (size keyframes <= 1)%nat ->
  rangeOver keyframes o1 -> rangeOver keyframes o2 -> o1 = o2.
Proof.
  unfold rangeOver. intros Hsize H1 H2.
  assert (o1 ≡ₚ o2) as Hperm by (by rewrite H1, H2).
  assert (length o1 <= 1)%nat as Hlen
    by (by rewrite H1, length_map_to_list).
  destruct o1 as [|x [|y o1]]; [| |simpl in Hlen; lia].
  - by apply Permutation_nil_l in Hperm.
  - by apply Permutation_singleton_l in Hperm.
Qed.

(** C3, as the code has it: the output of the emitter is fixed by the
    compiled timeline, the total duration and the order in which the
    [range] loop visits the objects.  It is [<style>], then for the
    object visited at position [i] (from 0) the animation rule and the
    keyframes rule under the name [anim<i>], then [</style>].  Two
    runs on one timeline visit the same entries, in some order each;
    they give the same text, byte for byte, when they visit the
    objects in the same order, and always when the timeline has at
    most one object. *)
Theorem generateCssAnimation_fixed_order
    formatFloat32 (keyframes : keyframeMap) totalMs o1 o2 :
  rangeOver keyframes o1 -> rangeOver keyframes o2 ->
  generateCssAnimation formatFloat32 o1 totalMs =
    "<style>" +:+
    String.concat ""
      (imap (fun i kv =>
               "#cell-" +:+ kv.1 +:+ " { animation: anim" +:+
               pretty (Z.of_nat i) +:+ " " +:+ pretty totalMs +:+
               "ms linear infinite normal forwards; } " +:+
               "@keyframes anim" +:+ pretty (Z.of_nat i) +:+ " { " +:+
               String.concat ""
                 ((fun kf => formatFloat32 (Stage kf) +:+ "% { opacity: " +:+
                             formatFloat32 (Opacity kf) +:+ "; } ") <$> kv.2) +:+
               "}") o1)
    +:+ "</style>" /\
  o1 ≡ₚ o2 /\
  (o1.*1 = o2.*1 \/ (size keyframes <= 1)%nat ->
   generateCssAnimation formatFloat32 o1 totalMs =
     generateCssAnimation formatFloat32 o2 totalMs).
Proof.
  intros H1 H2. split; [|split].
  - rewrite generateCssAnimation_closed_form. f_equal. f_equal. f_equal.
    apply imap_ext. intros i [k v] _. cbn [fst snd].
    unfold objectCss, animationCss, keyframesCss, objectIdPrfix,
      animationNamePrefix.
    rewrite !string_app_assoc. reflexivity.
  - unfold rangeOver in *. by rewrite H1, H2.
  - intros [Hk|Hsize].
    + by rewrite (rangeOver_same_keys keyframes o1 o2).
    + by rewrite (rangeOver_small keyframes o1 o2).
Qed.

Lemma timeline2_compiled :
  calculateStep script2 = (F32.c100, 1000) /\
  calculateKeyframes script2 F32.c100 = Go.Returned timeline2.
Proof.
  split; [by vm_compute|].
  destruct (calculateKeyframes_returns script2 F32.c100) as (kfs & -> & Hk).
  f_equal. apply map_eq. intros k. rewrite Hk. unfold timeline2.
  destruct (decide (k = "a"%string)) as [->|Ha].
  { rewrite lookup_insert_eq. by vm_compute. }
  destruct (decide (k = "b"%string)) as [->|Hb].
  { rewrite lookup_insert_ne, lookup_insert_eq by done. by vm_compute. }
  rewrite !lookup_insert_ne, lookup_empty by done.
  rewrite decide_False; [done|]. unfold referenced, script2.
  rewrite !Exists_cons, Exists_nil. unfold refers. simpl.
  intros [[_ ?]|[[_ ?]|[[? _]|[]]]]; congruence.
Qed.

Lemma generateCssAnimation_fixed_order_witness :
  generateCssAnimation (fun _ => "0"%string)
    [("a"%string, listA); ("b"%string, listA)] 1000 =
    "<style>" +:+
    String.concat ""
      (imap (fun i kv =>
               "#cell-" +:+ kv.1 +:+ " { animation: anim" +:+
               pretty (Z.of_nat i) +:+ " " +:+ pretty 1000 +:+
               "ms linear infinite normal forwards; } " +:+
               "@keyframes anim" +:+ pretty (Z.of_nat i) +:+ " { " +:+
               String.concat ""
                 ((fun kf => "0" +:+ "% { opacity: " +:+ "0" +:+ "; } ") <$> kv.2) +:+
               "}") [("a"%string, listA); ("b"%string, listA)])
    +:+ "</style>" /\
  [("a"%string, listA); ("b"%string, listA)] ≡ₚ
    [("b"%string, listA); ("a"%string, listA)] /\
  ([("a"%string, listA); ("b"%string, listA)].*1 =
     [("b"%string, listA); ("a"%string, listA)].*1 \/
   (size timeline2 <= 1)%nat ->
   generateCssAnimation (fun _ => "0"%string)
     [("a"%string, listA); ("b"%string, listA)] 1000 =
   generateCssAnimation (fun _ => "0"%string)
     [("b"%string, listA); ("a"%string, listA)] 1000).
Proof.
  apply (generateCssAnimation_fixed_order (fun _ => "0"%string) timeline2 1000).
  - unfold rangeOver, timeline2.
    rewrite map_to_list_insert by done.
    by rewrite map_to_list_insert, map_to_list_empty by done.
  - unfold rangeOver, timeline2.
    rewrite map_to_list_insert by done.
    rewrite map_to_list_insert, map_to_list_empty by done.
    apply perm_swap.
Defined.

(** The order matters: Go leaves the order of [range] over a map open,
    and two runs that visit the two objects of [timeline2] in different
    orders differ, however the numbers are printed: the rule for
    [#cell-a] comes first under [anim0] in one, second under [anim1] in
    the other. *)
Lemma generateCssAnimation_order_dependent :
  calculateKeyframes script2 (calculateStep script2).1 = Go.Returned timeline2 /\
  rangeOver timeline2 [("a"%string, listA); ("b"%string, listA)] /\
  rangeOver timeline2 [("b"%string, listA); ("a"%string, listA)] /\
  forall formatFloat32,
    generateCssAnimation formatFloat32
      [("a"%string, listA); ("b"%string, listA)] 1000 <>
    generateCssAnimation formatFloat32
      [("b"%string, listA); ("a"%string, listA)] 1000.
Proof.
  split; [apply timeline2_compiled|].
  assert (rangeOver timeline2 [("a"%string, listA); ("b"%string, listA)]) as H1.
  { unfold rangeOver, timeline2.
    rewrite map_to_list_insert by done.
    by rewrite map_to_list_insert, map_to_list_empty by done. }
  split; [done|]. split.
  - unfold rangeOver in *. rewrite <- H1. apply perm_swap.
  - intros f H. rewrite !generateCssAnimation_closed_form in H.
    cbn in H. discriminate H.
Qed.

(** ** float32 rounding *)

Section RoundingFacts.

Local Abbreviation fexp32 := (fexp F32.prec F32.emax).

Lemma fexp32_eq e : fexp32 e = Z.max (e - 24) (-149).
Proof. reflexivity. Qed.

Lemma digits2_pos_bounds p :
  2 ^ (Z.pos (digits2_pos p) - 1) <= Z.pos p < 2 ^ Z.pos (digits2_pos p).
Proof.
  induction p as [p IH|p IH|]; cbn [digits2_pos]; [| |simpl; lia].
  all: rewrite Pos2Z.inj_succ;
       replace (Z.succ (Z.pos (digits2_pos p)) - 1) with (Z.pos (digits2_pos p)) by lia;
       rewrite Z.pow_succ_r by lia;
       replace (2 ^ Z.pos (digits2_pos p))
         with (2 * 2 ^ (Z.pos (digits2_pos p) - 1)) in *
         by (rewrite <- Z.pow_succ_r by lia; f_equal; lia);
       lia.
Qed.

Lemma digits2_pos_le_of_lt p d :
  0 <= d -> Z.pos p < 2 ^ d -> Z.pos (digits2_pos p) <= d.
Proof.
  intros Hd Hlt. pose proof (digits2_pos_bounds p) as [Hlo _].
  destruct (Z_le_gt_dec (Z.pos (digits2_pos p)) d) as [|Hgt]; [done|].
  assert (2 ^ d <= 2 ^ (Z.pos (digits2_pos p) - 1))
    by (apply Z.pow_le_mono_r; lia).
  lia.
Qed.

Lemma shr_1_m mrs : 0 <= shr_m mrs -> shr_m (shr_1 mrs) = shr_m mrs / 2.
Proof.
  destruct mrs as [m r s]. cbn [shr_m]. intros Hm.
  destruct m as [|[p|p|]|p]; cbn [shr_1 shr_m]; try done; try lia.
  - apply Z.div_unique with 1; lia.
  - apply Z.div_unique with 0; lia.
Qed.

Lemma iter_pos_shr_1 p : forall mrs,
  0 <= shr_m mrs ->
  shr_m (SpecFloat.iter_pos shr_1 p mrs) = shr_m mrs / 2 ^ Z.pos p.
Proof.
  induction p as [p IH|p IH|]; intros mrs Hm; cbn [SpecFloat.iter_pos].
  - assert (0 <= shr_m (shr_1 mrs)) as H1
      by (rewrite shr_1_m by done; apply Z.div_pos; lia).
    assert (0 <= shr_m (SpecFloat.iter_pos shr_1 p (shr_1 mrs))) as H2
      by (rewrite IH by done; apply Z.div_pos; lia).
    rewrite !IH, shr_1_m by done.
    rewrite !Z.div_div by lia. f_equal.
    replace (Z.pos p~1) with (Z.pos p + Z.pos p + 1) by lia.
    rewrite !Z.pow_add_r by lia. change (2 ^ 1) with 2. lia.
  - assert (0 <= shr_m (SpecFloat.iter_pos shr_1 p mrs)) as H2
      by (rewrite IH by done; apply Z.div_pos; lia).
    rewrite !IH by done.
    rewrite !Z.div_div by lia. f_equal.
    replace (Z.pos p~0) with (Z.pos p + Z.pos p) by lia.
    rewrite !Z.pow_add_r by lia. lia.
  - by rewrite shr_1_m.
Qed.

(** [shr_fexp] divides the mantissa by the power of two that brings the
    exponent up to [fexp], rounding down, and leaves it alone when the
    exponent is already there. *)
Lemma shr_fexp_spec m e l :
  0 <= m ->
  let n := fexp32 (Zdigits2 m + e) - e in
  shr_m (shr_fexp F32.prec F32.emax m e l).1 = (if 0 <? n then m / 2 ^ n else m) /\
  (shr_fexp F32.prec F32.emax m e l).2 = (if 0 <? n then e + n else e).
Proof.
  intros Hm n. unfold shr_fexp. fold n.
  assert (shr_m (shr_record_of_loc m l) = m) as Hrec
    by (by destruct l as [|[]]).
  unfold shr. destruct n as [|p|p]; simpl; try done.
  by rewrite iter_pos_shr_1, Hrec by (by rewrite Hrec).
Qed.

Lemma round_nearest_even_ge m l : m <= round_nearest_even m l.
Proof. destruct l as [|[]]; simpl; try lia. destruct (Z.even m); lia. Qed.

(** Rounding a mantissa down to the exponent [fexp] asks for does not
    go below a number of the format that the value was not below. *)
Lemma floor_keeps_above (mx : positive) ex (m : positive) e :
  -149 <= ex -> fexp32 (Z.pos (digits2_pos mx) + ex) <= ex ->
  -149 <= e ->
  Z.pos mx * 2 ^ (ex + 149) <= Z.pos m * 2 ^ (e + 149) ->
  let n := fexp32 (Z.pos (digits2_pos m) + e) - e in
  0 < n ->
  Z.pos mx * 2 ^ (ex + 149) <= (Z.pos m / 2 ^ n) * 2 ^ (e + n + 149).
Proof.
  intros Hex Hfx He Hle n Hn.
  pose proof (digits2_pos_bounds m) as [Hmlo Hmhi].
  pose proof (digits2_pos_bounds mx) as [Hxlo Hxhi].
  set (d := Z.pos (digits2_pos m)) in *.
  set (dx := Z.pos (digits2_pos mx)) in *.
  rewrite fexp32_eq in Hfx. unfold n in *. rewrite fexp32_eq in *.
  set (E := Z.max (d + e - 24) (-149)) in *.
  assert (0 < 2 ^ (e + 149)) as HA by (apply Z.pow_pos_nonneg; lia).
  assert (0 < 2 ^ (E - e)) as HN by (apply Z.pow_pos_nonneg; lia).
  replace (e + (E - e) + 149) with ((E - e) + (e + 149)) by lia.
  rewrite (Z.pow_add_r 2 (E - e)) by lia.
  destruct (Z_le_gt_dec E ex) as [Hc|Hc].
  - replace (ex + 149) with ((ex - E) + ((E - e) + (e + 149))) in * by lia.
    rewrite (Z.pow_add_r 2 (ex - E)) in * by lia.
    rewrite (Z.pow_add_r 2 (E - e)) in * by lia.
    assert (0 < 2 ^ (ex - E)) as HK by (apply Z.pow_pos_nonneg; lia).
    set (k := Z.pos mx * 2 ^ (ex - E)).
    assert (k * 2 ^ (E - e) <= Z.pos m) as Hk by (unfold k; nia).
    assert (k <= Z.pos m / 2 ^ (E - e)) as Hq
      by (apply Z.div_le_lower_bound; lia).
    replace (Z.pos mx * (2 ^ (ex - E) * (2 ^ (E - e) * 2 ^ (e + 149))))
      with (k * (2 ^ (E - e) * 2 ^ (e + 149))) by (unfold k; ring).
    apply Z.mul_le_mono_nonneg_r; [nia|done].
  - assert (E = d + e - 24) as HE by lia.
    assert (dx <= 24) as Hdx by lia.
    assert (2 ^ dx <= 2 ^ 24) as Hx24 by (apply Z.pow_le_mono_r; lia).
    assert (2 ^ 23 <= Z.pos m / 2 ^ (E - e)) as Hq.
    { apply Z.div_le_lower_bound; [done|].
      rewrite <- Z.pow_add_r by lia.
      replace (E - e + 23) with (d - 1) by lia. done. }
    assert (2 ^ (ex + 149) <= 2 ^ (E - 1 + 149)) as Hpw
      by (apply Z.pow_le_mono_r; lia).
    assert (2 ^ (E - e) * 2 ^ (e + 149) = 2 * 2 ^ (E - 1 + 149)) as ->.
    { rewrite <- Z.pow_add_r, <- Z.pow_succ_r by lia. f_equal. lia. }
    assert (0 < 2 ^ (ex + 149)) by (apply Z.pow_pos_nonneg; lia).
    change (2 ^ 24) with 16777216 in *. change (2 ^ 23) with 8388608 in *.
    nia.
Qed.

Lemma units_eq m e : F32.units m e = Z.pos m * 2 ^ (e + 149).
Proof.
  unfold F32.units, F32.emin. by replace (e - -149) with (e + 149) by lia.
Qed.

Lemma units_pos m e : -149 <= e -> 0 < F32.units m e.
Proof.
  intros. rewrite units_eq.
  assert (0 < 2 ^ (e + 149)) by (apply Z.pow_pos_nonneg; lia). lia.
Qed.

(** One [shr_fexp] step on a mantissa that is not negative: the
    mantissa stays so, the exponent ends in range and the result fits
    the format. *)
Lemma shr_fexp_step m e l :
  0 <= m ->
  let r := shr_fexp F32.prec F32.emax m e l in
  0 <= shr_m r.1 /\ -149 <= r.2 /\
  (forall p, shr_m r.1 = Z.pos p ->
     fexp32 (Z.pos (digits2_pos p) + r.2) <= r.2).
Proof.
  intros H0 r.
  destruct (shr_fexp_spec m e l H0) as [Hm Hexp].
  fold r in Hm, Hexp. rewrite Hm, Hexp. clear Hm Hexp.
  set (n := fexp32 (Zdigits2 m + e) - e).
  destruct (0 <? n) eqn:Hn.
  - apply Z.ltb_lt in Hn.
    assert (0 < 2 ^ n) by (apply Z.pow_pos_nonneg; lia).
    split; [apply Z.div_pos; lia|].
    split; [unfold n; rewrite fexp32_eq; lia|].
    intros p Hp. destruct m as [|m|m]; [by rewrite Z.div_0_l in Hp by lia| |lia].
    cbn [Zdigits2] in *.
    pose proof (digits2_pos_bounds m) as [_ Hhi].
    assert (n < Z.pos (digits2_pos m)) as Hnd.
    { destruct (Z_lt_ge_dec n (Z.pos (digits2_pos m))) as [|Hge]; [done|].
      assert (2 ^ Z.pos (digits2_pos m) <= 2 ^ n)
        by (apply Z.pow_le_mono_r; lia).
      rewrite Z.div_small in Hp by lia. lia. }
    assert (Z.pos (digits2_pos p) <= Z.pos (digits2_pos m) - n) as Hd.
    { apply digits2_pos_le_of_lt; [lia|]. rewrite <- Hp.
      apply Z.div_lt_upper_bound; [done|].
      rewrite <- Z.pow_add_r by lia.
      by replace (n + (Z.pos (digits2_pos m) - n))
        with (Z.pos (digits2_pos m)) by lia. }
    unfold n in *. rewrite !fexp32_eq in *. lia.
  - apply Z.ltb_ge in Hn. split; [lia|].
    split; [unfold n in Hn; rewrite fexp32_eq in Hn; lia|].
    intros p ->. cbn [Zdigits2] in n. unfold n in Hn. lia.
Qed.

(** A number of the format that the value is not below is not above
    the result of the step. *)
Lemma shr_fexp_above (m : positive) e l mx ex :
  -149 <= e ->
  -149 <= ex -> fexp32 (Z.pos (digits2_pos mx) + ex) <= ex ->
  F32.units mx ex <= Z.pos m * 2 ^ (e + 149) ->
  let r := shr_fexp F32.prec F32.emax (Z.pos m) e l in
  F32.units mx ex <= shr_m r.1 * 2 ^ (r.2 + 149).
Proof.
  intros He Hex Hfx Hle r.
  destruct (shr_fexp_spec (Z.pos m) e l ltac:(lia)) as [Hm Hexp].
  fold r in Hm, Hexp. rewrite Hm, Hexp. clear Hm Hexp.
  cbn [Zdigits2]. set (n := fexp32 (Z.pos (digits2_pos m) + e) - e).
  destruct (0 <? n) eqn:Hn; [|done].
  apply Z.ltb_lt in Hn. rewrite units_eq in *. by apply floor_keeps_above.
Qed.

(** Rounding a mantissa that is not negative yields +0, +Inf or a
    positive number that fits the format. *)
Lemma binary_round_aux_fits m e l :
  0 <= m -> F32.fits (binary_round_aux F32.prec F32.emax false m e l).
Proof.
  intros Hm. unfold binary_round_aux.
  pose proof (shr_fexp_step m e l Hm) as (H1 & _ & _).
  destruct (shr_fexp F32.prec F32.emax m e l) as [mrs1 e1]. cbn [fst snd] in H1.
  set (r1 := round_nearest_even (shr_m mrs1) (loc_of_shr_record mrs1)).
  assert (0 <= r1) as Hr1
    by (pose proof (round_nearest_even_ge (shr_m mrs1) (loc_of_shr_record mrs1));
        unfold r1; lia).
  pose proof (shr_fexp_step r1 e1 loc_Exact Hr1) as (H2 & He2 & Hfit).
  destruct (shr_fexp F32.prec F32.emax r1 e1 loc_Exact) as [mrs2 e2].
  cbn [fst snd] in *.
  destruct (shr_m mrs2) as [|p|p]; [done| |lia].
  destruct (e2 <=? F32.emax - F32.prec); [|done].
  split; [done|]. by apply Hfit.
Qed.

(** A number of the format that the exact value is not below is not
    above the rounded value. *)
Lemma binary_round_aux_above (m : positive) e l mx ex :
  -149 <= e ->
  -149 <= ex -> fexp32 (Z.pos (digits2_pos mx) + ex) <= ex ->
  F32.units mx ex <= Z.pos m * 2 ^ (e + 149) ->
  F32.le (S754_finite false mx ex)
         (binary_round_aux F32.prec F32.emax false (Z.pos m) e l).
Proof.
  intros He Hex Hfx Hle. unfold binary_round_aux.
  pose proof (units_pos mx ex Hex) as Hpos.
  pose proof (shr_fexp_step (Z.pos m) e l ltac:(lia)) as (H1 & He1 & _).
  pose proof (shr_fexp_above m e l mx ex He Hex Hfx Hle) as Ha1.
  destruct (shr_fexp F32.prec F32.emax (Z.pos m) e l) as [mrs1 e1].
  cbn [fst snd] in *.
  set (r1 := round_nearest_even (shr_m mrs1) (loc_of_shr_record mrs1)).
  assert (shr_m mrs1 <= r1) as Hr1 by apply round_nearest_even_ge.
  assert (0 < 2 ^ (e1 + 149)) as Hp1 by (apply Z.pow_pos_nonneg; lia).
  assert (F32.units mx ex <= r1 * 2 ^ (e1 + 149)) as Hle1 by nia.
  destruct r1 as [|q|q] eqn:Hq; [lia| |lia].
  pose proof (shr_fexp_step (Z.pos q) e1 loc_Exact ltac:(lia)) as (H2 & He2 & _).
  pose proof (shr_fexp_above q e1 loc_Exact mx ex He1 Hex Hfx Hle1) as Ha2.
  destruct (shr_fexp F32.prec F32.emax (Z.pos q) e1 loc_Exact) as [mrs2 e2].
  cbn [fst snd] in *.
  destruct (shr_m mrs2) as [|p|p]; [lia| |lia].
  destruct (e2 <=? F32.emax - F32.prec); [|done].
  unfold F32.le, F32.leb, F32.value. cbn [cond_Zopp]. apply Z.leb_le.
  by rewrite (units_eq p e2).
Qed.

Lemma pos_iter_xO m d : Z.pos (Pos.iter xO m d) = Z.pos m * 2 ^ Z.pos d.
Proof.
  induction d as [|d IH] using Pos.peano_ind.
  - simpl. lia.
  - rewrite Pos.iter_succ, Pos2Z.inj_xO, IH, Pos2Z.inj_succ, Z.pow_succ_r by lia.
    lia.
Qed.

(** [shl_align] lowers the exponent to the target, if it is lower, and
    keeps the value. *)
Lemma shl_align_spec mx ex ex' :
  let r := shl_align mx ex ex' in
  r.2 = Z.min ex ex' /\ Z.pos r.1 = Z.pos mx * 2 ^ (ex - r.2).
Proof.
  unfold shl_align. destruct (ex' - ex) as [|d|d] eqn:Hd; cbn [fst snd].
  - split; [lia|]. replace (ex - ex) with 0 by lia. simpl. lia.
  - split; [lia|]. replace (ex - ex) with 0 by lia. simpl. lia.
  - split; [lia|]. rewrite pos_iter_xO. f_equal. f_equal. lia.
Qed.

Lemma shl_align_units mx ex ex' :
  -149 <= Z.min ex ex' ->
  let r := shl_align mx ex ex' in
  Z.pos r.1 * 2 ^ (r.2 + 149) = Z.pos mx * 2 ^ (ex + 149).
Proof.
  intros Hmin r. destruct (shl_align_spec mx ex ex') as [H2 H1].
  fold r in H1, H2. rewrite H1, <- Z.mul_assoc, <- Z.pow_add_r by lia.
  f_equal. f_equal. lia.
Qed.

Lemma binary_round_fits m e : F32.fits (binary_round F32.prec F32.emax false m e).
Proof.
  unfold binary_round. destruct (shl_align _ _ _) as [mz ez].
  by apply binary_round_aux_fits.
Qed.

Lemma of_int_fits d : 0 <= d -> F32.fits (F32.of_int d).
Proof.
  intros Hd. unfold F32.of_int, binary_normalize.
  destruct d as [|p|p]; [done| |lia]. apply binary_round_fits.
Qed.

Lemma div_fits x y :
  F32.fits x -> F32.positiveFinite y -> F32.fits (F32.div x y).
Proof.
  destruct x as [[]|[]| |[] mx ex], y as [ | | |[] my ey]; try done.
  intros _ _. unfold F32.div, SFdiv. cbn [xorb].
  destruct (SFdiv_core_binary _ _ _ _ _ _) as [[mz ez] lz] eqn:Hcore.
  apply binary_round_aux_fits.
  unfold SFdiv_core_binary in Hcore.
  match type of Hcore with
  | (let '(q, r) := Z.div_eucl ?a ?b in _) = _ =>
      assert (0 <= a) as Ha;
      [| pose proof (Z_div_mod a b ltac:(lia)) as Hdm;
         destruct (Z.div_eucl a b) as [q r]; injection Hcore as <- _ _ ]
  end.
  - destruct (_ - _ - _) as [|s|s]; [lia| |lia].
    rewrite Z.shiftl_mul_pow2 by lia.
    assert (0 < 2 ^ Z.pos s) by (apply Z.pow_pos_nonneg; lia). lia.
  - nia.
Qed.

Lemma mul_fits x y :
  F32.fits x -> F32.positiveFinite y -> F32.fits (F32.mul x y).
Proof.
  destruct x as [[]|[]| |[] mx ex], y as [ | | |[] my ey]; try done.
  intros _ _. unfold F32.mul, SFmul. cbn [xorb].
  by apply binary_round_aux_fits.
Qed.

Lemma le_refl x : F32.fits x -> F32.le x x.
Proof.
  destruct x as [[]|[]| |[] m e]; try done. intros _.
  unfold F32.le, F32.leb. apply Z.leb_refl.
Qed.

Lemma le_trans x y z : F32.le x y -> F32.le y z -> F32.le x z.
Proof.
  unfold F32.le, F32.leb.
  destruct x as [sx|[]| |sx mx ex], y as [sy|[]| |sy my ey],
           z as [sz|[]| |sz mz ez]; try done; rewrite !Z.leb_le; lia.
Qed.

(** Adding a number that is not negative to a number of the format
    does not go below it, and stays in the format. *)
Lemma add_fits_le x y :
  F32.fits x -> F32.fits y ->
  F32.fits (F32.add x y) /\ F32.le x (F32.add x y).
Proof.
  destruct x as [[]|[]| |[] mx ex], y as [[]|[]| |[] my ey]; try done.
  - intros _ Hy. split; [exact Hy|]. destruct Hy as [Hey _].
    unfold F32.le, F32.leb, F32.add, SFadd, F32.value. cbn [cond_Zopp].
    apply Z.leb_le. pose proof (units_pos my ey ltac:(done)). lia.
  - intros Hx _. split; [done|]. by apply le_refl.
  - intros [Hex Hfx] [Hey Hfy]. unfold F32.emin in *.
    unfold F32.add, SFadd. cbn [cond_Zopp].
    set (ez := Z.min ex ey).
    pose proof (shl_align_units mx ex ez ltac:(lia)) as Ux.
    pose proof (shl_align_spec mx ex ez) as [Ex _].
    pose proof (shl_align_spec my ey ez) as [Ey _].
    destruct (shl_align mx ex ez) as [ax ex1], (shl_align my ey ez) as [ay ey1].
    cbn [fst snd] in *.
    change (Z.pos ax + Z.pos ay) with (Z.pos (ax + ay)).
    cbn [binary_normalize]. split; [apply binary_round_fits|].
    unfold binary_round.
    set (t := fexp32 (Z.pos (digits2_pos (ax + ay)) + ez)).
    pose proof (shl_align_units (ax + ay) ez t
                  ltac:(unfold t; rewrite fexp32_eq; lia)) as Us.
    pose proof (shl_align_spec (ax + ay) ez t) as [Es _].
    destruct (shl_align (ax + ay) ez t) as [mz ez1]. cbn [fst snd] in *.
    apply binary_round_aux_above; [unfold t in Es; rewrite fexp32_eq in Es; lia|done..|].
    rewrite Us, units_eq, <- Ux.
    assert (ex1 = ez) as -> by lia.
    assert (0 < 2 ^ (ez + 149)) by (apply Z.pow_pos_nonneg; lia).
    rewrite Pos2Z.inj_add. nia.
Qed.

Lemma round_nearest_even_le m l : round_nearest_even m l <= m + 1.
Proof. destruct l as [|[]]; simpl; try lia. destruct (Z.even m); lia. Qed.

(** The digits and exponent of a positive value that is not above a
    number of the format. *)
Lemma digits_le_of_units_le (m : positive) e my ey :
  -149 <= e -> -149 <= ey ->
  Z.pos m * 2 ^ (e + 149) <= F32.units my ey ->
  Z.pos (digits2_pos m) + e <= Z.pos (digits2_pos my) + ey.
Proof.
  intros He Hey Hle. rewrite units_eq in Hle.
  pose proof (digits2_pos_bounds m) as [Hlo _].
  pose proof (digits2_pos_bounds my) as [_ Hhi].
  set (d := Z.pos (digits2_pos m)) in *.
  set (dy := Z.pos (digits2_pos my)) in *.
  assert (0 < 2 ^ (e + 149)) by (apply Z.pow_pos_nonneg; lia).
  assert (0 < 2 ^ (ey + 149)) by (apply Z.pow_pos_nonneg; lia).
  assert (1 <= d) by (unfold d; lia). assert (1 <= dy) by (unfold dy; lia).
  assert (2 ^ (d - 1 + (e + 149)) < 2 ^ (dy + (ey + 149))) as Hpow.
  { rewrite (Z.pow_add_r 2 (d - 1)), (Z.pow_add_r 2 dy) by lia.
    assert (2 ^ (d - 1) * 2 ^ (e + 149) <= Z.pos m * 2 ^ (e + 149))
      by (apply Z.mul_le_mono_nonneg_r; lia).
    assert (Z.pos my * 2 ^ (ey + 149) < 2 ^ dy * 2 ^ (ey + 149))
      by (apply Z.mul_lt_mono_pos_r; lia).
    lia. }
  apply Z.pow_lt_mono_r_iff in Hpow; lia.
Qed.

(** One [shr_fexp] step keeps the value, rounded down, below a bound of
    the format, and the exponent below the exponent of the bound. *)
Lemma shr_fexp_below (m : positive) e l my ey (strict : bool) :
  -149 <= e -> e <= ey ->
  fexp32 (Z.pos (digits2_pos my) + ey) <= ey ->
  (Z.pos m + Z.b2z strict) * 2 ^ (e + 149) <= F32.units my ey ->
  let r := shr_fexp F32.prec F32.emax (Z.pos m) e l in
  r.2 <= ey /\ (shr_m r.1 + Z.b2z strict) * 2 ^ (r.2 + 149) <= F32.units my ey.
Proof.
  intros He Hey Hfy Hle r.
  assert (0 < 2 ^ (e + 149)) as HA by (apply Z.pow_pos_nonneg; lia).
  assert (0 <= Z.b2z strict <= 1) as Hb by (destruct strict; simpl; lia).
  assert (Z.pos (digits2_pos m) + e <= Z.pos (digits2_pos my) + ey) as Hd.
  { apply digits_le_of_units_le; [lia..|]. nia. }
  destruct (shr_fexp_spec (Z.pos m) e l ltac:(lia)) as [Hm Hexp].
  fold r in Hm, Hexp. rewrite Hm, Hexp. clear Hm Hexp.
  cbn [Zdigits2]. set (n := fexp32 (Z.pos (digits2_pos m) + e) - e).
  destruct (0 <? n) eqn:Hn; [|done].
  apply Z.ltb_lt in Hn. unfold n in *. rewrite !fexp32_eq in *.
  set (E := Z.max (Z.pos (digits2_pos m) + e - 24) (-149)) in *.
  split; [lia|].
  replace (e + (E - e) + 149) with ((E - e) + (e + 149)) by lia.
  rewrite units_eq in *.
  replace (ey + 149) with ((ey - E) + ((E - e) + (e + 149))) in * by lia.
  rewrite (Z.pow_add_r 2 (ey - E)) in * by lia.
  rewrite (Z.pow_add_r 2 (E - e)) in * by lia.
  assert (0 < 2 ^ (E - e)) as HN by (apply Z.pow_pos_nonneg; lia).
  assert (0 < 2 ^ (ey - E)) as HK by (apply Z.pow_pos_nonneg; lia).
  set (k := Z.pos my * 2 ^ (ey - E)) in *.
  replace (Z.pos my * (2 ^ (ey - E) * (2 ^ (E - e) * 2 ^ (e + 149))))
    with (k * (2 ^ (E - e) * 2 ^ (e + 149))) in * by (unfold k; ring).
  assert (Z.pos m + Z.b2z strict <= k * 2 ^ (E - e)) as Hk by nia.
  pose proof (Z.mul_div_le (Z.pos m) (2 ^ (E - e)) HN) as Hfl.
  assert (Z.pos m / 2 ^ (E - e) + Z.b2z strict <= k) as Hq.
  { destruct strict; simpl in *.
    - assert (Z.pos m / 2 ^ (E - e) < k); [|lia].
      apply Z.div_lt_upper_bound; [done|]. lia.
    - assert (Z.pos m / 2 ^ (E - e) <= k); [|lia].
      apply Z.div_le_upper_bound; [done|]. lia. }
  apply Z.mul_le_mono_nonneg_r; [nia|done].
Qed.

(** The rounded value is not above a number of the format that lies
    above the exact value by one unit of the mantissa; in particular
    the rounding does not overflow. *)
Lemma binary_round_aux_below (m : positive) e l my ey :
  -149 <= e -> e <= ey -> ey <= 104 ->
  fexp32 (Z.pos (digits2_pos my) + ey) <= ey ->
  (Z.pos m + 1) * 2 ^ (e + 149) <= F32.units my ey ->
  F32.le (binary_round_aux F32.prec F32.emax false (Z.pos m) e l)
         (S754_finite false my ey).
Proof.
  intros He Hey Hmax Hfy Hle. unfold binary_round_aux.
  pose proof (units_pos my ey ltac:(lia)) as Hpos.
  pose proof (shr_fexp_step (Z.pos m) e l ltac:(lia)) as (H1 & He1 & _).
  pose proof (shr_fexp_below m e l my ey true He Hey Hfy Hle) as [Hx1 Hb1].
  destruct (shr_fexp F32.prec F32.emax (Z.pos m) e l) as [mrs1 e1].
  cbn [fst snd Z.b2z] in *.
  set (r1 := round_nearest_even (shr_m mrs1) (loc_of_shr_record mrs1)).
  assert (shr_m mrs1 <= r1 <= shr_m mrs1 + 1) as Hr1
    by (split; [apply round_nearest_even_ge|apply round_nearest_even_le]).
  assert (0 < 2 ^ (e1 + 149)) as Hp1 by (apply Z.pow_pos_nonneg; lia).
  assert (r1 * 2 ^ (e1 + 149) <= F32.units my ey) as Hle1 by nia.
  destruct r1 as [|q|q] eqn:Hq; [| |lia].
  { pose proof (shr_fexp_spec 0 e1 loc_Exact ltac:(lia)) as [Hm0 _].
    destruct (shr_fexp F32.prec F32.emax 0 e1 loc_Exact) as [mrs2 e2].
    cbn [fst snd] in *.
    assert (shr_m mrs2 = 0) as ->
      by (rewrite Hm0; destruct (0 <? _); [apply Zdiv_0_l|done]).
    unfold F32.le, F32.leb, F32.value; cbn [cond_Zopp]; apply Z.leb_le; lia. }
  pose proof (shr_fexp_step (Z.pos q) e1 loc_Exact ltac:(lia)) as (H2 & He2 & _).
  pose proof (shr_fexp_below q e1 loc_Exact my ey false He1 Hx1 Hfy) as [Hx2 Hb2].
  { cbn [Z.b2z]. by rewrite Z.add_0_r. }
  destruct (shr_fexp F32.prec F32.emax (Z.pos q) e1 loc_Exact) as [mrs2 e2].
  cbn [fst snd Z.b2z] in *. rewrite Z.add_0_r in Hb2.
  destruct (shr_m mrs2) as [|p|p]; [| |lia].
  { unfold F32.le, F32.leb, F32.value; cbn [cond_Zopp]; apply Z.leb_le; lia. }
  rewrite (proj2 (Z.leb_le e2 _)) by (unfold F32.emax, F32.prec; lia).
  unfold F32.le, F32.leb, F32.value. cbn [cond_Zopp]. apply Z.leb_le.
  by rewrite (units_eq p e2).
Qed.


Lemma within_positiveFinite lo hi x : F32.within lo hi x -> F32.positiveFinite x.
Proof. destruct x as [| | |[] m e]; try done. by intros [? _]. Qed.

(** The exponent and the digits of a number between two powers. *)
Lemma within_exponent a b m e :
  0 <= a -> 0 <= b ->
  F32.within (2 ^ a) (2 ^ b) (S754_finite false m e) ->
  a - 149 < Z.pos (digits2_pos m) + e <= b + 1 - 149 /\
  Z.pos (digits2_pos m) <= 24 /\ -149 <= e.
Proof.
  intros Ha Hb [[He Hf] [Hlo Hhi]]. unfold F32.emin in He.
  rewrite units_eq in *. rewrite fexp32_eq in Hf.
  pose proof (digits2_pos_bounds m) as [Hdlo Hdhi].
  set (d := Z.pos (digits2_pos m)) in *.
  assert (1 <= d) by (unfold d; lia).
  assert (0 < 2 ^ (e + 149)) by (apply Z.pow_pos_nonneg; lia).
  assert (2 ^ a < 2 ^ (d + (e + 149))) as H1.
  { rewrite (Z.pow_add_r 2 d) by lia.
    assert (Z.pos m * 2 ^ (e + 149) < 2 ^ d * 2 ^ (e + 149))
      by (apply Z.mul_lt_mono_pos_r; lia). lia. }
  assert (2 ^ (d - 1 + (e + 149)) < 2 ^ (b + 1)) as H2.
  { rewrite (Z.pow_add_r 2 (d - 1)), (Z.pow_add_r 2 b 1) by lia.
    change (2 ^ 1) with 2.
    assert (2 ^ (d - 1) * 2 ^ (e + 149) <= Z.pos m * 2 ^ (e + 149))
      by (apply Z.mul_le_mono_nonneg_r; lia).
    assert (0 < 2 ^ b) by (apply Z.pow_pos_nonneg; lia). lia. }
  apply Z.pow_lt_mono_r_iff in H1; [|lia..].
  apply Z.pow_lt_mono_r_iff in H2; [|lia..].
  lia.
Qed.

Lemma within_intro r mx ex my ey :
  -149 <= ex ->
  F32.fits r ->
  F32.le (S754_finite false mx ex) r ->
  F32.le r (S754_finite false my ey) ->
  F32.within (F32.units mx ex) (F32.units my ey) r.
Proof.
  intros Hex Hfit Hlo Hhi. pose proof (units_pos mx ex Hex).
  destruct r as [[]|[]| |[] m e]; try done.
  - unfold F32.le, F32.leb, F32.value in Hlo. cbn [cond_Zopp] in Hlo.
    apply Z.leb_le in Hlo. lia.
  - unfold F32.le, F32.leb, F32.value in *. cbn [cond_Zopp] in *.
    apply Z.leb_le in Hlo, Hhi. done.
Qed.

(** Rounding between two numbers of the format. *)
Lemma binary_round_aux_within (m : positive) e l mx ex my ey :
  -149 <= e -> e <= ey -> ey <= 104 ->
  -149 <= ex -> fexp32 (Z.pos (digits2_pos mx) + ex) <= ex ->
  fexp32 (Z.pos (digits2_pos my) + ey) <= ey ->
  F32.units mx ex <= Z.pos m * 2 ^ (e + 149) ->
  (Z.pos m + 1) * 2 ^ (e + 149) <= F32.units my ey ->
  F32.within (F32.units mx ex) (F32.units my ey)
    (binary_round_aux F32.prec F32.emax false (Z.pos m) e l).
Proof.
  intros. apply within_intro; [done| | |].
  - by apply binary_round_aux_fits.
  - by apply binary_round_aux_above.
  - by apply binary_round_aux_below.
Qed.

(** The conversion of a positive [int] is a number between 1 and
    2^63. *)
Lemma of_int_within t :
  1 <= t < 2 ^ 63 -> F32.within (2 ^ 149) (2 ^ 212) (F32.of_int t).
Proof.
  intros Ht. destruct t as [|p|p]; try lia.
  unfold F32.of_int, binary_normalize, binary_round.
  set (target := fexp32 (Z.pos (digits2_pos p) + 0)).
  pose proof (shl_align_units p 0 target
                ltac:(unfold target; rewrite fexp32_eq; lia)) as Hu.
  pose proof (shl_align_spec p 0 target) as [He _].
  destruct (shl_align p 0 target) as [mz ez]. cbn [fst snd] in *.
  assert (-149 <= ez <= 0)
    by (unfold target in He; rewrite fexp32_eq in He; lia).
  assert (0 < 2 ^ (ez + 149)) by (apply Z.pow_pos_nonneg; lia).
  assert (2 ^ (ez + 149) <= 2 ^ 149) by (apply Z.pow_le_mono_r; lia).
  change (2 ^ 149) with (F32.units 1 0).
  change (2 ^ 212) with (F32.units 1 63).
  apply binary_round_aux_within; try done; try lia.
  - rewrite Hu. change (F32.units 1 0) with (2 ^ 149).
    change (2 ^ (0 + 149)) with (2 ^ 149). lia.
  - rewrite Z.mul_add_distr_r, Hu.
    change (F32.units 1 63) with (2 ^ 63 * 2 ^ 149).
    change (2 ^ (0 + 149)) with (2 ^ 149) in *. nia.
Qed.


(** 1000 divided by a number between 1 and 2^63. *)
Lemma div_c1000_within r :
  F32.within (2 ^ 149) (2 ^ 212) r ->
  F32.within (2 ^ 71) (2 ^ 160) (F32.div F32.c1000 r).
Proof.
  destruct r as [| | |[] m2 e2]; try done. intros Hr.
  destruct (within_exponent 149 212 m2 e2 ltac:(lia) ltac:(lia) Hr)
    as (Hde & Hd & He).
  pose proof (digits2_pos_bounds m2) as [Hdlo Hdhi].
  unfold F32.div, SFdiv, F32.c1000. cbn [xorb].
  unfold SFdiv_core_binary. cbv zeta. cbn [Zdigits2].
  change (Z.pos (digits2_pos 16384000)) with 24.
  assert (Z.min (fexp32 (24 + -14 - (Z.pos (digits2_pos m2) + e2))) (-14 - e2)
          = -14 - (Z.pos (digits2_pos m2) + e2)) as ->
    by (rewrite fexp32_eq; lia).
  replace (-14 - e2 - (-14 - (Z.pos (digits2_pos m2) + e2)))
    with (Z.pos (digits2_pos m2)) by lia.
  cbv iota. rewrite Z.shiftl_mul_pow2 by lia.
  set (d2 := Z.pos (digits2_pos m2)) in *.
  assert (2 ^ d2 = 2 * 2 ^ (d2 - 1)) as Hpow
    by (rewrite <- Z.pow_succ_r by lia; f_equal; lia).
  pose proof (Z_div_mod (16384000 * 2 ^ d2) (Z.pos m2) ltac:(lia)) as Hdm.
  destruct (Z.div_eucl (16384000 * 2 ^ d2) (Z.pos m2)) as [q rm].
  destruct Hdm as [Hdm Hrm].
  assert (16384000 <= q <= 32768000) as Hq by nia.
  destruct q as [|q|q]; try lia.
  set (e' := -14 - (d2 + e2)).
  assert (-78 <= e' <= -15) by (unfold e'; lia).
  assert (2 ^ 71 <= 2 ^ (e' + 149)) by (apply Z.pow_le_mono_r; lia).
  assert (2 ^ (e' + 149) <= 2 ^ 134) by (apply Z.pow_le_mono_r; lia).
  change (2 ^ 71) with (F32.units 1 (-78)) at 1.
  change (2 ^ 160) with (F32.units 1 11).
  apply binary_round_aux_within; try done; try lia.
  - change (F32.units 1 (-78)) with (2 ^ 71). nia.
  - change (F32.units 1 11) with (67108864 * 2 ^ 134).
    apply Z.mul_le_mono_nonneg; lia.
Qed.

(** A number between 2^-78 and 2^11 multiplied by 100. *)
Lemma mul_c100_within a :
  F32.within (2 ^ 71) (2 ^ 160) a ->
  F32.within (2 ^ 77) (2 ^ 167) (F32.mul a F32.c100).
Proof.
  destruct a as [| | |[] ma ea]; try done. intros Ha.
  destruct (within_exponent 71 160 ma ea ltac:(lia) ltac:(lia) Ha)
    as (Hde & Hd & He).
  destruct Ha as [_ [Hlo Hhi]]. rewrite units_eq in *.
  unfold F32.mul, SFmul, F32.c100. cbn [xorb].
  assert (-101 <= ea <= 11) as Hea.
  { split; [lia|]. assert (0 < 2 ^ (ea + 149)) by (apply Z.pow_pos_nonneg; lia).
    assert (2 ^ (ea + 149) < 2 ^ 161) as Hp
      by (change (2 ^ 161) with (2 * 2 ^ 160); nia).
    apply Z.pow_lt_mono_r_iff in Hp; lia. }
  assert (Z.pos (ma * 13107200) * 2 ^ (ea + -17 + 149)
          = 100 * (Z.pos ma * 2 ^ (ea + 149))) as Hval.
  { rewrite Pos2Z.inj_mul.
    replace (ea + 149) with (17 + (ea + -17 + 149)) by lia.
    rewrite (Z.pow_add_r 2 17) by lia. change (2 ^ 17) with 131072. lia. }
  assert (0 < 2 ^ (ea + -17 + 149)) by (apply Z.pow_pos_nonneg; lia).
  assert (2 ^ (ea + -17 + 149) <= 2 ^ 143) by (apply Z.pow_le_mono_r; lia).
  change (2 ^ 77) with (F32.units 1 (-72)) at 1.
  change (2 ^ 167) with (F32.units 1 18).
  apply binary_round_aux_within; try done; try lia.
  - rewrite Hval. change (F32.units 1 (-72)) with (64 * 2 ^ 71). lia.
  - rewrite Z.mul_add_distr_r, Hval.
    change (F32.units 1 18) with (128 * 2 ^ 160).
    change (2 ^ 143) with (2 ^ 143) in *.
    assert (2 ^ 143 <= 2 ^ 160) by (apply Z.pow_le_mono_r; lia). lia.
Qed.

(** The step of a positive total is a positive finite number. *)
Lemma stepOf_positiveFinite totalMs :
  1 <= totalMs < 2 ^ 63 -> F32.positiveFinite (stepOf totalMs).
Proof.
  intros Ht. unfold stepOf.
  eapply within_positiveFinite, mul_c100_within, div_c1000_within.
  by apply of_int_within.
Qed.

End RoundingFacts.

(** ** The order of the stages *)

Lemma step_fits step : F32.positiveFinite step -> F32.fits step.
Proof. by destruct step as [| | |[] m e]. Qed.

Lemma c1000_positiveFinite : F32.positiveFinite F32.c1000.
Proof. split; by vm_compute. Qed.

(** The cursor after a wait that is not negative is not below the
    cursor before it. *)
Lemma advance_fits_le step cur d :
  F32.positiveFinite step -> F32.fits cur -> 0 <= d ->
  F32.fits (advance step cur d) /\ F32.le cur (advance step cur d).
Proof.
  intros Hstep Hcur Hd. unfold advance. apply add_fits_le; [done|].
  apply mul_fits; [|done].
  apply div_fits; [by apply of_int_fits|apply c1000_positiveFinite].
Qed.

Section Walk.

Variable step : float32.
Variable id : string.
Hypothesis step_positive : F32.positiveFinite step.

(** From a cursor [cur] on, the keyframes appended to the list of [id]
    come in pairs; the first stages of the pairs do not go below [cur]
    and do not decrease, and in each pair the second stage is not below
    the first. *)
Lemma pairsOf_ordered tokens : forall cur,
  F32.fits cur ->
  (forall t, t ∈ tokens -> Type_ t = wait -> 0 <= Wait t) ->
  exists ps : list (keyframe * keyframe),
    pairsOf step cur (F32.add cur step) id tokens = flatPairs ps /\
    (forall c0, F32.le c0 cur ->
       Sorted F32.le (c0 :: ((fun p => Stage p.1) <$> ps))) /\
    Forall (fun p => F32.le (Stage p.1) (Stage p.2)) ps.
Proof.
  induction tokens as [|t tokens IH]; intros cur Hcur Hwaits.
  - exists []. split; [done|]. split; [|done].
    intros c0 _. repeat constructor.
  - assert (forall t', t' ∈ tokens -> Type_ t' = wait -> 0 <= Wait t') as Hrest
      by (intros t' ?; apply Hwaits; by right).
    assert (F32.le cur (F32.add cur step)) as Hnext
      by (apply add_fits_le; [done|by apply step_fits]).
    cbn [pairsOf]. destruct (Type_ t) eqn:Ht.
    3: { destruct (advance_fits_le step cur (Wait t)) as [Hfit Hle]; try done.
         { apply Hwaits; [by left|done]. }
         destruct (IH _ Hfit Hrest) as (ps & Hps & Hsorted & Hpairs).
         exists ps. split; [done|]. split; [|done].
         intros c0 Hc0. apply Hsorted. by eapply le_trans. }
    all: destruct (IH _ Hcur Hrest) as (ps & Hps & Hsorted & Hpairs);
      destruct (decide (Id t = id)) as [_|_];
      [ eexists ((_, _) :: ps); unfold pairAt; rewrite Ht, Hps;
        split; [reflexivity|]; split;
        [ intros c0 Hc0; cbn [fmap list_fmap fst Stage];
          apply Sorted_cons;
          [ apply (Hsorted cur); by apply le_refl
          | by apply HdRel_cons ]
        | by apply Forall_cons ]
      | exists ps; by rewrite Hps ].
Qed.

End Walk.

(** What the walk appends for one instruction. *)
Lemma pairsOf_cons step cur next id t tokens :
  pairsOf step cur next id (t :: tokens) =
    if decide (refers id t)
    then pairAt cur next t ++ pairsOf step cur next id tokens
    else
      match Type_ t with
      | wait =>
          pairsOf step (advance step cur (Wait t))
            (F32.add (advance step cur (Wait t)) step) id tokens
      | _ => pairsOf step cur next id tokens
      end.
Proof.
  cbn [pairsOf]. destruct (decide (refers id t)) as [[Hty Hid]|Hno].
  - destruct (Type_ t); [| |done]; by rewrite decide_True.
  - destruct (Type_ t) eqn:Ht; [| |done];
      (rewrite decide_False; [done|]; intros ?; apply Hno;
       split; [by rewrite Ht|done]).
Qed.

(** The pairs of an object are the transitions of the instructions
    that name it, in script order. *)
Lemma pairsOf_transitions step id tokens : forall cur,
  exists ps : list (keyframe * keyframe),
    pairsOf step cur (F32.add cur step) id tokens = flatPairs ps /\
    Forall2 (transitionOf step) (references id tokens) ps.
Proof.
  unfold references.
  induction tokens as [|t tokens IH]; intros cur.
  - exists []. split; [done|]. rewrite filter_nil. constructor.
  - rewrite pairsOf_cons, filter_cons.
    destruct (decide (refers id t)) as [[Hty Hid]|Hno].
    + destruct (IH cur) as (ps & -> & Hps).
      exists ((mkKeyframe cur (startOpacity (Type_ t)),
               mkKeyframe (F32.add cur step) (finalOpacity (Type_ t))) :: ps).
      split; [unfold pairAt; by destruct (Type_ t)|].
      constructor; [done|exact Hps].
    + destruct (Type_ t); apply IH.
Qed.

Lemma flatPairs_inj ps : forall ps', flatPairs ps = flatPairs ps' -> ps = ps'.
Proof.
  induction ps as [|[a b] ps IH]; intros [|[a' b'] ps']; try done.
  cbn [flatPairs fst snd]. intros [= -> -> H]. f_equal. by apply IH.
Qed.

(** The order of the cursor stages, for any positive finite step. *)
Lemma cursor_stages_for_step tokens step id :
  referenced id tokens ->
  F32.positiveFinite step ->
  (forall t, t ∈ tokens -> Type_ t = wait -> 0 <= Wait t) ->
  exists (kfs : keyframeMap) (ps : list (keyframe * keyframe)),
    calculateKeyframes tokens step = Go.Returned kfs /\
    kfs !! id = Some (closeList (seedKeyframe :: flatPairs ps)) /\
    Forall2 (transitionOf step) (references id tokens) ps /\
    Sorted F32.le (Stage seedKeyframe :: ((fun p => Stage p.1) <$> ps)) /\
    Forall (fun p => F32.le (Stage p.1) (Stage p.2)) ps.
Proof.
  intros Href Hstep Hwaits.
  destruct (calculateKeyframes_returns tokens step) as (kfs & Hret & Hlook).
  specialize (Hlook id). rewrite decide_True in Hlook by done.
  destruct (pairsOf_ordered step id Hstep tokens F32.zero I Hwaits)
    as (ps & Hps & Hsorted & Hpairs).
  destruct (pairsOf_transitions step id tokens F32.zero) as (ps' & Hps' & Htr).
  rewrite Hps in Hps'. apply flatPairs_inj in Hps' as <-.
  exists kfs, ps. rewrite Hps in Hlook.
  split; [done|]. split; [done|]. split; [done|]. split; [|done].
  by apply Hsorted.
Qed.

(** C4, as the code has it: for every instruction sequence whose waits
    are not negative and whose total duration is positive, compiled
    with the step [calculateStep] returns, the list of every referenced
    object is the seed, then one pair of keyframes per show or hide of
    the object, in script order, then the closing keyframe; the pair
    of an instruction starts at the cursor and ends one step later;
    the stages of the seed and of the first keyframes of the pairs
    (the cursor at each show or hide) are non-decreasing in emission
    order, and the second stage of a pair is not below its first. *)
Theorem cursor_stages_nondecreasing tokens id :
  referenced id tokens ->
  (forall t, t ∈ tokens -> Type_ t = wait -> 0 <= Wait t) ->
  0 < (calculateStep tokens).2 ->
  exists (kfs : keyframeMap) (ps : list (keyframe * keyframe)),
    calculateKeyframes tokens (calculateStep tokens).1 = Go.Returned kfs /\
    kfs !! id = Some (closeList (seedKeyframe :: flatPairs ps)) /\
    Forall2 (transitionOf (calculateStep tokens).1) (references id tokens) ps /\
    Sorted F32.le (Stage seedKeyframe :: ((fun p => Stage p.1) <$> ps)) /\
    Forall (fun p => F32.le (Stage p.1) (Stage p.2)) ps.
Proof.
  intros Href Hwaits Htotal. apply cursor_stages_for_step; [done| |done].
  unfold calculateStep in *. cbn [fst snd] in *.
  apply stepOf_positiveFinite.
  pose proof (totalMsOf_is_int tokens) as Hint.
  unfold Go.is_int, Go.minInt, Go.maxInt in Hint. lia.
Qed.

Lemma cursor_stages_nondecreasing_witness :
  exists (kfs : keyframeMap) (ps : list (keyframe * keyframe)),
    calculateKeyframes script5 (calculateStep script5).1 = Go.Returned kfs /\
    kfs !! "cell1"%string = Some (closeList (seedKeyframe :: flatPairs ps)) /\
    Forall2 (transitionOf (calculateStep script5).1)
      (references "cell1" script5) ps /\
    Sorted F32.le (Stage seedKeyframe :: ((fun p => Stage p.1) <$> ps)) /\
    Forall (fun p => F32.le (Stage p.1) (Stage p.2)) ps.
Proof.
  apply (cursor_stages_nondecreasing script5 "cell1").
  - apply Exists_cons. left. split; [discriminate|reflexivity].
  - intros t Ht Hty. unfold script5 in Ht.
    repeat (apply elem_of_cons in Ht as [->|Ht]; [simpl; try lia; discriminate Hty|]).
    by apply elem_of_nil in Ht.
  - reflexivity.
Defined.

(** C4 fails as stated: in the list of [cell1] for the three-line
    script the stage 200 of the hide is followed by the closing
    stage 100. *)
Lemma stages_decrease_script5 :
  exists kfs : keyframeMap,
    calculateKeyframes script5 (calculateStep script5).1 = Go.Returned kfs /\
    kfs !! "cell1"%string = Some computed5 /\
    ~ nondecreasing computed5.
Proof.
  eexists. split; [vm_compute; reflexivity|]. split; [by vm_compute|].
  unfold nondecreasing. intros H. simpl in H.
  do 4 (apply Sorted_inv in H as [H _]).
  apply Sorted_inv in H as [_ H]. apply HdRel_inv in H.
  by vm_compute in H.
Qed.

(** * Further properties of the program *)

(** ** Fields of a line *)

Lemma splitFrom_field (a : string) : forall field rest : string,
  ~ hasSpace a ->
  strings.splitFrom " " 0 field (a +:+ " " +:+ rest) =
    (field +:+ a) :: strings.splitFrom " " 0 "" rest.
Proof.
  unfold hasSpace.
  induction a as [|c a IH]; intros field rest Hno.
  - change (""%string +:+ " " +:+ rest) with (String space rest).
    cbn [strings.splitFrom]. rewrite prefix_space, bool_decide_eq_true_2 by done.
    by rewrite string_app_nil_r.
  - rewrite string_app_cons. cbn [strings.splitFrom]. rewrite prefix_space.
    rewrite bool_decide_eq_false_2
      by (intros ->; apply Hno; simpl; apply list_elem_of_here).
    rewrite IH by (intros ?; apply Hno; simpl; by apply list_elem_of_further).
    by rewrite string_app_assoc.
Qed.

Lemma Split_two kw id :
  ~ hasSpace kw -> ~ hasSpace id ->
  strings.Split (kw +:+ " " +:+ id) " " = [kw; id].
Proof.
  intros Hkw Hid. unfold strings.Split.
  by rewrite splitFrom_field, splitFrom_no_space.
Qed.

Lemma Split_more kw id tail :
  ~ hasSpace kw -> ~ hasSpace id ->
  strings.Split (kw +:+ " " +:+ id +:+ " " +:+ tail) " " =
    kw :: id :: strings.Split tail " ".
Proof.
  intros Hkw Hid. unfold strings.Split.
  by rewrite !splitFrom_field.
Qed.

Lemma index_second {A} (a b : A) l : index (a :: b :: l) 1 = Go.Returned b.
Proof.
  unfold index. rewrite (proj2 (Z.ltb_lt 1 _)); [done|]. simpl length. lia.
Qed.

(** X1: [parseShow] and [parseHide] take as object id the text between
    the first and the second space of the line, which may be empty;
    what follows a second space is ignored. *)
Theorem parse_id_is_second_field kw id tail :
  ~ hasSpace kw -> ~ hasSpace id ->
  parseShow (kw +:+ " " +:+ id) = Go.Returned (mkToken show id defaultWait) /\
  parseShow (kw +:+ " " +:+ id +:+ " " +:+ tail)
    = Go.Returned (mkToken show id defaultWait) /\
  parseHide (kw +:+ " " +:+ id) = Go.Returned (mkToken hide id defaultWait) /\
  parseHide (kw +:+ " " +:+ id +:+ " " +:+ tail)
    = Go.Returned (mkToken hide id defaultWait).
Proof.
  intros Hkw Hid. unfold parseShow, parseHide.
  by rewrite Split_two, Split_more, !index_second.
Qed.

Lemma parse_id_is_second_field_witness :
  parseShow "show cell1" = Go.Returned (mkToken show "cell1" defaultWait) /\
  parseShow "show cell1 now" = Go.Returned (mkToken show "cell1" defaultWait) /\
  parseHide "show cell1" = Go.Returned (mkToken hide "cell1" defaultWait) /\
  parseHide "show cell1 now" = Go.Returned (mkToken hide "cell1" defaultWait).
Proof.
  apply (parse_id_is_second_field "show" "cell1" "now");
    unfold hasSpace; simpl; intros H;
    repeat (apply elem_of_cons in H as [H|H]; [discriminate H|]);
    by apply elem_of_nil in H.
Defined.

Lemma keyword_no_space ty : ~ hasSpace (keyword ty).
Proof.
  unfold hasSpace. destruct ty; simpl; intros H;
    repeat (apply elem_of_cons in H as [H|H]; [discriminate H|]);
    by apply elem_of_nil in H.
Qed.

(** ** Decimal numerals *)

Lemma digit_pretty_N_char k :
  (k < 10)%N -> strconv.digit (pretty_N_char k) = Some (Z.of_N k).
Proof.
  intros Hk.
  assert (k = 0 \/ k = 1 \/ k = 2 \/ k = 3 \/ k = 4 \/ k = 5 \/ k = 6 \/
          k = 7 \/ k = 8 \/ k = 9)%N as Hcases by lia.
  by repeat (destruct Hcases as [->|Hcases]; [reflexivity|]); subst.
Qed.

(** The digit loop reads back the digits [pretty] writes. *)
Lemma parseDigits_pretty_N_go x : forall s : string,
  Z.of_N x <= strconv.maxUint64 ->
  strconv.parseDigits 0 (pretty_N_go x s) = strconv.parseDigits (Z.of_N x) s.
Proof.
  induction (N.lt_wf_0 x) as [x _ IH]; intros s Hx.
  destruct (decide (x = 0%N)) as [->|Hpos]; [done|].
  rewrite pretty_N_go_step by lia.
  rewrite IH; [|apply N.div_lt; lia|].
  2: { pose proof (N.Div0.div_le_upper_bound x 10 x). 
       assert (x `div` 10 <= x)%N by (apply N.Div0.div_le_upper_bound; lia). lia. }
  cbn [strconv.parseDigits].
  rewrite digit_pretty_N_char by (apply N.mod_lt; lia).
  pose proof (N.div_mod x 10 ltac:(lia)) as Hdm.
  pose proof (N.mod_lt x 10 ltac:(lia)) as Hmod.
  apply (f_equal Z.of_N) in Hdm. rewrite N2Z.inj_add, N2Z.inj_mul in Hdm.
  apply N2Z.inj_lt in Hmod.
  pose proof (N2Z.is_nonneg (x `div` 10)).
  pose proof (N2Z.is_nonneg (x `mod` 10)).
  change (Z.of_N 10) with 10 in *.
  set (q := Z.of_N (x `div` 10)) in *. set (r := Z.of_N (x `mod` 10)) in *.
  unfold strconv.maxUint64 in *.
  change ((2 ^ 64 - 1) / 10 + 1) with 1844674407370955162.
  change (2 ^ 64 - 1) with 18446744073709551615 in *.
  rewrite (proj2 (Z.leb_gt _ _)) by lia.
  rewrite (proj2 (Z.ltb_ge _ _)) by lia.
  f_equal. lia.
Qed.

Lemma pretty_N_go_head x : forall s : string,
  (0 < x)%N ->
  exists c r, pretty_N_go x s = String c r /\ is_Some (strconv.digit c).
Proof.
  induction (N.lt_wf_0 x) as [x _ IH]; intros s Hx.
  rewrite pretty_N_go_step by done.
  destruct (decide (x `div` 10 = 0)%N) as [->|Hpos].
  - eexists _, _. split; [done|].
    rewrite digit_pretty_N_char by (apply N.mod_lt; lia). done.
  - apply IH; [apply N.div_lt; [done|reflexivity]|by apply N.neq_0_lt_0].
Qed.

Lemma digit_not_sign c :
  is_Some (strconv.digit c) -> Ascii.eqb c "+" = false /\ Ascii.eqb c "-" = false.
Proof.
  intros [d Hd]. split.
  - destruct (Ascii.eqb_spec c "+") as [->|]; [done|done].
  - destruct (Ascii.eqb_spec c "-") as [->|]; [done|done].
Qed.

Lemma ParseUint_pretty (p : positive) :
  Z.pos p <= strconv.maxUint64 ->
  exists c r, pretty (N.pos p) = String c r /\ is_Some (strconv.digit c) /\
    strconv.ParseUint (String c r) = (Z.pos p, None).
Proof.
  intros Hp. unfold pretty, pretty_N. rewrite decide_False by done.
  destruct (pretty_N_go_head (N.pos p) "" ltac:(lia)) as (c & r & Hcr & Hc).
  exists c, r. split; [done|]. split; [done|].
  unfold strconv.ParseUint. rewrite <- Hcr.
  by rewrite parseDigits_pretty_N_go.
Qed.

(** [Atoi] reads back what the decimal printer writes for an [int]. *)
Lemma Atoi_pretty d : Go.is_int d -> strconv.Atoi (pretty d) = (d, None).
Proof.
  unfold Go.is_int, Go.minInt, Go.maxInt. intros Hd.
  unfold strconv.Atoi. destruct d as [|p|p].
  - reflexivity.
  - destruct (ParseUint_pretty p) as (c & r & Hcr & Hc & Hu).
    { unfold strconv.maxUint64. lia. }
    change (pretty (Z.pos p)) with (pretty (N.pos p)). rewrite Hcr.
    destruct (digit_not_sign c Hc) as [Hplus Hminus].
    unfold strconv.ParseInt. rewrite Hplus, Hminus. cbn [orb].
    rewrite Hu. cbn [negb andb].
    by rewrite (proj2 (Z.leb_gt _ _)) by lia.
  - destruct (ParseUint_pretty p) as (c & r & Hcr & Hc & Hu).
    { unfold strconv.maxUint64. lia. }
    change (pretty (Z.neg p)) with (String "-" (pretty (N.pos p))).
    rewrite Hcr. unfold strconv.ParseInt.
    change (Ascii.eqb "-" "-") with true. change (Ascii.eqb "-" "+") with false.
    cbn [orb]. rewrite Hu. cbn [negb andb].
    by rewrite (proj2 (Z.ltb_ge _ _)) by lia.
Qed.

Lemma parseDigits_range (s : string) : forall n v,
  strconv.parseDigits n s = (v, Some strconv.ErrRange) -> v = strconv.maxUint64.
Proof.
  induction s as [|c s IH]; intros n v; cbn [strconv.parseDigits]; [done|].
  destruct (strconv.digit c); [|done].
  repeat case_match; try (by intros [= <-]). apply IH.
Qed.

Lemma digit_space : strconv.digit space = None.
Proof. reflexivity. Qed.

Lemma parseDigits_no_space (s : string) : forall n v,
  strconv.parseDigits n s = (v, None) -> ~ hasSpace s.
Proof.
  unfold hasSpace.
  induction s as [|c s IH]; intros n v; cbn [strconv.parseDigits].
  - intros _ H. by apply elem_of_nil in H.
  - destruct (strconv.digit c) as [d|] eqn:Hd; [|done].
    repeat case_match; try done. intros Hrec Hsp. simpl in Hsp.
    apply elem_of_cons in Hsp as [<-|Hsp]; [by rewrite digit_space in Hd|].
    by eapply IH.
Qed.

(** A field [Atoi] accepts has no space. *)
Lemma Atoi_no_space s v : strconv.Atoi s = (v, None) -> ~ hasSpace s.
Proof.
  unfold strconv.Atoi. destruct (strconv.ParseInt s) as [n [k|]] eqn:Hp; [done|].
  intros _. unfold strconv.ParseInt in Hp. destruct s as [|c s]; [done|].
  set (body := if Ascii.eqb c "+" || Ascii.eqb c "-" then s else String c s) in *.
  assert (~ hasSpace body) as Hbody.
  { unfold strconv.ParseUint in Hp. destruct body as [|b body'] eqn:Hb.
    - intros H. by apply elem_of_nil in H.
    - destruct (strconv.parseDigits 0 (String b body')) as [un [[]|]] eqn:Hpd.
      + done.
      + apply parseDigits_range in Hpd as ->. unfold strconv.maxUint64 in Hp.
        by destruct (Ascii.eqb c "-").
      + by eapply parseDigits_no_space. }
  unfold body in Hbody.
  destruct (Ascii.eqb c "+" || Ascii.eqb c "-") eqn:Hsign; [|done].
  unfold hasSpace in *. simpl. intros H.
  apply elem_of_cons in H as [<-|H]; [done|by apply Hbody].
Qed.

Lemma bind_mret {A B} (x : A) (k : A -> run B) : (mret x ≫= k) = k x.
Proof. apply (bind_lift_returned x k). Qed.

(** A line [wait d], with [d] an [int] in decimal, parses without any
    error message to the wait instruction of duration [d]. *)
Lemma parseWait_pretty d :
  Go.is_int d ->
  parseWait ("wait " +:+ pretty d) = mkRun [] (Go.Returned (mkToken wait "" d)).
Proof.
  intros Hd. pose proof (Atoi_pretty d Hd) as Hatoi.
  unfold parseWait.
  change ("wait " +:+ pretty d) with ("wait" +:+ " " +:+ pretty d).
  rewrite (Split_two "wait" (pretty d)), index_second.
  - rewrite bind_lift_returned, Hatoi. by rewrite bind_mret.
  - apply (keyword_no_space wait).
  - by eapply Atoi_no_space.
Qed.

(** X2: [parseWait] reads the duration from the second field of the
    line: for every [int] [d] in decimal it returns the wait
    instruction of duration [d] without an error message, whether the
    line ends after the number or goes on after another space. *)
Theorem parseWait_decimal d tail :
  Go.is_int d ->
  parseWait ("wait " +:+ pretty d) = mkRun [] (Go.Returned (mkToken wait "" d)) /\
  parseWait ("wait " +:+ pretty d +:+ " " +:+ tail)
    = mkRun [] (Go.Returned (mkToken wait "" d)).
Proof.
  intros Hd. split; [by apply parseWait_pretty|].
  pose proof (Atoi_pretty d Hd) as Hatoi.
  unfold parseWait.
  change ("wait " +:+ pretty d +:+ " " +:+ tail)
    with ("wait" +:+ " " +:+ pretty d +:+ " " +:+ tail).
  rewrite (Split_more "wait" (pretty d)), index_second.
  - rewrite bind_lift_returned, Hatoi. by rewrite bind_mret.
  - apply (keyword_no_space wait).
  - by eapply Atoi_no_space.
Qed.

Lemma parseWait_decimal_witness :
  parseWait ("wait " +:+ pretty (-250)) =
    mkRun [] (Go.Returned (mkToken wait "" (-250))) /\
  parseWait ("wait " +:+ pretty (-250) +:+ " " +:+ "ms") =
    mkRun [] (Go.Returned (mkToken wait "" (-250))).
Proof. apply (parseWait_decimal (-250) "ms"). vm_compute. split; discriminate. Defined.

(** ** The tokenizer loop *)

Lemma bind_ext {A B} (m : run A) (k1 k2 : A -> run B) :
  (forall a, k1 a = k2 a) -> (m ≫= k1) = (m ≫= k2).
Proof.
  intros H. unfold mbind, run_bind. destruct (outcome m); [|done]. by rewrite H.
Qed.

Lemma outcome_bind {A B} (m : run A) (k : A -> run B) :
  outcome (m ≫= k) =
    match outcome m with
    | Go.Returned a => outcome (k a)
    | Go.Panicked p => Go.Panicked p
    end.
Proof. unfold mbind, run_bind. by destruct (outcome m). Qed.

Lemma outputs_bind {A B} (m : run A) (k : A -> run B) :
  outputs (m ≫= k) =
    match outcome m with
    | Go.Returned a => outputs m ++ outputs (k a)
    | Go.Panicked p => outputs m
    end.
Proof. unfold mbind, run_bind. by destruct (outcome m). Qed.

Lemma prefix_show_exclusive line :
  strings.HasPrefix line "show" = true ->
  strings.HasPrefix line "hide" = false /\
  strings.HasPrefix line "wait" = false.
Proof.
  unfold strings.HasPrefix. intros H.
  destruct (prefix_app _ _ H) as [post ->]. done.
Qed.

Lemma prefix_hide_exclusive line :
  strings.HasPrefix line "hide" = true ->
  strings.HasPrefix line "show" = false /\
  strings.HasPrefix line "wait" = false.
Proof.
  unfold strings.HasPrefix. intros H.
  destruct (prefix_app _ _ H) as [post ->]. done.
Qed.

(** The three tests of the loop body exclude each other: a line takes
    one branch at most. *)
Lemma tokenizeLine_cases tokens line :
  tokenizeLine tokens line =
    if strings.HasPrefix line "show"
    then (t ← lift (parseShow line); mret (tokens ++ [t]))
    else if strings.HasPrefix line "hide"
    then (t ← lift (parseHide line); mret (tokens ++ [t]))
    else if strings.HasPrefix line "wait"
    then (t ← parseWait line; mret (tokens ++ [t]))
    else mret tokens.
Proof.
  unfold tokenizeLine.
  destruct (strings.HasPrefix line "show") eqn:Hshow.
  { destruct (prefix_show_exclusive _ Hshow) as [-> ->].
    by destruct (parseShow line). }
  destruct (strings.HasPrefix line "hide") eqn:Hhide.
  { destruct (prefix_hide_exclusive _ Hhide) as [_ ->].
    by destruct (parseHide line). }
  by rewrite !bind_mret.
Qed.

Lemma tokenizeLine_unrecognized tokens line :
  recognized line = false -> tokenizeLine tokens line = mret tokens.
Proof.
  unfold recognized. intros H.
  apply orb_false_elim in H as [H Hwait]. apply orb_false_elim in H as [Hshow Hhide].
  by rewrite tokenizeLine_cases, Hshow, Hhide, Hwait.
Qed.

(** X3: the tokenizer skips every line that begins with none of the
    three keywords: dropping those lines from the script changes
    neither the instructions nor the messages. *)
Theorem tokenize_skips_unrecognized lines :
  tokenize lines = tokenize (List.filter recognized lines).
Proof.
  unfold tokenize. generalize ([] : list token).
  induction lines as [|line lines IH]; intros tokens; [done|].
  cbn [tokenizeFrom List.filter]. destruct (recognized line) eqn:Hrec.
  - cbn [tokenizeFrom]. apply bind_ext. intros tokens'. apply IH.
  - rewrite tokenizeLine_unrecognized, bind_mret by done. apply IH.
Qed.

Lemma tokenizeLine_render tokens t :
  wellFormed t -> tokenizeLine tokens (render t) = mret (tokens ++ [t]).
Proof.
  destruct t as [ty id w]. unfold wellFormed, render. cbn [Type_ Id Wait].
  rewrite tokenizeLine_cases. destruct ty.
  - intros [Hid ->].
    change ("show " +:+ id) with ("show" +:+ " " +:+ id).
    unfold strings.HasPrefix. rewrite app_prefix.
    unfold parseShow. rewrite (Split_two "show" id), index_second;
      [|apply (keyword_no_space show)|done].
    reflexivity.
  - intros [Hid ->].
    change ("hide " +:+ id) with ("hide" +:+ " " +:+ id).
    unfold strings.HasPrefix.
    change (String.prefix "show" ("hide" +:+ " " +:+ id)) with false.
    rewrite app_prefix.
    unfold parseHide. rewrite (Split_two "hide" id), index_second;
      [|apply (keyword_no_space hide)|done].
    reflexivity.
  - intros [-> Hint].
    change ("wait " +:+ pretty w) with ("wait" +:+ " " +:+ pretty w).
    unfold strings.HasPrefix.
    change (String.prefix "show" ("wait" +:+ " " +:+ pretty w)) with false.
    change (String.prefix "hide" ("wait" +:+ " " +:+ pretty w)) with false.
    rewrite app_prefix.
    change ("wait" +:+ " " +:+ pretty w) with ("wait " +:+ pretty w).
    by rewrite parseWait_pretty.
Qed.

Lemma tokenizeFrom_render ts : forall tokens,
  Forall wellFormed ts ->
  tokenizeFrom tokens (render <$> ts) = mret (tokens ++ ts).
Proof.
  induction ts as [|t ts IH]; intros tokens Hwf.
  - by rewrite app_nil_r.
  - apply Forall_cons in Hwf as [Ht Hts]. cbn [fmap list_fmap tokenizeFrom].
    rewrite tokenizeLine_render, bind_mret by done.
    rewrite (IH _ Hts). by rewrite <- app_assoc.
Qed.

(** X4: every sequence of instructions of the shape the tokenizer
    builds can be written as a script: the tokenizer reads the lines
    [show id], [hide id] and [wait d] back to the same instructions,
    without a message. *)
Theorem tokenize_render tokens :
  Forall wellFormed tokens ->
  tokenize (render <$> tokens) = mkRun [] (Go.Returned tokens).
Proof. intros Hwf. by apply (tokenizeFrom_render tokens []). Qed.

Lemma tokenize_render_witness :
  tokenize (render <$> script5) = mkRun [] (Go.Returned script5).
Proof.
  apply tokenize_render. unfold script5.
  repeat apply Forall_cons_2; try apply Forall_nil_2.
  - split; [|reflexivity]. unfold hasSpace. simpl. intros H.
    repeat (apply elem_of_cons in H as [H|H]; [discriminate H|]).
    by apply elem_of_nil in H.
  - split; [reflexivity|]. vm_compute. split; discriminate.
  - split; [|reflexivity]. unfold hasSpace. simpl. intros H.
    repeat (apply elem_of_cons in H as [H|H]; [discriminate H|]).
    by apply elem_of_nil in H.
Defined.

(** ** What the tokenizer builds *)

Lemma list_ascii_app (a b : string) :
  list_ascii_of_string (a +:+ b) =
    (list_ascii_of_string a ++ list_ascii_of_string b)%list.
Proof.
  induction a as [|c a IH]; [done|]. rewrite string_app_cons. simpl. by rewrite IH.
Qed.

(** No field of a line has a space. *)
Lemma splitFrom_fields (s : string) : forall field : string,
  ~ hasSpace field ->
  Forall (fun f => ~ hasSpace f) (strings.splitFrom " " 0 field s).
Proof.
  induction s as [|c s IH]; intros field Hf.
  - by apply Forall_singleton.
  - cbn [strings.splitFrom]. rewrite prefix_space.
    destruct (decide (c = space)) as [->|Hne].
    + rewrite bool_decide_eq_true_2 by done.
      change (String.length " " - 1)%nat with 0%nat.
      apply Forall_cons. split; [done|]. apply IH.
      intros H. by apply elem_of_nil in H.
    + rewrite bool_decide_eq_false_2 by done. apply IH.
      unfold hasSpace in *. rewrite list_ascii_app, elem_of_app.
      intros [?|H]; [done|]. simpl in H.
      apply list_elem_of_singleton in H. congruence.
Qed.

Lemma index_Returned {A} (xs : list A) i x :
  index xs i = Go.Returned x -> x ∈ xs.
Proof.
  unfold index. destruct (_ && _); [|done].
  destruct (xs !! Z.to_nat i) eqn:H; [|done]. intros [= <-].
  by eapply list_elem_of_lookup_2.
Qed.

Lemma second_field_no_space line id :
  index (strings.Split line " ") 1 = Go.Returned id -> ~ hasSpace id.
Proof.
  intros H. apply index_Returned in H.
  pose proof (splitFrom_fields line "") as Hall.
  rewrite Forall_forall in Hall. apply Hall; [|done].
  intros H'. by apply elem_of_nil in H'.
Qed.

Lemma parseDigits_bounds (s : string) : forall n,
  0 <= n <= strconv.maxUint64 ->
  0 <= (strconv.parseDigits n s).1 <= strconv.maxUint64.
Proof.
  induction s as [|c s IH]; intros n Hn; cbn [strconv.parseDigits]; [done|].
  destruct (strconv.digit c) as [d|] eqn:Hd;
    [|simpl; unfold strconv.maxUint64; lia].
  apply digit_range in Hd.
  destruct (strconv.maxUint64 / 10 + 1 <=? n);
    [simpl; unfold strconv.maxUint64; lia|].
  destruct (strconv.maxUint64 <? n * 10 + d) eqn:Hlt;
    [simpl; unfold strconv.maxUint64; lia|].
  apply IH. apply Z.ltb_ge in Hlt. lia.
Qed.

(** Whatever the text, the value [Atoi] returns is an [int]: out of
    range numerals are clipped. *)
Lemma Atoi_is_int s : Go.is_int (strconv.Atoi s).1.
Proof.
  assert (Go.is_int (strconv.ParseInt s).1) as Hp.
  { unfold strconv.ParseInt. destruct s as [|c s]; [by vm_compute|].
    set (body := if Ascii.eqb c "+" || Ascii.eqb c "-" then s else String c s).
    assert (0 <= (strconv.ParseUint body).1 <= strconv.maxUint64) as Hun.
    { unfold strconv.ParseUint. destruct body; [by vm_compute|].
      apply parseDigits_bounds. by vm_compute. }
    unfold Go.is_int, Go.minInt, Go.maxInt.
    destruct (strconv.ParseUint body) as [un [[]|]]; cbn [fst] in Hun;
      [simpl; lia| |];
      destruct (Ascii.eqb c "-"); cbn [negb andb];
      repeat case_match; cbn [fst];
      rewrite ?Z.leb_gt, ?Z.ltb_ge in *; lia. }
  unfold strconv.Atoi. by destruct (strconv.ParseInt s) as [n [k|]].
Qed.

Lemma parseWait_returned line t :
  outcome (parseWait line) = Go.Returned t ->
  Type_ t = wait /\ Id t = ""%string /\ Go.is_int (Wait t).
Proof.
  unfold parseWait.
  destruct (index (strings.Split line " ") 1) as [field|p]; [|done].
  rewrite bind_lift_returned. pose proof (Atoi_is_int field) as Hint.
  destruct (strconv.Atoi field) as [val [e|]]; rewrite outcome_bind;
    simpl; by intros [= <-].
Qed.

Lemma tokenizeLine_returned tokens line tokens' :
  outcome (tokenizeLine tokens line) = Go.Returned tokens' ->
  if recognized line
  then exists t, tokens' = tokens ++ [t] /\ spells t line
  else tokens' = tokens.
Proof.
  rewrite tokenizeLine_cases. unfold recognized, spells.
  destruct (strings.HasPrefix line "show") eqn:Hshow.
  { unfold parseShow.
    destruct (index (strings.Split line " ") 1) as [id|p] eqn:Hid; [|done].
    simpl. intros [= <-]. eexists. split; [done|]. split; [|done].
    split; [|done]. by eapply second_field_no_space. }
  destruct (strings.HasPrefix line "hide") eqn:Hhide.
  { unfold parseHide.
    destruct (index (strings.Split line " ") 1) as [id|p] eqn:Hid; [|done].
    simpl. intros [= <-]. eexists. split; [done|]. split; [|done].
    split; [|done]. by eapply second_field_no_space. }
  destruct (strings.HasPrefix line "wait") eqn:Hwait.
  { rewrite outcome_bind.
    destruct (outcome (parseWait line)) as [t|p] eqn:Ht; [|done].
    simpl. intros [= <-]. exists t. split; [done|].
    apply parseWait_returned in Ht as (Hty & Hid & Hint).
    unfold wellFormed. rewrite Hty. done. }
  simpl. by intros [= <-].
Qed.

Lemma tokenizeFrom_returned lines : forall tokens tokens',
  outcome (tokenizeFrom tokens lines) = Go.Returned tokens' ->
  exists new,
    tokens' = tokens ++ new /\
    Forall2 spells new (List.filter recognized lines).
Proof.
  induction lines as [|line lines IH]; intros tokens tokens'.
  - simpl. intros [= <-]. exists []. by rewrite app_nil_r.
  - cbn [tokenizeFrom List.filter]. rewrite outcome_bind.
    destruct (outcome (tokenizeLine tokens line)) as [mid|p] eqn:Hline; [|done].
    intros H. apply IH in H as (new & -> & Hnew).
    apply tokenizeLine_returned in Hline. destruct (recognized line).
    + destruct Hline as (t & -> & Ht). exists (t :: new).
      split; [by rewrite <- app_assoc|]. by constructor.
    + subst mid. by exists new.
Qed.

(** X5: when the tokenizer returns, its instructions and the lines of
    the script that begin with a keyword correspond one to one, in
    order: the instruction has the type of the keyword of its line; a
    show or hide carries an id without a space and the default wait
    1000; a wait carries the empty id and a duration inside the range
    of [int]. *)
Theorem tokenize_spells lines tokens :
  outcome (tokenize lines) = Go.Returned tokens ->
  Forall2 spells tokens (List.filter recognized lines).
Proof.
  intros H. apply tokenizeFrom_returned in H as (new & -> & Hnew). done.
Qed.

Lemma tokenize_spells_witness :
  Forall2 spells script5 (List.filter recognized lines5).
Proof. apply (tokenize_spells lines5 script5). reflexivity. Defined.

(** ** When the tokenizer panics *)

Lemma parseWait_returns line :
  hasSpace line -> exists t, outcome (parseWait line) = Go.Returned t.
Proof.
  intros H. unfold parseWait.
  destruct (index_one_returns (strings.Split line " ")) as [x ->];
    [by apply splitFrom_space|].
  rewrite bind_lift_returned.
  destruct (strconv.Atoi x) as [v [e|]]; eexists; reflexivity.
Qed.

Lemma tokenizeLine_outcome tokens line :
  match outcome (tokenizeLine tokens line) with
  | Go.Returned _ => ~ bare line
  | Go.Panicked p => p = noSecondField /\ bare line
  end.
Proof.
  rewrite tokenizeLine_cases. unfold bare, recognized.
  destruct (decide (hasSpace line)) as [Hsp|Hno].
  - destruct (proj2 (parseShow_returns_iff line) Hsp) as [ts ->].
    destruct (proj2 (parseHide_returns_iff line) Hsp) as [th ->].
    destruct (parseWait_returns line Hsp) as [tw Hw].
    destruct (strings.HasPrefix line "show"), (strings.HasPrefix line "hide"),
      (strings.HasPrefix line "wait");
      rewrite ?outcome_bind, ?Hw; simpl; by intros [_ ?].
  - unfold parseShow, parseHide, parseWait.
    rewrite Split_no_space, index_one_singleton by done.
    destruct (strings.HasPrefix line "show"), (strings.HasPrefix line "hide"),
      (strings.HasPrefix line "wait"); simpl; try done. by intros [? _].
Qed.

(** X6: the tokenizer fails in one way only: it panics exactly when
    some line begins with a keyword and has no space, and the panic is
    then the index 1 out of range of a slice of length 1.  Every other
    script is tokenized to the end, whatever its lines hold. *)
Theorem tokenize_panics_iff_bare_keyword lines :
  match outcome (tokenize lines) with
  | Go.Returned _ => Forall (fun line => ~ bare line) lines
  | Go.Panicked p => p = Go.IndexOutOfRange 1 1 /\ Exists bare lines
  end.
Proof.
  unfold tokenize. generalize ([] : list token).
  induction lines as [|line lines IH]; intros tokens; [by simpl|].
  cbn [tokenizeFrom]. rewrite outcome_bind.
  pose proof (tokenizeLine_outcome tokens line) as Hline.
  destruct (outcome (tokenizeLine tokens line)) as [mid|p].
  - specialize (IH mid). destruct (outcome (tokenizeFrom mid lines)).
    + by apply Forall_cons.
    + destruct IH as [-> IH]. split; [done|]. by apply Exists_cons_tl.
  - destruct Hline as [-> Hline]. split; [done|]. by apply Exists_cons_hd.
Qed.

(** ** What the step depends on *)

Lemma waitSum_filter tokens : waitSum (List.filter isWait tokens) = waitSum tokens.
Proof.
  induction tokens as [|t tokens IH]; [done|].
  cbn [List.filter]. unfold isWait at 1.
  destruct (Type_ t) eqn:Ht; cbn [waitSum]; rewrite Ht; lia.
Qed.

Lemma waitSum_Permutation tokens tokens' :
  tokens ≡ₚ tokens' -> waitSum tokens = waitSum tokens'.
Proof.
  induction 1 as [|t l l' _ IH|t t' l|l l' l'' _ IH1 _ IH2]; cbn [waitSum].
  - done.
  - by rewrite IH.
  - destruct (Type_ t), (Type_ t'); lia.
  - by rewrite IH1.
Qed.

(** X7: [calculateStep] reads the wait instructions only, and not
    their order: two scripts with the same wait instructions up to
    order have the same step and the same total, also when the sum
    wraps around. *)
Theorem calculateStep_waits_only tokens tokens' :
  List.filter isWait tokens ≡ₚ List.filter isWait tokens' ->
  calculateStep tokens = calculateStep tokens'.
Proof.
  intros H. apply waitSum_Permutation in H. rewrite !waitSum_filter in H.
  unfold calculateStep. by rewrite !totalMsOf_wrap, H.
Qed.

Lemma calculateStep_waits_only_witness :
  calculateStep script5 = calculateStep [mkToken wait "" 1000].
Proof. apply calculateStep_waits_only. reflexivity. Defined.

(** X8: whenever the total [calculateStep] returns is positive, the
    step it returns is a positive finite [float32]: not zero, not an
    infinity and not NaN. *)
Theorem calculateStep_positive_step tokens :
  0 < (calculateStep tokens).2 ->
  F32.positiveFinite (calculateStep tokens).1.
Proof.
  unfold calculateStep. cbn [fst snd]. intros Hpos.
  apply stepOf_positiveFinite.
  pose proof (totalMsOf_is_int tokens) as Hint.
  unfold Go.is_int, Go.minInt, Go.maxInt in Hint. lia.
Qed.

Lemma calculateStep_positive_step_witness :
  F32.positiveFinite (calculateStep script5).1.
Proof. apply calculateStep_positive_step. reflexivity. Defined.

(** ** The map of keyframes *)

(** X9: [calculateKeyframes] returns for every script and every step,
    NaN and the infinities included: the closing loop never meets an
    empty list.  The map it returns has a list for exactly the ids that
    a show or hide instruction names. *)
Theorem calculateKeyframes_domain tokens step :
  exists kfs : keyframeMap,
    calculateKeyframes tokens step = Go.Returned kfs /\
    forall id, is_Some (kfs !! id) <-> referenced id tokens.
Proof.
  destruct (calculateKeyframes_returns tokens step) as (kfs & Hret & Hlook).
  exists kfs. split; [done|]. intros id. rewrite Hlook.
  case_decide; split; try done; by intros [? ?].
Qed.

Lemma referenced_references id tokens :
  referenced id tokens <-> references id tokens <> [].
Proof.
  unfold referenced, references. induction tokens as [|t tokens IH].
  - split; [by intros ?%Exists_nil|done].
  - rewrite Exists_cons, filter_cons. case_decide; [|tauto].
    split; [done|by left].
Qed.

Lemma pairAt_length cur next t :
  Type_ t <> wait -> length (pairAt cur next t) = 2%nat.
Proof. unfold pairAt. by destruct (Type_ t). Qed.

Lemma pairsOf_length step id tokens : forall cur next,
  length (pairsOf step cur next id tokens) =
    (2 * length (references id tokens))%nat.
Proof.
  unfold references.
  induction tokens as [|t tokens IH]; intros cur next; [done|].
  rewrite pairsOf_cons, filter_cons.
  destruct (decide (refers id t)) as [[Hty Hid]|Hno].
  - rewrite length_app, IH, pairAt_length by done. cbn [length]. lia.
  - destruct (Type_ t); apply IH.
Qed.

(** X10: the list of an object has two keyframes for each show or hide
    that names it, one seed keyframe before them and one closing
    keyframe after them. *)
Theorem keyframes_length tokens step id :
  referenced id tokens ->
  exists (kfs : keyframeMap) (l : list keyframe),
    calculateKeyframes tokens step = Go.Returned kfs /\
    kfs !! id = Some l /\
    length l = (2 * length (references id tokens) + 2)%nat.
Proof.
  intros Href.
  destruct (calculateKeyframes_returns tokens step) as (kfs & Hret & Hlook).
  specialize (Hlook id). rewrite decide_True in Hlook by done.
  eexists kfs, _. split; [done|]. split; [exact Hlook|].
  unfold closeList. rewrite length_app. cbn [length].
  rewrite pairsOf_length. lia.
Qed.

Lemma keyframes_length_witness :
  exists (kfs : keyframeMap) (l : list keyframe),
    calculateKeyframes script5 F32.c100 = Go.Returned kfs /\
    kfs !! "cell1"%string = Some l /\
    length l = (2 * length (references "cell1" script5) + 2)%nat.
Proof.
  apply (keyframes_length script5 F32.c100 "cell1").
  apply Exists_cons. left. split; [discriminate|reflexivity].
Defined.

Lemma pairAt_last cur next t :
  Type_ t <> wait ->
  last (pairAt cur next t) = Some (mkKeyframe next (finalOpacity (Type_ t))).
Proof. unfold pairAt. by destruct (Type_ t). Qed.

Lemma pairsOf_last step id tokens : forall cur next,
  match last (references id tokens) with
  | Some t =>
      exists stage,
        last (pairsOf step cur next id tokens) =
          Some (mkKeyframe stage (finalOpacity (Type_ t)))
  | None => pairsOf step cur next id tokens = []
  end.
Proof.
  unfold references.
  induction tokens as [|t tokens IH]; intros cur next; [done|].
  rewrite pairsOf_cons, filter_cons.
  destruct (decide (refers id t)) as [[Hty Hid]|Hno].
  - specialize (IH cur next).
    destruct (filter (refers id) tokens) as [|t' refs] eqn:Hrefs.
    + cbn [last] in *. rewrite IH, app_nil_r, pairAt_last by done. by eexists.
    + rewrite last_cons.
      destruct (last (t' :: refs)) as [tl|] eqn:Hlast;
        [|by apply last_None in Hlast].
      destruct IH as [stage IH]. exists stage. by rewrite last_app, IH.
  - destruct (Type_ t); apply IH.
Qed.

(** X11: the closing keyframe of an object, at stage 100, has the
    opacity the last instruction that names the object leaves it with:
    1 after a show, 0 after a hide. *)
Theorem keyframes_end_in_last_state tokens step id :
  referenced id tokens ->
  exists (kfs : keyframeMap) (l : list keyframe) (t : token),
    calculateKeyframes tokens step = Go.Returned kfs /\
    kfs !! id = Some l /\
    last (references id tokens) = Some t /\
    last l = Some (mkKeyframe F32.c100 (finalOpacity (Type_ t))).
Proof.
  intros Href.
  destruct (calculateKeyframes_returns tokens step) as (kfs & Hret & Hlook).
  specialize (Hlook id). rewrite decide_True in Hlook by done.
  apply referenced_references in Href.
  pose proof (pairsOf_last step id tokens F32.zero (F32.add F32.zero step)) as Hl.
  destruct (last (references id tokens)) as [t|] eqn:Hlast;
    [|by apply last_None in Hlast].
  destruct Hl as [stage Hl].
  eexists kfs, _, t. split; [done|]. split; [exact Hlook|]. split; [done|].
  unfold closeList, closingKeyframe. rewrite last_snoc.
  destruct (pairsOf step F32.zero (F32.add F32.zero step) id tokens)
    as [|kf pairs] eqn:Hpairs; [done|].
  rewrite last_cons, Hl. done.
Qed.

Lemma keyframes_end_in_last_state_witness :
  exists (kfs : keyframeMap) (l : list keyframe) (t : token),
    calculateKeyframes script5 F32.c100 = Go.Returned kfs /\
    kfs !! "cell1"%string = Some l /\
    last (references "cell1" script5) = Some t /\
    last l = Some (mkKeyframe F32.c100 (finalOpacity (Type_ t))).
Proof.
  apply (keyframes_end_in_last_state script5 F32.c100 "cell1").
  apply Exists_cons. left. split; [discriminate|reflexivity].
Defined.

Lemma pairsOf_binary step id tokens : forall cur next,
  Forall binaryOpacity (pairsOf step cur next id tokens).
Proof.
  induction tokens as [|t tokens IH]; intros cur next; [done|].
  cbn [pairsOf]. unfold pairAt.
  destruct (Type_ t); [| |apply IH];
    (destruct (decide (Id t = id)); [|apply IH]);
    repeat apply Forall_cons_2; try apply IH; unfold binaryOpacity; simpl; auto.
Qed.

Lemma closeList_binary v :
  Forall binaryOpacity v -> Forall binaryOpacity (closeList v).
Proof.
  intros Hall. unfold closeList. apply Forall_app. split; [done|].
  apply Forall_singleton. unfold closingKeyframe.
  destruct (last v) as [kf|] eqn:Hlast; [|by left].
  apply last_Some_elem_of in Hlast.
  rewrite Forall_forall in Hall. apply (Hall kf Hlast).
Qed.

(** X12: every keyframe the compiler produces has opacity 0 or 1: an
    object is shown or hidden, never in between. *)
Theorem keyframes_opacity_binary tokens step :
  exists kfs : keyframeMap,
    calculateKeyframes tokens step = Go.Returned kfs /\
    forall id l, kfs !! id = Some l -> Forall binaryOpacity l.
Proof.
  destruct (calculateKeyframes_returns tokens step) as (kfs & Hret & Hlook).
  exists kfs. split; [done|]. intros id l. rewrite Hlook.
  case_decide; [|done]. intros [= <-].
  apply closeList_binary, Forall_cons_2; [by left|apply pairsOf_binary].
Qed.

Lemma pairsOf_concerns step id tokens : forall cur next,
  pairsOf step cur next id (List.filter (concerns id) tokens) =
    pairsOf step cur next id tokens.
Proof.
  induction tokens as [|t tokens IH]; intros cur next; [done|].
  cbn [List.filter pairsOf]. unfold concerns at 1, isWait.
  destruct (Type_ t) eqn:Ht.
  3: { cbn [orb pairsOf]. rewrite Ht. apply IH. }
  all: cbn [orb]; destruct (decide (Id t = id)) as [Hid|Hid];
    [ rewrite bool_decide_eq_true_2 by done; cbn [pairsOf];
      rewrite Ht, decide_True by done; by rewrite IH
    | rewrite bool_decide_eq_false_2 by done; by rewrite IH ].
Qed.

Lemma referenced_concerns id tokens :
  referenced id (List.filter (concerns id) tokens) <-> referenced id tokens.
Proof.
  unfold referenced. induction tokens as [|t tokens IH]; [done|].
  cbn [List.filter]. unfold concerns at 1.
  destruct (decide (refers id t)) as [[Hty Hid]|Hno].
  - rewrite bool_decide_eq_true_2, orb_true_r by done.
    rewrite !Exists_cons. unfold refers at 1 3. tauto.
  - destruct (isWait t || bool_decide (Id t = id)); rewrite !Exists_cons; tauto.
Qed.

Lemma waitSum_concerns id tokens :
  waitSum (List.filter (concerns id) tokens) = waitSum tokens.
Proof.
  induction tokens as [|t tokens IH]; [done|].
  cbn [List.filter]. unfold concerns at 1, isWait.
  destruct (Type_ t) eqn:Ht; cbn [orb waitSum];
    try (destruct (bool_decide (Id t = id)); cbn [waitSum]);
    rewrite ?Ht; lia.
Qed.

(** X13: the objects of a script are animated independently: removing
    the show and hide instructions that name other objects changes
    neither the step and the total nor the keyframes of the object. *)
Theorem keyframes_independent tokens id :
  calculateStep (List.filter (concerns id) tokens) = calculateStep tokens /\
  forall step,
    exists kfs kfs' : keyframeMap,
      calculateKeyframes tokens step = Go.Returned kfs /\
      calculateKeyframes (List.filter (concerns id) tokens) step
        = Go.Returned kfs' /\
      kfs' !! id = kfs !! id.
Proof.
  split.
  - unfold calculateStep. by rewrite !totalMsOf_wrap, waitSum_concerns.
  - intros step.
    destruct (calculateKeyframes_returns tokens step) as (kfs & Hret & Hlook).
    destruct (calculateKeyframes_returns (List.filter (concerns id) tokens) step)
      as (kfs' & Hret' & Hlook').
    exists kfs, kfs'. split; [done|]. split; [done|].
    rewrite Hlook, Hlook', pairsOf_concerns.
    pose proof (referenced_concerns id tokens).
    repeat case_decide; tauto || done.
Qed.

Lemma c100_fits : F32.fits F32.c100.
Proof. by vm_compute. Qed.

Lemma pairsOf_fits step id tokens : forall cur,
  F32.positiveFinite step ->
  F32.fits cur ->
  (forall t, t ∈ tokens -> Type_ t = wait -> 0 <= Wait t) ->
  Forall (fun kf => F32.fits (Stage kf))
    (pairsOf step cur (F32.add cur step) id tokens).
Proof.
  intros cur Hstep. revert cur.
  induction tokens as [|t tokens IH]; intros cur Hcur Hwaits; [done|].
  assert (forall t', t' ∈ tokens -> Type_ t' = wait -> 0 <= Wait t') as Hrest
    by (intros t' ?; apply Hwaits; by right).
  assert (F32.fits (F32.add cur step)) as Hnext
    by (apply add_fits_le; [done|by apply step_fits]).
  cbn [pairsOf]. unfold pairAt. destruct (Type_ t) eqn:Ht.
  3: { destruct (advance_fits_le step cur (Wait t)) as [Hfit _]; try done.
       { apply Hwaits; [by left|done]. }
       by apply IH. }
  all: destruct (decide (Id t = id)); [|by apply IH];
    repeat apply Forall_cons_2; try done; by apply IH.
Qed.

(** X14: when no wait is negative and the total is positive, every
    stage of every keyframe the compiler produces is +0, a positive
    number or +Inf: never NaN and never negative. *)
Theorem keyframes_stages_fit tokens :
  (forall t, t ∈ tokens -> Type_ t = wait -> 0 <= Wait t) ->
  0 < (calculateStep tokens).2 ->
  exists kfs : keyframeMap,
    calculateKeyframes tokens (calculateStep tokens).1 = Go.Returned kfs /\
    forall id l, kfs !! id = Some l ->
      Forall (fun kf => F32.fits (Stage kf)) l.
Proof.
  intros Hwaits Htotal.
  assert (F32.positiveFinite (calculateStep tokens).1) as Hstep.
  { unfold calculateStep in *. cbn [fst snd] in *.
    apply stepOf_positiveFinite.
    pose proof (totalMsOf_is_int tokens) as Hint.
    unfold Go.is_int, Go.minInt, Go.maxInt in Hint. lia. }
  destruct (calculateKeyframes_returns tokens (calculateStep tokens).1)
    as (kfs & Hret & Hlook).
  exists kfs. split; [done|]. intros id l. rewrite Hlook.
  case_decide; [|done]. intros [= <-].
  unfold closeList. apply Forall_app. split.
  - apply Forall_cons_2; [done|]. by apply pairsOf_fits.
  - apply Forall_singleton. apply c100_fits.
Qed.

Lemma keyframes_stages_fit_witness :
  exists kfs : keyframeMap,
    calculateKeyframes script5 (calculateStep script5).1 = Go.Returned kfs /\
    forall id l, kfs !! id = Some l ->
      Forall (fun kf => F32.fits (Stage kf)) l.
Proof.
  apply (keyframes_stages_fit script5).
  - intros t Ht Hty. unfold script5 in Ht.
    repeat (apply elem_of_cons in Ht as [->|Ht]; [simpl; try lia; discriminate Hty|]).
    by apply elem_of_nil in Ht.
  - reflexivity.
Defined.

(** ** Where the style sheet goes *)

Lemma length_string_app (a b : string) :
  String.length (a +:+ b) = (String.length a + String.length b)%nat.
Proof. induction a as [|c a IH]; [done|]. rewrite string_app_cons. simpl. by rewrite IH. Qed.

Lemma len_app (a b : string) :
  strings.len (a +:+ b) = strings.len a + strings.len b.
Proof. unfold strings.len. rewrite length_string_app. lia. Qed.

Lemma string_app_snoc (pre : string) c (x : string) :
  pre +:+ String c x = (pre +:+ String c "") +:+ x.
Proof. by rewrite string_app_assoc. Qed.

Lemma get_app_length (pre : string) c (rest : string) :
  String.get (String.length pre) (pre +:+ String c rest) = Some c.
Proof. induction pre as [|b pre IH]; [done|]. by rewrite string_app_cons. Qed.

Lemma byteAt_app (pre : string) c (rest : string) :
  strings.byteAt (pre +:+ String c rest) (strings.len pre) = Go.Returned c.
Proof.
  unfold strings.byteAt. rewrite len_app. unfold strings.len.
  cbn [String.length].
  rewrite (proj2 (Z.leb_le 0 _)) by lia. rewrite (proj2 (Z.ltb_lt _ _)) by lia.
  cbn [andb]. by rewrite Nat2Z.id, get_app_length.
Qed.

Lemma byteAt_end (s : string) :
  strings.byteAt s (strings.len s) =
    Go.Panicked (Go.IndexOutOfRange (strings.len s) (strings.len s)).
Proof.
  unfold strings.byteAt. rewrite Z.ltb_irrefl. by rewrite andb_false_r.
Qed.

Lemma byteAt_Returned (s : string) i c :
  strings.byteAt s i = Go.Returned c ->
  0 <= i < strings.len s /\ String.get (Z.to_nat i) s = Some c.
Proof.
  unfold strings.byteAt.
  destruct ((0 <=? i) && (i <? strings.len s)) eqn:Hi; [|done].
  apply andb_true_iff in Hi as [Hlo%Z.leb_le Hhi%Z.ltb_lt].
  destruct (String.get (Z.to_nat i) s) as [c'|]; [|done]. by intros [= <-].
Qed.

Lemma scanTagEnd_S fuel svg i :
  scanTagEnd (S fuel) svg i =
    (c ← strings.byteAt svg i;
     if Ascii.eqb c ">" then mret i else scanTagEnd fuel svg (i + 1)).
Proof. reflexivity. Qed.

Lemma scanTagEnd_O svg i :
  scanTagEnd 0 svg i =
    (c ← strings.byteAt svg i;
     if Ascii.eqb c ">" then mret i
     else Go.Panicked (Go.IndexOutOfRange (i + 1) (strings.len svg))).
Proof. reflexivity. Qed.

(** The loop stops at the first [>] at or behind its start. *)
Lemma scanTagEnd_finds (tag : string) : forall (pre rest : string) fuel,
  closeAngle ∉ list_ascii_of_string tag ->
  (String.length tag <= fuel)%nat ->
  scanTagEnd fuel (pre +:+ tag +:+ String closeAngle rest) (strings.len pre) =
    Go.Returned (strings.len pre + strings.len tag).
Proof.
  induction tag as [|c tag IH]; intros pre rest fuel Hno Hfuel.
  - change (""%string +:+ String closeAngle rest) with (String closeAngle rest).
    change (strings.len "") with 0. rewrite Z.add_0_r.
    destruct fuel; [rewrite scanTagEnd_O|rewrite scanTagEnd_S];
      by rewrite byteAt_app.
  - destruct fuel as [|fuel]; [simpl in Hfuel; lia|].
    rewrite scanTagEnd_S, string_app_cons, byteAt_app.
    cbn [mbind result_bind Go.bind].
    destruct (Ascii.eqb_spec c ">") as [->|_];
      [exfalso; apply Hno; simpl; apply list_elem_of_here|].
    rewrite string_app_snoc.
    replace (strings.len pre + 1) with (strings.len (pre +:+ String c ""))
      by (rewrite len_app; done).
    rewrite IH.
    + f_equal. rewrite len_app. unfold strings.len. cbn [String.length]. lia.
    + intros H. apply Hno. simpl. by apply list_elem_of_further.
    + simpl in Hfuel. lia.
Qed.

(** Without a [>] the loop runs off the end of the text. *)
Lemma scanTagEnd_runs_off (tail : string) : forall (pre : string) fuel,
  closeAngle ∉ list_ascii_of_string tail ->
  (String.length tail <= fuel)%nat ->
  scanTagEnd fuel (pre +:+ tail) (strings.len pre) =
    Go.Panicked (Go.IndexOutOfRange (strings.len (pre +:+ tail))
                                    (strings.len (pre +:+ tail))).
Proof.
  induction tail as [|c tail IH]; intros pre fuel Hno Hfuel.
  - rewrite string_app_nil_r.
    destruct fuel; [rewrite scanTagEnd_O|rewrite scanTagEnd_S];
      by rewrite byteAt_end.
  - destruct fuel as [|fuel]; [simpl in Hfuel; lia|].
    rewrite scanTagEnd_S, byteAt_app.
    cbn [mbind result_bind Go.bind].
    destruct (Ascii.eqb_spec c ">") as [->|_];
      [exfalso; apply Hno; simpl; apply list_elem_of_here|].
    rewrite string_app_snoc.
    replace (strings.len pre + 1) with (strings.len (pre +:+ String c ""))
      by (rewrite len_app; done).
    apply IH.
    + intros H. apply Hno. simpl. by apply list_elem_of_further.
    + simpl in Hfuel. lia.
Qed.

Lemma scanTagEnd_Returned svg : forall fuel i j,
  scanTagEnd fuel svg i = Go.Returned j ->
  0 <= j < strings.len svg /\
  String.get (Z.to_nat j) svg = Some closeAngle.
Proof.
  induction fuel as [|fuel IH]; intros i j;
    [rewrite scanTagEnd_O|rewrite scanTagEnd_S];
    destruct (strings.byteAt svg i) as [c|p] eqn:Hc; try done;
    cbn [mbind result_bind Go.bind];
    (destruct (Ascii.eqb_spec c ">") as [->|_];
     [intros [= <-]; by apply byteAt_Returned|]).
  - done.
  - apply IH.
Qed.

Lemma substring_all (s : string) : String.substring 0 (String.length s) s = s.
Proof. induction s as [|c s IH]; [done|]. simpl. by rewrite IH. Qed.

Lemma substring_0_0 (s : string) : String.substring 0 0 s = ""%string.
Proof. by destruct s. Qed.

Lemma substring_split (s : string) : forall n,
  (n <= String.length s)%nat ->
  String.substring 0 n s +:+ String.substring n (String.length s - n) s = s.
Proof.
  induction s as [|c s IH]; intros n Hn.
  - simpl in Hn. by replace n with 0%nat by lia.
  - destruct n as [|n].
    + rewrite substring_0_0, Nat.sub_0_r, substring_all. done.
    + simpl in Hn. cbn [String.substring String.length Nat.sub].
      rewrite string_app_cons, IH by lia. done.
Qed.

Lemma substring_snoc (s : string) : forall j c,
  String.get j s = Some c ->
  String.substring 0 (S j) s = String.substring 0 j s +:+ String c "".
Proof.
  induction s as [|b s IH]; intros j c; [by destruct j|].
  destruct j as [|j].
  - simpl. intros [= <-]. by rewrite substring_0_0.
  - cbn [String.get]. intros Hj. cbn [String.substring].
    rewrite (IH _ _ Hj). by rewrite string_app_cons.
Qed.

Lemma substring_app_l (a b : string) :
  String.substring 0 (String.length a) (a +:+ b) = a.
Proof.
  induction a as [|c a IH]; [apply substring_0_0|].
  rewrite string_app_cons. simpl. by rewrite IH.
Qed.

Lemma substring_app_r (a b : string) :
  String.substring (String.length a) (String.length b) (a +:+ b) = b.
Proof.
  induction a as [|c a IH]; [apply substring_all|].
  by rewrite string_app_cons.
Qed.

Lemma sliceTo_returns (s : string) i :
  0 <= i <= strings.len s ->
  sliceTo s i = Go.Returned (String.substring 0 (Z.to_nat i) s).
Proof.
  intros Hi. unfold sliceTo.
  rewrite (proj2 (Z.leb_le 0 i)), (proj2 (Z.leb_le i _)) by lia. done.
Qed.

Lemma sliceFrom_returns (s : string) i :
  0 <= i <= strings.len s ->
  sliceFrom s i =
    Go.Returned (String.substring (Z.to_nat i) (String.length s - Z.to_nat i) s).
Proof.
  intros Hi. unfold sliceFrom.
  rewrite (proj2 (Z.leb_le 0 i)), (proj2 (Z.leb_le i _)) by lia. done.
Qed.

(** X15: whenever [addCssToSvg] returns, the document it returns is the
    input with the style sheet put in right behind a [>]: taking the
    style sheet out again gives the input back, byte for byte, and the
    input contains [<svg]. *)
Theorem addCssToSvg_splices svg css out :
  addCssToSvg svg css = Go.Returned out ->
  exists before after : string,
    svg = (before +:+ ">") +:+ after /\
    out = (before +:+ ">") +:+ css +:+ after /\
    contains svg "<svg".
Proof.
  unfold addCssToSvg. intros H.
  destruct (scanTagEnd (String.length svg) svg (strings.Index svg "<svg"))
    as [j|p] eqn:Hscan; [|done].
  cbn [mbind result_bind Go.bind] in H.
  destruct (scanTagEnd_Returned _ _ _ _ Hscan) as [Hj Hget].
  rewrite sliceTo_returns, sliceFrom_returns in H by lia.
  cbn [mbind result_bind Go.bind mret result_ret] in H. injection H as <-.
  replace (Z.to_nat (j + 1)) with (S (Z.to_nat j)) by lia.
  exists (String.substring 0 (Z.to_nat j) svg),
    (String.substring (S (Z.to_nat j))
       (String.length svg - S (Z.to_nat j)) svg).
  pose proof (substring_snoc _ _ _ Hget) as Hs.
  change (String closeAngle "") with ">"%string in Hs. rewrite <- Hs.
  split; [|split; [done|]].
  - symmetry. apply substring_split. unfold strings.len in Hj. lia.
  - unfold strings.Index in Hscan.
    destruct (String.index 0 "<svg" svg) as [m|] eqn:Hm;
      [by eapply index_Some_contains|].
    by rewrite scanTagEnd_negative in Hscan.
Qed.

Lemma addCssToSvg_splices_witness :
  exists before after : string,
    "<?xml?><svg width='1'><g/></svg>"%string = (before +:+ ">") +:+ after /\
    "<?xml?><svg width='1'><style></style><g/></svg>"%string
      = (before +:+ ">") +:+ "<style></style>" +:+ after /\
    contains "<?xml?><svg width='1'><g/></svg>" "<svg".
Proof.
  apply (addCssToSvg_splices "<?xml?><svg width='1'><g/></svg>"
           "<style></style>"
           "<?xml?><svg width='1'><style></style><g/></svg>").
  reflexivity.
Defined.

Lemma prefix_svg_early b (pre post : string) :
  String.prefix "<svg" (String b (pre +:+ "<svg" +:+ post)) = true ->
  contains (String b pre +:+ "<sv") "<svg".
Proof.
  intros Hp. destruct (prefix_app _ _ Hp) as [post' Heq]. clear Hp.
  destruct pre as [|c1 [|c2 [|c3 pre]]]; cbn [String.append] in Heq;
    try discriminate Heq.
  injection Heq as -> -> -> -> _.
  by exists ""%string, (pre +:+ "<sv").
Qed.

(** The first occurrence of [<svg] in a text that has none before. *)
Lemma index_first_svg (pre post : string) :
  ~ contains (pre +:+ "<sv") "<svg" ->
  String.index 0 "<svg" (pre +:+ "<svg" +:+ post) = Some (String.length pre).
Proof.
  induction pre as [|b pre IH]; intros Hno.
  - change (""%string +:+ "<svg" +:+ post) with (String "<" ("svg" +:+ post)).
    rewrite index_cons_0.
    change (String "<" ("svg" +:+ post)) with ("<svg" +:+ post).
    by rewrite app_prefix.
  - rewrite string_app_cons, index_cons_0.
    destruct (String.prefix "<svg" (String b (pre +:+ "<svg" +:+ post))) eqn:Hp.
    + exfalso. by apply Hno, (prefix_svg_early b pre post).
    + rewrite IH; [done|]. intros (p1 & p2 & Heq). apply Hno.
      exists (String b p1), p2. by rewrite !string_app_cons, Heq.
Qed.

(** X16: in a document [pre <svg attrs > rest], where [<svg] does not
    occur earlier and [attrs] has no [>], the style sheet goes between
    the [>] that closes the tag and [rest]. *)
Theorem addCssToSvg_behind_first_tag (pre attrs rest css : string) :
  ~ contains (pre +:+ "<sv") "<svg" ->
  closeAngle ∉ list_ascii_of_string attrs ->
  addCssToSvg (pre +:+ "<svg" +:+ attrs +:+ ">" +:+ rest) css =
    Go.Returned (pre +:+ "<svg" +:+ attrs +:+ ">" +:+ css +:+ rest).
Proof.
  intros Hfirst Hattrs. unfold addCssToSvg, strings.Index.
  rewrite index_first_svg by done.
  set (tag := "<svg" +:+ attrs).
  assert (pre +:+ "<svg" +:+ attrs +:+ ">" +:+ rest
          = pre +:+ tag +:+ String closeAngle rest) as Hsvg
    by (unfold tag; by rewrite !string_app_assoc).
  rewrite Hsvg.
  assert (closeAngle ∉ list_ascii_of_string tag) as Htag.
  { unfold tag. rewrite list_ascii_app, elem_of_app. intros [H|H]; [|done].
    simpl in H.
    repeat (apply elem_of_cons in H as [H|H]; [discriminate H|]).
    by apply elem_of_nil in H. }
  change (Z.of_nat (String.length pre)) with (strings.len pre).
  rewrite scanTagEnd_finds; [|done|rewrite !length_string_app; lia].
  cbn [mbind result_bind Go.bind].
  assert (pre +:+ tag +:+ String closeAngle rest
          = (pre +:+ tag +:+ ">") +:+ rest) as Hcut
    by (by rewrite !string_app_assoc).
  assert (strings.len pre + strings.len tag + 1
          = strings.len (pre +:+ tag +:+ ">")) as Hlen
    by (rewrite !len_app; change (strings.len ">") with 1; lia).
  rewrite Hlen, Hcut.
  assert (0 <= strings.len (pre +:+ tag +:+ ">")
            <= strings.len ((pre +:+ tag +:+ ">") +:+ rest)) as Hin
    by (rewrite (len_app _ rest); unfold strings.len; lia).
  rewrite sliceTo_returns, sliceFrom_returns by done.
  cbn [mbind result_bind Go.bind mret result_ret]. f_equal.
  unfold strings.len. rewrite !Nat2Z.id.
  rewrite substring_app_l.
  replace (String.length ((pre +:+ tag +:+ ">") +:+ rest)
           - String.length (pre +:+ tag +:+ ">"))%nat
    with (String.length rest) by (rewrite (length_string_app _ rest); lia).
  rewrite substring_app_r. unfold tag. by rewrite !string_app_assoc.
Qed.

Lemma addCssToSvg_behind_first_tag_witness :
  addCssToSvg ("<?xml?>" +:+ "<svg" +:+ " width='1'" +:+ ">" +:+ "<g/></svg>")
    "<style></style>" =
  Go.Returned ("<?xml?>" +:+ "<svg" +:+ " width='1'" +:+ ">" +:+
               "<style></style>" +:+ "<g/></svg>").
Proof.
  apply addCssToSvg_behind_first_tag.
  - intros H. apply Index_not_found in H; [done|]. reflexivity.
  - simpl. intros H.
    repeat (apply elem_of_cons in H as [H|H]; [discriminate H|]).
    by apply elem_of_nil in H.
Defined.

(** X17: in a document whose first [<svg] is followed by no [>], the
    scan for the end of the tag runs off the end of the text: the
    function panics with the length of the text as index. *)
Theorem addCssToSvg_unclosed_tag (pre rest css : string) :
  ~ contains (pre +:+ "<sv") "<svg" ->
  closeAngle ∉ list_ascii_of_string rest ->
  addCssToSvg (pre +:+ "<svg" +:+ rest) css =
    Go.Panicked (Go.IndexOutOfRange (strings.len (pre +:+ "<svg" +:+ rest))
                                    (strings.len (pre +:+ "<svg" +:+ rest))).
Proof.
  intros Hfirst Hrest. unfold addCssToSvg, strings.Index.
  rewrite index_first_svg by done.
  change (Z.of_nat (String.length pre)) with (strings.len pre).
  rewrite scanTagEnd_runs_off; [done| |rewrite !length_string_app; lia].
  rewrite list_ascii_app, elem_of_app. intros [H|H]; [|done].
  simpl in H.
  repeat (apply elem_of_cons in H as [H|H]; [discriminate H|]).
  by apply elem_of_nil in H.
Qed.

Lemma addCssToSvg_unclosed_tag_witness :
  addCssToSvg ("<?xml?" +:+ "<svg" +:+ " width='1'") "<style></style>" =
    Go.Panicked (Go.IndexOutOfRange
                   (strings.len ("<?xml?" +:+ "<svg" +:+ " width='1'"))
                   (strings.len ("<?xml?" +:+ "<svg" +:+ " width='1'"))).
Proof.
  apply addCssToSvg_unclosed_tag.
  - intros H. apply Index_not_found in H; [done|]. reflexivity.
  - simpl. intros H.
    repeat (apply elem_of_cons in H as [H|H]; [discriminate H|]).
    by apply elem_of_nil in H.
Defined.

(** ** The command line and the files *)

Lemma index_lookup {A} (xs : list A) (n : nat) x :
  xs !! n = Some x -> index xs (Z.of_nat n) = Go.Returned x.
Proof.
  intros H. unfold index. pose proof (lookup_lt_Some _ _ _ H) as Hlt.
  rewrite (proj2 (Z.leb_le 0 _)), (proj2 (Z.ltb_lt _ _)) by lia.
  cbn [andb]. by rewrite Nat2Z.id, H.
Qed.

(** X18: with exactly two arguments the guard of [main] lets the run
    pass, and the access to the third argument panics: nothing is
    printed, read or written. *)
Theorem main_exactly_two_arguments rt Args :
  length Args = 3%nat ->
  main rt Args = mkRun [] (Go.Panicked (Go.IndexOutOfRange 3 3)).
Proof.
  intros Hlen. destruct Args as [|a0 [|a1 [|a2 [|a3 rest]]]]; try done.
Qed.

Lemma main_exactly_two_arguments_witness :
  main noRuntime ["animate"; "in.svg"; "script"]%string =
    mkRun [] (Go.Panicked (Go.IndexOutOfRange 3 3)).
Proof. apply main_exactly_two_arguments. reflexivity. Defined.

Lemma main_four_arguments rt program a1 a2 a3 rest :
  main rt (program :: a1 :: a2 :: a3 :: rest) = translate rt a1 a2 a3.
Proof.
  unfold main. rewrite (proj2 (Z.ltb_ge _ 3)) by (cbn [length]; lia).
  rewrite (index_lookup _ 1 a1), (index_lookup _ 2 a2), (index_lookup _ 3 a3)
    by done.
  by rewrite !bind_lift_returned.
Qed.

(** X19: [main] reads the first three arguments only: whatever follows
    them on the command line is ignored. *)
Theorem main_ignores_further_arguments rt program a1 a2 a3 rest :
  main rt (program :: a1 :: a2 :: a3 :: rest) = main rt [program; a1; a2; a3].
Proof. by rewrite !main_four_arguments. Qed.

Lemma parseWait_outputs line : noWrite (outputs (parseWait line)).
Proof.
  unfold parseWait, noWrite.
  destruct (index (strings.Split line " ") 1) as [field|p]; [|by constructor].
  rewrite bind_lift_returned.
  destruct (strconv.Atoi field) as [v [e|]]; simpl; repeat constructor; auto.
Qed.

Lemma tokenizeLine_outputs tokens line :
  noWrite (outputs (tokenizeLine tokens line)).
Proof.
  rewrite tokenizeLine_cases.
  destruct (strings.HasPrefix line "show");
    [destruct (parseShow line); by constructor|].
  destruct (strings.HasPrefix line "hide");
    [destruct (parseHide line); by constructor|].
  destruct (strings.HasPrefix line "wait"); [|by constructor].
  rewrite outputs_bind. pose proof (parseWait_outputs line).
  destruct (outcome (parseWait line)); [|done].
  simpl. by rewrite app_nil_r.
Qed.

Lemma tokenizeFrom_outputs lines : forall tokens,
  noWrite (outputs (tokenizeFrom tokens lines)).
Proof.
  induction lines as [|line lines IH]; intros tokens; [by constructor|].
  cbn [tokenizeFrom]. rewrite outputs_bind.
  pose proof (tokenizeLine_outputs tokens line).
  destruct (outcome (tokenizeLine tokens line)); [|done].
  apply Forall_app. split; [done|apply IH].
Qed.

Lemma translate_outputs rt inputSvgFile inputAnimation outputSvgFile :
  match outcome (translate rt inputSvgFile inputAnimation outputSvgFile) with
  | Go.Returned _ =>
      exists pre data,
        outputs (translate rt inputSvgFile inputAnimation outputSvgFile)
          = pre ++ [WriteFile outputSvgFile data
                      (WriteFileOk rt outputSvgFile data)] /\
        noWrite pre
  | Go.Panicked _ =>
      noWrite (outputs (translate rt inputSvgFile inputAnimation outputSvgFile))
  end.
Proof.
  unfold translate.
  set (lines := ReadLine rt (default ""%string (ReadFile rt inputAnimation))).
  pose proof (tokenizeFrom_outputs lines []) as Htok.
  fold (tokenize lines) in Htok.
  destruct (tokenize lines) as [outs [tokens|p]]; [|done].
  cbn [outputs] in Htok.
  unfold calculateStep. cbv zeta.
  destruct (calculateKeyframes_returns tokens (stepOf (totalMsOf tokens)))
    as (kfs & Hkfs & _).
  assert (noWrite (outs ++ (PrintToken <$> tokens) ++
                     [PrintStep (stepOf (totalMsOf tokens));
                      PrintTotalMs (totalMsOf tokens)])) as Hpre.
  { apply Forall_app. split; [done|]. apply Forall_app. split.
    - apply Forall_fmap, Forall_true. auto.
    - repeat constructor; auto. }
  repeat (rewrite ?outcome_bind, ?outputs_bind;
          cbn [outcome outputs emitAll emit lift]).
  rewrite Hkfs.
  destruct (addCssToSvg _ _) as [svg|p] eqn:Hsvg;
    repeat (rewrite ?outcome_bind, ?outputs_bind;
            cbn [outcome outputs emit lift app]).
  - eexists _, svg. split; [|exact Hpre]. by rewrite <- !app_assoc.
  - exact Hpre.
Qed.

(** X20: the program calls [os.WriteFile] only as its last action,
    after the whole translation has gone through: a run that panics
    has not called it, and a run that returns has either printed the
    usage line only or called it once, on the file the third argument
    names.  The error of the call is dropped: the run returns whether
    or not the file could be written. *)
Theorem main_writes_last rt Args :
  match outcome (main rt Args) with
  | Go.Returned _ =>
      outputs (main rt Args) = [PrintUsage] \/
      exists pre name data,
        Args !! 3%nat = Some name /\
        outputs (main rt Args)
          = pre ++ [WriteFile name data (WriteFileOk rt name data)] /\
        noWrite pre
  | Go.Panicked _ => noWrite (outputs (main rt Args))
  end.
Proof.
  destruct Args as [|a0 [|a1 [|a2 [|a3 rest]]]].
  1-3: by left.
  1: by constructor.
  rewrite main_four_arguments.
  pose proof (translate_outputs rt a1 a2 a3) as H.
  destruct (outcome (translate rt a1 a2 a3)); [|done].
  destruct H as (pre & data & Hout & Hpre).
  right. by exists pre, a3, data.
Qed.

(** X21: an input SVG that cannot be opened is not reported: the error
    of [ReadFile] is dropped, the run goes on with the empty document
    and, once the script is tokenized, panics in [addCssToSvg] at
    index -1 of a text of length 0. *)
Theorem translate_unreadable_svg rt inputSvgFile inputAnimation outputSvgFile tokens :
  ReadFile rt inputSvgFile = None ->
  outcome (tokenize (ReadLine rt (default ""%string (ReadFile rt inputAnimation))))
    = Go.Returned tokens ->
  outcome (translate rt inputSvgFile inputAnimation outputSvgFile)
    = Go.Panicked (Go.IndexOutOfRange (-1) 0).
Proof.
  intros Hsvg Htok. unfold translate.
  rewrite outcome_bind, Htok. unfold calculateStep. cbv zeta.
  destruct (calculateKeyframes_returns tokens (stepOf (totalMsOf tokens)))
    as (kfs & Hkfs & _).
  repeat (rewrite ?outcome_bind; cbn [outcome emitAll emit lift]).
  by rewrite Hkfs, Hsvg.
Qed.

Lemma translate_unreadable_svg_witness :
  outcome (translate noRuntime "in.svg" "script" "out.svg")
    = Go.Panicked (Go.IndexOutOfRange (-1) 0).
Proof.
  apply (translate_unreadable_svg noRuntime "in.svg" "script" "out.svg" []);
    reflexivity.
Defined.

(** X22: a script without show and hide instructions compiles to the
    empty map, and the style sheet of the empty map is the empty
    [style] element. *)
Theorem no_objects_empty_style tokens step :
  Forall (fun t => Type_ t = wait) tokens ->
  calculateKeyframes tokens step = Go.Returned ∅ /\
  forall formatFloat32 visited totalMs,
    rangeOver ∅ visited ->
    generateCssAnimation formatFloat32 visited totalMs = "<style></style>"%string.
Proof.
  intros Hwaits. split.
  - destruct (calculateKeyframes_returns tokens step) as (kfs & -> & Hlook).
    f_equal. apply map_empty. intros id. rewrite Hlook.
    rewrite decide_False; [done|]. unfold referenced, refers.
    rewrite Exists_exists. intros (t & Ht & Hty & _).
    rewrite Forall_forall in Hwaits. by apply Hty, Hwaits.
  - intros formatFloat32 visited totalMs Hrange. unfold rangeOver in Hrange.
    rewrite map_to_list_empty in Hrange. by apply Permutation_nil_r in Hrange as ->.
Qed.

Lemma no_objects_empty_style_witness :
  calculateKeyframes [mkToken wait "" 1000] F32.c100 = Go.Returned ∅ /\
  forall formatFloat32 visited totalMs,
    rangeOver ∅ visited ->
    generateCssAnimation formatFloat32 visited totalMs = "<style></style>"%string.
Proof.
  apply (no_objects_empty_style [mkToken wait "" 1000] F32.c100).
  by repeat constructor.
Defined.

(** ** Transitions *)

(** X23: between the seed and the closing keyframe, the list of an
    object holds one pair of keyframes per show or hide that names it,
    in script order: the pair of a show goes from opacity 0 to 1, the
    pair of a hide from 1 to 0, and the stage of the second keyframe
    is the stage of the first plus one step. *)
Theorem keyframes_transitions tokens step id :
  referenced id tokens ->
  exists (kfs : keyframeMap) (ps : list (keyframe * keyframe)),
    calculateKeyframes tokens step = Go.Returned kfs /\
    kfs !! id = Some (closeList (seedKeyframe :: flatPairs ps)) /\
    Forall2 (transitionOf step) (references id tokens) ps.
Proof.
  intros Href.
  destruct (calculateKeyframes_returns tokens step) as (kfs & Hret & Hlook).
  specialize (Hlook id). rewrite decide_True in Hlook by done.
  destruct (pairsOf_transitions step id tokens F32.zero) as (ps & Hps & Htr).
  exists kfs, ps. rewrite Hps in Hlook. done.
Qed.

Lemma keyframes_transitions_witness :
  exists (kfs : keyframeMap) (ps : list (keyframe * keyframe)),
    calculateKeyframes script5 F32.c100 = Go.Returned kfs /\
    kfs !! "cell1"%string = Some (closeList (seedKeyframe :: flatPairs ps)) /\
    Forall2 (transitionOf F32.c100) (references "cell1" script5) ps.
Proof.
  apply (keyframes_transitions script5 F32.c100 "cell1").
  apply Exists_cons. left. split; [discriminate|reflexivity].
Defined.

(** ** The fields that are read *)

Lemma walkToken_sameEffect step w t t' :
  sameEffect t t' -> walkToken step w t = walkToken step w t'.
Proof.
  destruct t as [ty id x], t' as [ty' id' x']. unfold sameEffect.
  cbn [Type_ Id Wait]. intros [<- H]. destruct ty; by subst.
Qed.

Lemma addWait_sameEffect totalMs t t' :
  sameEffect t t' -> addWait totalMs t = addWait totalMs t'.
Proof.
  destruct t as [ty id x], t' as [ty' id' x']. unfold sameEffect, addWait.
  cbn [Type_ Id Wait]. intros [<- H]. destruct ty; by subst.
Qed.

(** X24: of a show or hide the compiler reads the id only, of a wait
    the duration only: the default wait 1000 that the tokenizer stores
    in every show and hide has no effect on the step, the total or the
    keyframes. *)
Theorem fields_read tokens tokens' :
  Forall2 sameEffect tokens tokens' ->
  calculateStep tokens = calculateStep tokens' /\
  forall step, calculateKeyframes tokens step = calculateKeyframes tokens' step.
Proof.
  intros Hsame. split.
  - unfold calculateStep, totalMsOf. generalize 0.
    induction Hsame as [|t t' l l' Ht _ IH]; intros acc; [done|].
    cbn [fold_left]. rewrite (addWait_sameEffect acc t t' Ht).
    specialize (IH (addWait acc t')). by injection IH as -> ->.
  - intros step. unfold calculateKeyframes, walkTokens. f_equal. f_equal.
    generalize (initialWalk step).
    induction Hsame as [|t t' l l' Ht _ IH]; intros w; [done|].
    cbn [fold_left]. rewrite (walkToken_sameEffect step w t t' Ht). apply IH.
Qed.

Lemma fields_read_witness :
  calculateStep script5 = calculateStep script5' /\
  forall step, calculateKeyframes script5 step = calculateKeyframes script5' step.
Proof.
  apply fields_read. unfold script5, script5'.
  repeat constructor.
Defined.

(** ** A wait of zero *)

Lemma advance_zero step cur :
  F32.positiveFinite step -> F32.fits cur -> advance step cur 0 = cur.
Proof.
  destruct step as [| | |[] m e]; try done. intros _.
  by destruct cur as [[]|[]| |[] mc ec].
Qed.

(** The cursor along a script without negative waits. *)
Lemma walk_cursor_fits step tokens : forall w,
  F32.positiveFinite step ->
  F32.fits (currentStage w) ->
  nextStage w = F32.add (currentStage w) step ->
  (forall t, t ∈ tokens -> Type_ t = wait -> 0 <= Wait t) ->
  F32.fits (currentStage (fold_left (walkToken step) tokens w)) /\
  nextStage (fold_left (walkToken step) tokens w) =
    F32.add (currentStage (fold_left (walkToken step) tokens w)) step.
Proof.
  induction tokens as [|t tokens IH]; intros w Hstep Hfit Hnext Hwaits; [done|].
  cbn [fold_left].
  assert (forall t', t' ∈ tokens -> Type_ t' = wait -> 0 <= Wait t') as Hrest
    by (intros t' ?; apply Hwaits; by right).
  destruct (walkToken_cursor step w t) as [Hcur Hnxt].
  apply IH; try done.
  - rewrite Hcur. destruct (Type_ t) eqn:Ht; try done.
    apply advance_fits_le; try done. apply Hwaits; [by left|done].
  - rewrite Hcur, Hnxt. by destruct (Type_ t).
Qed.

(** X25: a wait of duration 0, which is also what a wait with a
    malformed number becomes, has no effect when it comes after waits
    that are not negative and the step is positive and finite: the
    total, the step and the keyframes are those of the script without
    it. *)
Theorem zero_wait_no_effect pre post id :
  (forall t, t ∈ pre -> Type_ t = wait -> 0 <= Wait t) ->
  0 < (calculateStep (pre ++ post)).2 ->
  calculateStep (pre ++ mkToken wait id 0 :: post) = calculateStep (pre ++ post) /\
  calculateKeyframes (pre ++ mkToken wait id 0 :: post)
      (calculateStep (pre ++ mkToken wait id 0 :: post)).1 =
    calculateKeyframes (pre ++ post) (calculateStep (pre ++ post)).1.
Proof.
  intros Hwaits Htotal.
  assert (calculateStep (pre ++ mkToken wait id 0 :: post)
          = calculateStep (pre ++ post)) as Hstep
    by (unfold calculateStep; by rewrite totalMsOf_zero_wait).
  split; [done|]. rewrite Hstep.
  set (step := (calculateStep (pre ++ post)).1).
  assert (F32.positiveFinite step) as Hpos.
  { unfold step, calculateStep in *. cbn [fst snd] in *.
    apply stepOf_positiveFinite.
    pose proof (totalMsOf_is_int (pre ++ post)) as Hint.
    unfold Go.is_int, Go.minInt, Go.maxInt in Hint. lia. }
  unfold calculateKeyframes, walkTokens. f_equal. f_equal.
  rewrite !fold_left_app. cbn [fold_left]. f_equal.
  destruct (walk_cursor_fits step pre (initialWalk step)) as [Hfit Hnext];
    try done.
  destruct (fold_left (walkToken step) pre (initialWalk step)) as [cur next kfs].
  cbn [currentStage nextStage] in *. unfold walkToken, seed.
  cbn [Type_ Wait currentStage nextStage keyframes].
  fold (advance step cur 0). rewrite advance_zero by done. by rewrite Hnext.
Qed.

Lemma zero_wait_no_effect_witness :
  calculateStep ([mkToken show "cell1" defaultWait] ++
                 mkToken wait "" 0 ::
                 [mkToken wait "" 1000; mkToken hide "cell1" defaultWait])
    = calculateStep ([mkToken show "cell1" defaultWait] ++
                     [mkToken wait "" 1000; mkToken hide "cell1" defaultWait]) /\
  calculateKeyframes
      ([mkToken show "cell1" defaultWait] ++
       mkToken wait "" 0 ::
       [mkToken wait "" 1000; mkToken hide "cell1" defaultWait])
      (calculateStep ([mkToken show "cell1" defaultWait] ++
                      mkToken wait "" 0 ::
                      [mkToken wait "" 1000; mkToken hide "cell1" defaultWait])).1
    = calculateKeyframes
        ([mkToken show "cell1" defaultWait] ++
         [mkToken wait "" 1000; mkToken hide "cell1" defaultWait])
        (calculateStep ([mkToken show "cell1" defaultWait] ++
                        [mkToken wait "" 1000; mkToken hide "cell1" defaultWait])).1.
Proof.
  apply zero_wait_no_effect.
  - intros t Ht Hty.
    apply elem_of_cons in Ht as [->|Ht]; [discriminate Hty|].
    by apply elem_of_nil in Ht.
  - reflexivity.
Defined.

(** ** The run as a whole *)

(** X26: once the script is tokenized, the run prints the messages of
    the tokenizer, every instruction, the step and the total, in this
    order; computing the keyframes cannot fail, so what follows depends
    on [addCssToSvg] alone: if it panics, the run panics with all of
    this printed and [os.WriteFile] not called; if it returns,
    [os.WriteFile] is called on the output file with the document and
    the run returns, whether the write succeeds or fails. *)
Theorem translate_run rt inputSvgFile inputAnimation outputSvgFile messages tokens :
  tokenize (ReadLine rt (default ""%string (ReadFile rt inputAnimation)))
    = mkRun messages (Go.Returned tokens) ->
  exists kfs : keyframeMap,
    calculateKeyframes tokens (calculateStep tokens).1 = Go.Returned kfs /\
    translate rt inputSvgFile inputAnimation outputSvgFile =
      let printed :=
        messages ++ (PrintToken <$> tokens) ++
        [PrintStep (calculateStep tokens).1; PrintTotalMs (calculateStep tokens).2] in
      match
        addCssToSvg (default ""%string (ReadFile rt inputSvgFile))
          (generateCssAnimation (formatFloat rt) (rangeOrder rt kfs)
             (calculateStep tokens).2)
      with
      | Go.Returned svg =>
          mkRun (printed ++
                 [WriteFile outputSvgFile svg (WriteFileOk rt outputSvgFile svg)])
                (Go.Returned tt)
      | Go.Panicked p => mkRun printed (Go.Panicked p)
      end.
Proof.
  intros Htok.
  destruct (calculateKeyframes_returns tokens (calculateStep tokens).1)
    as (kfs & Hkfs & _).
  exists kfs. split; [done|].
  unfold translate. rewrite Htok.
  unfold calculateStep in *. cbn [fst snd] in *. cbv zeta.
  unfold mbind at 1, run_bind at 1. cbn [outcome outputs].
  unfold emitAll, emit, lift, mbind, run_bind. cbn [outcome outputs].
  rewrite Hkfs. cbn [outcome outputs].
  destruct (addCssToSvg _ _) as [svg|p]; cbn [outcome outputs app];
    f_equal; by rewrite ?app_nil_r, <- ?app_assoc.
Qed.

Lemma translate_run_witness :
  exists kfs : keyframeMap,
    calculateKeyframes script5 (calculateStep script5).1 = Go.Returned kfs /\
    translate runtime5 "in.svg" "script" "out.svg" =
      let printed :=
        [] ++ (PrintToken <$> script5) ++
        [PrintStep (calculateStep script5).1; PrintTotalMs (calculateStep script5).2] in
      match
        addCssToSvg (default ""%string (ReadFile runtime5 "in.svg"))
          (generateCssAnimation (formatFloat runtime5) (rangeOrder runtime5 kfs)
             (calculateStep script5).2)
      with
      | Go.Returned svg =>
          mkRun (printed ++ [WriteFile "out.svg" svg false]) (Go.Returned tt)
      | Go.Panicked p => mkRun printed (Go.Panicked p)
      end.
Proof.
  apply (translate_run runtime5 "in.svg" "script" "out.svg" [] script5).
  reflexivity.
Defined.

(** ** The rule of each object *)

Lemma rulesFrom_contains formatFloat32 totalMs visited : forall n i k v,
  visited !! i = Some (k, v) ->
  exists pre post : string,
    rulesFrom formatFloat32 totalMs n visited =
      pre +:+ objectCss formatFloat32 totalMs (n + Z.of_nat i) k v +:+ post.
Proof.
  induction visited as [|kv visited IH]; intros n i k v Hi; [done|].
  cbn [rulesFrom]. destruct i as [|i].
  - injection Hi as ->. cbn [fst snd]. rewrite Z.add_0_r.
    by exists ""%string, (rulesFrom formatFloat32 totalMs (n + 1) visited).
  - destruct (IH (n + 1) i k v Hi) as (pre & post & ->).
    exists (objectCss formatFloat32 totalMs n kv.1 kv.2 +:+ pre), post.
    rewrite string_app_assoc.
    by replace (n + 1 + Z.of_nat i) with (n + Z.of_nat (S i)) by lia.
Qed.

(** X27: the style sheet holds, for the object that [range] visits at
    position [i], the rule that gives the element [cell-id] the
    animation [anim i] over the total duration, followed by the
    keyframes of [anim i] built from the list of the object. *)
Theorem generateCssAnimation_rule formatFloat32 visited totalMs i k v :
  visited !! i = Some (k, v) ->
  contains (generateCssAnimation formatFloat32 visited totalMs)
    ("#cell-" +:+ k +:+ " { animation: anim" +:+ pretty (Z.of_nat i) +:+ " " +:+
     pretty totalMs +:+ "ms linear infinite normal forwards; } " +:+
     "@keyframes anim" +:+ pretty (Z.of_nat i) +:+ " { " +:+
     String.concat "" (keyframeCss formatFloat32 <$> v) +:+ "}").
Proof.
  intros Hi. unfold generateCssAnimation. rewrite fold_emitObject. cbn [fst].
  destruct (rulesFrom_contains formatFloat32 totalMs visited 0 i k v Hi)
    as (pre & post & ->).
  exists ("<style>" +:+ pre), (post +:+ "</style>").
  rewrite Z.add_0_l.
  unfold objectCss, animationCss, keyframesCss, objectIdPrfix,
    animationNamePrefix.
  rewrite !string_app_assoc. reflexivity.
Qed.

Lemma generateCssAnimation_rule_witness :
  contains
    (generateCssAnimation (fun _ => "0"%string)
       [("a"%string, listA); ("b"%string, listA)] 1000)
    ("#cell-" +:+ "b" +:+ " { animation: anim" +:+ pretty (Z.of_nat 1) +:+ " " +:+
     pretty 1000 +:+ "ms linear infinite normal forwards; } " +:+
     "@keyframes anim" +:+ pretty (Z.of_nat 1) +:+ " { " +:+
     String.concat "" (keyframeCss (fun _ => "0"%string) <$> listA) +:+ "}").
Proof.
  apply (generateCssAnimation_rule (fun _ => "0"%string)
           [("a"%string, listA); ("b"%string, listA)] 1000 1 "b" listA).
  reflexivity.
Defined.
